(** * b-side: count-in metronome, MIDI recorder, event-file encoder and
      forced-duration player

    A shallow embedding of [Metronome.js], of the [MidiRecorder] class and of
    the [PrecisionMIDIPlayer] class, with the properties their specification
    states about them.

    Conventions of the embedding.
    - A JavaScript number that holds a time (seconds or milliseconds) or a
      tempo is a [number]: a finite rational, an infinity or NaN.  The
      arithmetic operators are those of binary64: the exact result rounded
      to the nearest binary64 number, ties to even ([round64]), with the
      overflow to the infinities and the special cases of IEEE 754; they
      are compared with the Standard Library's [SpecFloat] on sample
      operands ([operators_agree_with_SpecFloat]).  The one thing left
      out is the sign of zero, which the code modelled here could only
      meet as a divisor, in [60 / bpm] for a [bpm] of -0.
    - A JavaScript number that holds a note, a velocity, a tick count, a
      beat or loop count or a byte is an integer [Z]; the 32-bit coercion
      of the bitwise operators and the modulo-256 coercion of [Uint8Array]
      are written out.
    - [setTimeout] / [clearTimeout] act on an explicit list of pending
      timers carried by each object's state; [Tone.Transport] is an explicit
      timeline of scheduled actions.
    - [console.log] is not an observable effect and is dropped. *)

From Stdlib Require Import ZArith QArith Qround Qabs Qpower SpecFloat.
From Stdlib Require Import List Bool String Lia Lqa.
From Stdlib Require Import Sorting.Sorted Sorting.Permutation.
Import ListNotations.

Local Open Scope Z_scope.

(** ** JavaScript numerics *)

Module JS.

(** [ToInt32]: the coercion applied to both operands of [&], [|], [>>]. *)
Definition to_int32 (z : Z) : Z :=
  let m := z mod 4294967296 in
  if m <? 2147483648 then m else m - 4294967296.

Definition band (a b : Z) : Z := Z.land (to_int32 a) (to_int32 b).
Definition bor (a b : Z) : Z := Z.lor (to_int32 a) (to_int32 b).
(** [a >> n], the sign-propagating shift, for [0 <= n < 32]. *)
Definition shr (a n : Z) : Z := Z.shiftr (to_int32 a) n.

(** *** Numbers

    A finite number is written as the rational it is; the results of the
    operators are binary64 numbers, and so are the decimal literals of the
    source ([lit]). *)
Inductive number : Type :=
| Finite (q : Q)
| PlusInfinity
| MinusInfinity
| NaN.

(** The floor of the binary logarithm of a positive rational. *)
Definition log2_floor (q : Q) : Z :=
  let l := Z.log2 (Qnum q) - Z.log2 (Zpos (Qden q)) in
  if Qle_bool (2 ^ l) q then l else l - 1.

(** The exponent of the last place of the binary64 numbers around a
    positive rational: 53 significant bits, and no less than the -1074 of
    the subnormal numbers. *)
Definition last_place (q : Q) : Z := Z.max (-1074) (log2_floor q - 52).

(** The integer nearest to a rational; a tie goes to the even one. *)
Definition nearest_even (s : Q) : Z :=
  let f := Qfloor s in
  match (s - inject_Z f ?= 1 # 2)%Q with
  | Lt => f
  | Gt => f + 1
  | Eq => if Z.even f then f else f + 1
  end.

(** The binary64 number nearest to a positive rational, ties to even;
    [None] when that number would be 2^1024 or more. *)
Definition round_magnitude (q : Q) : option Q :=
  let e := last_place q in
  let v := (inject_Z (nearest_even (q / 2 ^ e)) * 2 ^ e)%Q in
  if Qle_bool (2 ^ 1024) v then None else Some (Qred v).

(** The binary64 number nearest to the rational [q]. *)
Definition round64 (q : Q) : number :=
  match Qnum q with
  | Z0 => Finite 0
  | Zpos _ =>
      match round_magnitude q with
      | Some v => Finite v
      | None => PlusInfinity
      end
  | Zneg _ =>
      match round_magnitude (- q) with
      | Some v => Finite (- v)
      | None => MinusInfinity
      end
  end.

(** The binary64 numbers: [m * 2 ^ e] with a significand below 2^53 and
    an exponent from -1074 to 971. *)
Definition binary64 (q : Q) : Prop :=
  exists m e : Z,
    Z.abs m < 2 ^ 53 /\ -1074 <= e <= 971 /\ (q == inject_Z m * 2 ^ e)%Q.

(** The multiples of the smallest binary64 number, 2^-1074. *)
Definition on_grid (q : Q) : Prop :=
  exists k : Z, (q == inject_Z k * 2 ^ (-1074))%Q.

(** A decimal literal of the source: the binary64 number nearest to it. *)
Definition lit (q : Q) : number := round64 q.

Definition negative (a : number) : bool :=
  match a with
  | Finite q => Qnum q <? 0
  | MinusInfinity => true
  | _ => false
  end.

Definition is_zero (a : number) : bool :=
  match a with
  | Finite q => Qeq_bool q 0
  | _ => false
  end.

Definition infinity (neg : bool) : number :=
  if neg then MinusInfinity else PlusInfinity.

Definition fneg (a : number) : number :=
  match a with
  | Finite q => Finite (- q)
  | PlusInfinity => MinusInfinity
  | MinusInfinity => PlusInfinity
  | NaN => NaN
  end.

(** [a + b]: the exact sum, rounded. *)
Definition fadd (a b : number) : number :=
  match a, b with
  | Finite x, Finite y => round64 (x + y)
  | NaN, _ | _, NaN => NaN
  | PlusInfinity, MinusInfinity | MinusInfinity, PlusInfinity => NaN
  | PlusInfinity, _ | _, PlusInfinity => PlusInfinity
  | MinusInfinity, _ | _, MinusInfinity => MinusInfinity
  end.

(** [a - b]. *)
Definition fsub (a b : number) : number := fadd a (fneg b).

(** [a * b]. *)
Definition fmul (a b : number) : number :=
  match a, b with
  | Finite x, Finite y => round64 (x * y)
  | NaN, _ | _, NaN => NaN
  | _, _ =>
      if is_zero a || is_zero b then NaN
      else infinity (xorb (negative a) (negative b))
  end.

(** [a / b]. *)
Definition fdiv (a b : number) : number :=
  match a, b with
  | Finite x, Finite y =>
      if Qeq_bool y 0 then
        if Qeq_bool x 0 then NaN else infinity (Qnum x <? 0)
      else round64 (x / y)
  | NaN, _ | _, NaN => NaN
  | Finite _, _ => Finite 0
  | _, Finite _ => infinity (xorb (negative a) (negative b))
  | _, _ => NaN
  end.

(** [a < b]. *)
Definition flt (a b : number) : bool :=
  match a, b with
  | Finite x, Finite y => negb (Qle_bool y x)
  | NaN, _ | _, NaN => false
  | _, MinusInfinity => false
  | MinusInfinity, _ => true
  | PlusInfinity, _ => false
  | _, PlusInfinity => true
  end.

(** [a > b]. *)
Definition fgt (a b : number) : bool := flt b a.

(** Whether a number counts as true in a condition and in [a || b]. *)
Definition truthy (a : number) : bool :=
  match a with
  | Finite q => negb (Qeq_bool q 0)
  | NaN => false
  | _ => true
  end.

(** [Math.round]: the nearest integer, ties towards +infinity. *)
Definition Math_round (x : number) : number :=
  match x with
  | Finite q => Finite (inject_Z (Qfloor (q + (1 # 2))))
  | _ => x
  end.

Definition Math_max (a b : number) : number :=
  match a, b with
  | NaN, _ | _, NaN => NaN
  | _, _ => if flt a b then b else a
  end.

Definition Math_min (a b : number) : number :=
  match a, b with
  | NaN, _ | _, NaN => NaN
  | _, _ => if flt b a then b else a
  end.

(** The integer a number stands for where the code uses it as one (an
    operand of [&] or [>>], which truncate it before they wrap it to 32
    bits): the number without its fraction, and 0 for an infinity and for
    NaN. *)
Definition integral (x : number) : Z :=
  match x with
  | Finite q => if Qnum q <? 0 then Qceiling q else Qfloor q
  | _ => 0
  end.

(** [new Uint8Array(array)]: every element is reduced modulo 256. *)
Definition Uint8Array (l : list Z) : list Z := map (fun z => z mod 256) l.

(** The outcome of a call that can [throw]. *)
Inductive completion (A : Type) : Type :=
| Normal (a : A)
| Throw (message : string).
Arguments Normal {A} a.
Arguments Throw {A} message.

(** Pending [setTimeout] timers: identifier, delay in ms, callback tag.
    Identifiers handed out by the host are positive, hence truthy. *)
Record timer (C : Type) : Type :=
  { timer_id : nat; timer_delay : number; timer_callback : C }.
Arguments timer_id {C} t.
Arguments timer_delay {C} t.
Arguments timer_callback {C} t.

Definition clear_timer {C} (id : nat) (ts : list (timer C)) : list (timer C) :=
  filter (fun t => negb (Nat.eqb (timer_id t) id)) ts.

(** The rational a finite number is. *)
Definition seconds (x : number) : Q :=
  match x with
  | Finite q => q
  | _ => 0%Q
  end.

End JS.

(** ** The operators against [SpecFloat]

    [SpecFloat] is the Standard Library's specification of the IEEE 754
    formats; binary64 has precision 53 and [emax] 1024. *)

Module IEEE.
Import JS.

(** The number a [spec_float] stands for. *)
Definition to_number (f : spec_float) : number :=
  match f with
  | S754_zero _ => Finite 0
  | S754_infinity false => PlusInfinity
  | S754_infinity true => MinusInfinity
  | S754_nan => NaN
  | S754_finite s m e =>
      Finite (Qred (inject_Z (if s then Zneg m else Zpos m) * 2 ^ e)%Q)
  end.

(** The binary64 number nearest to [m * 2^e]. *)
Definition nearest (m e : Z) : spec_float :=
  match m with
  | Z0 => S754_zero false
  | Zpos p => binary_round 53 1024 false p e
  | Zneg p => binary_round 53 1024 true p e
  end.

Definition same (a b : number) : bool :=
  match a, b with
  | Finite p, Finite q => Qeq_bool p q
  | PlusInfinity, PlusInfinity => true
  | MinusInfinity, MinusInfinity => true
  | NaN, NaN => true
  | _, _ => false
  end.

(** On the operands [m1 * 2^e1] and [m2 * 2^e2] the rounding, the four
    operators and the comparison give what [SpecFloat] gives. *)
Definition agree (operands : Z * Z * Z * Z) : bool :=
  let '(m1, e1, m2, e2) := operands in
  let x := nearest m1 e1 in
  let y := nearest m2 e2 in
  same (round64 (inject_Z m1 * 2 ^ e1)) (to_number x) &&
  same (fadd (to_number x) (to_number y)) (to_number (SFadd 53 1024 x y)) &&
  same (fsub (to_number x) (to_number y)) (to_number (SFsub 53 1024 x y)) &&
  same (fmul (to_number x) (to_number y)) (to_number (SFmul 53 1024 x y)) &&
  same (fdiv (to_number x) (to_number y)) (to_number (SFdiv 53 1024 x y)) &&
  Bool.eqb (flt (to_number x) (to_number y)) (SFltb x y).

(** The operands: the constants and sample values of the program (60 and
    a tempo, 9.6, 0.71, 0.1, 0.6, 160, 1000), ties, numbers below the
    normal range, overflows, zero divisors, mixed signs. *)
Definition samples : list (Z * Z * Z * Z) :=
  [ (60, 0, 100, 0); (60, 0, 120, 0); (60, 0, 7, 0); (1, 0, 10, 0);
    (96, 0, 10, 0); (71, 0, 100, 0); (16, 0, 3, 0); (100, 0, 60, 0);
    (5404319552844595, -49, 799388933858263, -50);
    (5404319552844595, -49, 411, -6);
    (5404319552844595, -49, 1000, 0);
    (5404319552844595, -53, 5404319552844595, -53);
    (5404319552844595, -52, 5404319552844595, -53);
    (3602879701896397, -55, 5500, 0);
    (3602879701896397, -55, 160, 0);
    (1, -5, 160, 0); (1, -6, 160, 0); (411, -6, 160, 0);
    (1, 0, 1, -53); (1, 0, 3, -53); (1, 0, 1, -54); (1, 0, -1, -54);
    (9007199254740993, 0, 1, 0); (9007199254740995, 0, 2, 0);
    (1, 1023, 1, 1023); (1, 1023, -1, 1023); (-1, 1023, -1, 1023);
    (9007199254740991, 971, 1, 970); (9007199254740991, 971, 1, 969);
    (1, 600, 1, 600); (1, 600, 1, -600);
    (1, -1074, 3, 0); (1, -1074, 1, 1); (3, -1074, 1, 1);
    (5, -1074, 1, 2); (1, -1075, 1, 0); (3, -1075, 1, 0);
    (1, -600, 1, -600); (1, -1022, 1, -53);
    (60, 0, 0, 0); (-60, 0, 0, 0); (0, 0, 0, 0); (0, 0, 60, 0);
    (-7, 0, 3, 0); (7, 0, -3, 0); (-7, 0, -3, 0);
    (12345678901234567890, 0, 98765432109876543210, -7);
    (1000000000000000000, 0, 60, 0); (1, 0, 1000000000000000000, 0) ].

End IEEE.

(** A rational stands for the finite number it is. *)
Coercion JS.Finite : Q >-> JS.number.
Bind Scope Q_scope with JS.number.

(** ** NoteEvent and the recorder ([MidiRecorder]) *)

Record NoteEvent : Type :=
  { note : Z; velocity : Z; time : JS.number; isNoteOn : bool }.

Module MidiRecorder.
Import JS.

(** The two timer bodies the recorder hands to [setTimeout]; both are
    [if (this.isRecording) this.stopRecording()]. *)
Inductive callback : Type :=
| InternalTimeoutFired
| SilenceTimeoutFired.

Record state : Type :=
  { isRecording : bool;
    recordedNotes : list NoteEvent;
    startTime : option number;
    recordingDuration : number;
    silenceTimeout : option nat;
    mode : string;
    wasCanceled : bool;
    internalTimeout : option nat;
    (* host side: the pending timers and the next identifier *)
    timers : list (timer callback);
    next_timer : nat }.

Definition constructor : state :=
  {| isRecording := false; recordedNotes := []; startTime := None;
     recordingDuration := 0; silenceTimeout := None; mode := "time";
     wasCanceled := false; internalTimeout := None;
     timers := []; next_timer := 1%nat |}.

Definition clearAllTimers (s : state) : state :=
  let s1 :=
    match silenceTimeout s with
    | Some id =>
        {| isRecording := isRecording s; recordedNotes := recordedNotes s;
           startTime := startTime s; recordingDuration := recordingDuration s;
           silenceTimeout := None; mode := mode s;
           wasCanceled := wasCanceled s; internalTimeout := internalTimeout s;
           timers := clear_timer id (timers s); next_timer := next_timer s |}
    | None => s
    end in
  match internalTimeout s1 with
  | Some id =>
      {| isRecording := isRecording s1; recordedNotes := recordedNotes s1;
         startTime := startTime s1; recordingDuration := recordingDuration s1;
         silenceTimeout := silenceTimeout s1; mode := mode s1;
         wasCanceled := wasCanceled s1; internalTimeout := None;
         timers := clear_timer id (timers s1); next_timer := next_timer s1 |}
  | None => s1
  end.

Definition clearAllState (s : state) : state :=
  clearAllTimers
    {| isRecording := isRecording s; recordedNotes := [];
       startTime := None; recordingDuration := 0;
       silenceTimeout := silenceTimeout s; mode := mode s;
       wasCanceled := wasCanceled s; internalTimeout := internalTimeout s;
       timers := timers s; next_timer := next_timer s |}.

Definition resetSilenceTimer (s : state) : state :=
  let pending :=
    match silenceTimeout s with
    | Some id => clear_timer id (timers s)
    | None => timers s
    end in
  let id := next_timer s in
  {| isRecording := isRecording s; recordedNotes := recordedNotes s;
     startTime := startTime s; recordingDuration := recordingDuration s;
     silenceTimeout := Some id; mode := mode s;
     wasCanceled := wasCanceled s; internalTimeout := internalTimeout s;
     timers := pending ++ [ {| timer_id := id; timer_delay := 2000;
                               timer_callback := SilenceTimeoutFired |} ];
     next_timer := S id |}.

(** [startRecording(mode, duration)]; [now] is [performance.now()]. *)
Definition startRecording (now : number) (md : string) (duration : number)
    (s : state) : state :=
  let s0 := clearAllState s in
  let s1 :=
    {| isRecording := true; recordedNotes := [];
       startTime := Some now; recordingDuration := fmul duration 1000;
       silenceTimeout := silenceTimeout s0; mode := md;
       wasCanceled := false; internalTimeout := internalTimeout s0;
       timers := timers s0; next_timer := next_timer s0 |} in
  if String.eqb md "time" then
    let id := next_timer s1 in
    {| isRecording := isRecording s1; recordedNotes := recordedNotes s1;
       startTime := startTime s1; recordingDuration := recordingDuration s1;
       silenceTimeout := silenceTimeout s1; mode := mode s1;
       wasCanceled := wasCanceled s1; internalTimeout := Some id;
       timers := timers s1 ++ [ {| timer_id := id;
                                   timer_delay := recordingDuration s1;
                                   timer_callback := InternalTimeoutFired |} ];
       next_timer := S id |}
  else if String.eqb md "silence" then resetSilenceTimer s1
  else s1.

(** [stopRecording()]: the new state and the returned value, [None]
    standing for [undefined]. *)
Definition stopRecording (s : state) : state * option (list NoteEvent) :=
  if negb (isRecording s) then (s, None)
  else
    let s1 :=
      clearAllTimers
        {| isRecording := false; recordedNotes := recordedNotes s;
           startTime := startTime s; recordingDuration := recordingDuration s;
           silenceTimeout := silenceTimeout s; mode := mode s;
           wasCanceled := wasCanceled s; internalTimeout := internalTimeout s;
           timers := timers s; next_timer := next_timer s |} in
    (s1, Some (recordedNotes s1)).

(** [cancelRecording()]: the new state and the returned value
    ([None] for [undefined], [Some true] for [true]). *)
Definition cancelRecording (s : state) : state * option bool :=
  if negb (isRecording s) then (s, None)
  else
    let s1 :=
      {| isRecording := false; recordedNotes := recordedNotes s;
         startTime := startTime s; recordingDuration := recordingDuration s;
         silenceTimeout := silenceTimeout s; mode := mode s;
         wasCanceled := true; internalTimeout := internalTimeout s;
         timers := timers s; next_timer := next_timer s |} in
    (clearAllState (clearAllTimers s1), Some true).

(** [addNote(note, velocity, timestamp, isNoteOn)].  A [null] start time
    coerces to 0 in the subtraction. *)
Definition addNote (n v : Z) (timestamp : number) (on : bool) (s : state)
  : state :=
  if negb (isRecording s) then s
  else
    let start := match startTime s with Some t => t | None => Finite 0 end in
    let relativeTime := fdiv (fsub timestamp start) 1000 in
    let s1 :=
      {| isRecording := isRecording s;
         recordedNotes :=
           recordedNotes s ++
             [ {| note := n; velocity := v; time := relativeTime;
                  isNoteOn := on |} ];
         startTime := startTime s; recordingDuration := recordingDuration s;
         silenceTimeout := silenceTimeout s; mode := mode s;
         wasCanceled := wasCanceled s; internalTimeout := internalTimeout s;
         timers := timers s; next_timer := next_timer s |} in
    if String.eqb (mode s1) "silence" && on then resetSilenceTimer s1 else s1.

(** The host fires the pending timer [id]: it leaves the pending list and
    its body runs.  Both bodies are guarded by [isRecording]. *)
Definition fire (id : nat) (s : state) : state :=
  match find (fun t => Nat.eqb (timer_id t) id) (timers s) with
  | None => s
  | Some _ =>
      let s1 :=
        {| isRecording := isRecording s; recordedNotes := recordedNotes s;
           startTime := startTime s; recordingDuration := recordingDuration s;
           silenceTimeout := silenceTimeout s; mode := mode s;
           wasCanceled := wasCanceled s; internalTimeout := internalTimeout s;
           timers := clear_timer id (timers s); next_timer := next_timer s |} in
      if isRecording s1 then fst (stopRecording s1) else s1
  end.

(** *** The encoder *)

(** [variableLengthQuantity]: the [while (value > 0)] loop.  On entry
    [value] is the result of a [>> 7] on a 32-bit integer, so it is below
    2^24 and the body runs at most four times; [fuel] bounds the
    iterations (see [vlq_loop_fuel]). *)
Fixpoint vlq_loop (fuel : nat) (value : Z) (bytes : list Z) : list Z :=
  match fuel with
  | O => bytes
  | S fuel' =>
      if 0 <? value
      then vlq_loop fuel' (shr value 7) (bor (band value 127) 128 :: bytes)
      else bytes
  end.

Definition variableLengthQuantity (value : Z) : list Z :=
  vlq_loop 4 (shr value 7) [band value 127].

Definition int32ToBytes (value : Z) : list Z :=
  [ band (shr value 24) 255; band (shr value 16) 255;
    band (shr value 8) 255; band value 255 ].

(** The comparator [(a, b) => a.time - b.time] asks for [b] before [a]
    when its result is greater than 0. *)
Definition comparator (a b : NoteEvent) : number := fsub (time a) (time b).

(** [[...notes].sort(comparator)]: [Array.prototype.sort] is stable, so
    for a consistent comparator, as this one is on finite times, the
    result is the stable sort by it; it is computed here by insertion
    from the right, an event going in front of the first one the
    comparator does not ask to come before it ([NaN] counts as 0). *)
Fixpoint insert_by_time (x : NoteEvent) (l : list NoteEvent) : list NoteEvent :=
  match l with
  | [] => [x]
  | y :: l' =>
      if fgt (comparator x y) 0 then y :: insert_by_time x l'
      else x :: l
  end.

Definition sort_by_time (notes : list NoteEvent) : list NoteEvent :=
  fold_right insert_by_time [] notes.

Definition firstNoteTime (sortedNotes : list NoteEvent) : number :=
  match sortedNotes with
  | [] => Finite 0
  | n :: _ => time n
  end.

Definition normalizedNotes (notes : list NoteEvent) : list NoteEvent :=
  let sortedNotes := sort_by_time notes in
  map (fun n => {| note := note n; velocity := velocity n;
                   time := fsub (time n) (firstNoteTime sortedNotes);
                   isNoteOn := isNoteOn n |})
      sortedNotes.

(** The delta-time of one user note, in ticks at 100 BPM, as
    [variableLengthQuantity] reads it. *)
Definition deltaTime (currentTime : number) (n : NoteEvent) : Z :=
  integral
    (Math_max 0 (Math_round (fmul (fsub (time n) currentTime) 160))).

(** One iteration of [for (const note of normalizedNotes)], the same in
    both encoders, on the pair ([events], [currentTime]). *)
Definition emit_note (acc : list Z * number) (n : NoteEvent)
  : list Z * number :=
  let '(events, currentTime) := acc in
  let status := if isNoteOn n then 144 else 128 in
  (events ++ variableLengthQuantity (deltaTime currentTime n)
          ++ [status; note n; velocity n],
   time n).

Definition end_of_track : list Z := [0; 255; 47; 0].

Definition createTrackData (notes : list NoteEvent) : list Z :=
  let '(events, _) :=
    fold_left emit_note (normalizedNotes notes) ([], Finite 0) in
  Uint8Array (events ++ end_of_track).

(** [const targetDuration = 9.6]. *)
Definition targetDuration : number := lit (96 # 10).

(** The delta of the sustain note-off, as [variableLengthQuantity] reads
    it. *)
Definition remainingTicks (currentTime : number) : Z :=
  integral (Math_round (fmul (fsub targetDuration currentTime) 160)).

Definition createPlaybackTrackData (notes : list NoteEvent) : list Z :=
  let sustain_on := variableLengthQuantity 0 ++ [144; 127; 1] in
  let '(events, currentTime) :=
    fold_left emit_note (normalizedNotes notes) (sustain_on, Finite 0) in
  Uint8Array (events ++ variableLengthQuantity (remainingTicks currentTime)
                     ++ [128; 127; 0] ++ end_of_track).

Definition header : list Z :=
  Uint8Array [77; 84; 104; 100; 0; 0; 0; 6; 0; 0; 0; 1; 0; 96].

Definition midi_file (trackData : list Z) : list Z :=
  let trackHeader :=
    Uint8Array ([77; 84; 114; 107]
                  ++ int32ToBytes (Z.of_nat (List.length trackData))) in
  header ++ trackHeader ++ trackData.

Definition createMidiData (notes : list NoteEvent) : list Z :=
  midi_file (createTrackData notes).

Definition createPlaybackMidiData (notes : list NoteEvent) : list Z :=
  midi_file (createPlaybackTrackData notes).

Record Blob : Type := { blob_bytes : list Z; blob_type : string }.

Definition convertToMidiBlob (s : state) : completion Blob :=
  if Nat.eqb (List.length (recordedNotes s)) 0 then Throw "No notes recorded"
  else Normal {| blob_bytes := createMidiData (recordedNotes s);
                 blob_type := "audio/midi" |}.

Definition createPlaybackMidiBlob (s : state) : completion Blob :=
  if Nat.eqb (List.length (recordedNotes s)) 0 then Throw "No notes recorded"
  else Normal {| blob_bytes := createPlaybackMidiData (recordedNotes s);
                 blob_type := "audio/midi" |}.

End MidiRecorder.

(** ** The decoder *)

Module Codec.

(** Modelled from the spec: the decoding half of the event-file codec,
    which this repository delegates to a third-party parser and which is
    not part of its sources.  Section 4.3: parse the header (validate
    magic and lengths), walk the track chunk, decode each variable-length
    delta by accumulating 7-bit groups until a byte without the
    continuation bit, reconstruct absolute tick positions, convert back to
    seconds with the same fixed tempo (160 ticks per second), and emit
    discrete NoteEvents; events other than note-on, note-off and
    end-of-track are skipped; a wrong magic, a declared length exceeding
    the buffer or a truncated buffer is a MalformedFileError, and nothing
    is read past the declared chunk length. *)
Inductive DecodeError : Type := MalformedFileError.

Definition big_endian (bytes : list Z) : Z :=
  fold_left (fun acc b => acc * 256 + b) bytes 0.

(** Modelled from the spec: the decoder's reading of a variable-length
    quantity, which is not in the sources; 7-bit groups are accumulated,
    most significant first, until a byte without the continuation bit. *)
Fixpoint read_vlq_from (acc : Z) (bytes : list Z) : option (Z * list Z) :=
  match bytes with
  | [] => None
  | b :: rest =>
      if b <? 128 then Some (acc * 128 + b, rest)
      else read_vlq_from (acc * 128 + (b - 128)) rest
  end.

Definition read_vlq (bytes : list Z) : option (Z * list Z) :=
  read_vlq_from 0 bytes.

(** The seconds of a tick position, at 160 ticks per second, as the
    exact quotient. *)
Definition ticks_to_seconds (tick : Z) : Q := inject_Z tick / 160.

(** Drops [n] bytes, or fails when fewer are left. *)
Definition skip (n : Z) (bytes : list Z) : option (list Z) :=
  if (n <? 0) || (Z.of_nat (List.length bytes) <? n) then None
  else Some (skipn (Z.to_nat n) bytes).

(** Modelled from the spec: the decoder's walk over the bytes of one
    track chunk, which is not in the sources.  Every round reads a delta
    and one event; note-on (status 9x) and note-off (8x) events are
    emitted at the absolute tick reached, the end-of-track meta event ends
    the walk, other meta events, system-exclusive events and the other
    channel events are skipped, and running out of bytes is an error.
    Every round consumes at least two bytes, so [fuel] equal to the chunk
    length is never exhausted before the bytes are. *)
Fixpoint walk_track (fuel : nat) (tick : Z) (bytes : list Z)
  : option (list NoteEvent) :=
  match fuel with
  | O => None
  | S fuel' =>
      match read_vlq bytes with
      | None => None
      | Some (delta, rest) =>
          let tick' := tick + delta in
          match rest with
          | [] => None
          | status :: rest1 =>
              if (status / 16 =? 9) || (status / 16 =? 8) then
                match rest1 with
                | n :: v :: rest2 =>
                    option_map
                      (cons {| note := n; velocity := v;
                               time := ticks_to_seconds tick';
                               isNoteOn := status / 16 =? 9 |})
                      (walk_track fuel' tick' rest2)
                | _ => None
                end
              else if status =? 255 then
                match rest1 with
                | [] => None
                | type :: rest2 =>
                    match read_vlq rest2 with
                    | None => None
                    | Some (len, rest3) =>
                        match skip len rest3 with
                        | None => None
                        | Some rest4 =>
                            if type =? 47 then Some []
                            else walk_track fuel' tick' rest4
                        end
                    end
                end
              else if (status =? 240) || (status =? 247) then
                match read_vlq rest1 with
                | None => None
                | Some (len, rest2) =>
                    match skip len rest2 with
                    | None => None
                    | Some rest3 => walk_track fuel' tick' rest3
                    end
                end
              else if (status / 16 =? 12) || (status / 16 =? 13) then
                match skip 1 rest1 with
                | None => None
                | Some rest2 => walk_track fuel' tick' rest2
                end
              else if (128 <=? status) && (status <? 240) then
                match skip 2 rest1 with
                | None => None
                | Some rest2 => walk_track fuel' tick' rest2
                end
              else None
          end
      end
  end.

Definition decode_track (chunk : list Z) : option (list NoteEvent) :=
  walk_track (List.length chunk) 0 chunk.

Definition MThd : list Z := [77; 84; 104; 100].
Definition MTrk : list Z := [77; 84; 114; 107].

Definition bytes_eqb (a b : list Z) : bool :=
  if list_eq_dec Z.eq_dec a b then true else false.

(** Modelled from the spec: the decoder's entry point, which is not in the
    sources; the header chunk (magic, length 6) and the track chunk (magic,
    declared length within the buffer) are validated, and only the declared
    bytes of the track are walked. *)
Definition decode (file : list Z) : DecodeError + list NoteEvent :=
  if negb (bytes_eqb (firstn 4 file) MThd) then inl MalformedFileError
  else if negb (big_endian (firstn 4 (skipn 4 file)) =? 6) then
    inl MalformedFileError
  else if Nat.ltb (List.length file) 14 then inl MalformedFileError
  else
    let rest := skipn 14 file in
    if negb (bytes_eqb (firstn 4 rest) MTrk) then inl MalformedFileError
    else if Nat.ltb (List.length rest) 8 then inl MalformedFileError
    else
      let len := big_endian (firstn 4 (skipn 4 rest)) in
      let body := skipn 8 rest in
      if Z.of_nat (List.length body) <? len then inl MalformedFileError
      else
        match decode_track (firstn (Z.to_nat len) body) with
        | Some events => inr events
        | None => inl MalformedFileError
        end.

End Codec.

(** ** The metronome ([Metronome.js]) *)

Module Metronome.
Import JS.

(** The bodies handed to [setTimeout]. *)
Inductive callback : Type :=
| SchedulerTick                               (* () => this.scheduler() *)
| StartMIDIRecording                          (* () => this.startMIDIRecording() *)
| ClearBeatCircle                             (* the 150 ms indicator reset *)
| StartDirectCapture (bufferedDuration : number).
                                              (* () => startDirectCapture(d) *)

(** What the beat indicator shows: the classes of [#beatCircle] and of
    [#beatCount], and the text of [#beatCount]. *)
Inductive label : Type :=
| Blank
| CountText (beat : Z)      (* beat.toString() *)
| BeatText (beat : Z).      (* `Beat ${beat}` *)

Record indicator : Type :=
  { circle_active : bool; circle_count_in : bool;
    count_count_in : bool; count_recording : bool;
    textContent : label }.

Record state : Type :=
  { isPlaying : bool;
    bpm : number;
    beatCount : Z;
    isCountingIn : bool;
    countInBeat : Z;
    recordingStarted : bool;
    audioContext : bool;
    intervalId : option nat;
    nextNoteTime : number;
    lookahead : number;
    scheduleAheadTime : number;
    (* host side *)
    timers : list (timer callback);
    next_timer : nat;
    clicks : list (number * bool); (* oscillator clicks: start time, isCountIn *)
    dom : option indicator;        (* None: the indicator elements are absent *)
    captures : list number }.      (* calls of startDirectCapture *)

Definition constructor (d : option indicator) : state :=
  {| isPlaying := false; bpm := 100; beatCount := 0; isCountingIn := false;
     countInBeat := 0; recordingStarted := false; audioContext := false;
     intervalId := None; nextNoteTime := 0; lookahead := 25;
     scheduleAheadTime := lit (1 # 10);
     timers := []; next_timer := 1%nat; clicks := []; dom := d;
     captures := [] |}.

(** Assignments to one field. *)
Definition with_beatCount (x : Z) (m : state) : state :=
  {| isPlaying := isPlaying m;
     bpm := bpm m;
     beatCount := x;
     isCountingIn := isCountingIn m;
     countInBeat := countInBeat m;
     recordingStarted := recordingStarted m;
     audioContext := audioContext m;
     intervalId := intervalId m;
     nextNoteTime := nextNoteTime m;
     lookahead := lookahead m;
     scheduleAheadTime := scheduleAheadTime m;
     timers := timers m;
     next_timer := next_timer m;
     clicks := clicks m;
     dom := dom m;
     captures := captures m |}.

Definition with_countInBeat (x : Z) (m : state) : state :=
  {| isPlaying := isPlaying m;
     bpm := bpm m;
     beatCount := beatCount m;
     isCountingIn := isCountingIn m;
     countInBeat := x;
     recordingStarted := recordingStarted m;
     audioContext := audioContext m;
     intervalId := intervalId m;
     nextNoteTime := nextNoteTime m;
     lookahead := lookahead m;
     scheduleAheadTime := scheduleAheadTime m;
     timers := timers m;
     next_timer := next_timer m;
     clicks := clicks m;
     dom := dom m;
     captures := captures m |}.

Definition with_isCountingIn (x : bool) (m : state) : state :=
  {| isPlaying := isPlaying m;
     bpm := bpm m;
     beatCount := beatCount m;
     isCountingIn := x;
     countInBeat := countInBeat m;
     recordingStarted := recordingStarted m;
     audioContext := audioContext m;
     intervalId := intervalId m;
     nextNoteTime := nextNoteTime m;
     lookahead := lookahead m;
     scheduleAheadTime := scheduleAheadTime m;
     timers := timers m;
     next_timer := next_timer m;
     clicks := clicks m;
     dom := dom m;
     captures := captures m |}.

Definition with_recordingStarted (x : bool) (m : state) : state :=
  {| isPlaying := isPlaying m;
     bpm := bpm m;
     beatCount := beatCount m;
     isCountingIn := isCountingIn m;
     countInBeat := countInBeat m;
     recordingStarted := x;
     audioContext := audioContext m;
     intervalId := intervalId m;
     nextNoteTime := nextNoteTime m;
     lookahead := lookahead m;
     scheduleAheadTime := scheduleAheadTime m;
     timers := timers m;
     next_timer := next_timer m;
     clicks := clicks m;
     dom := dom m;
     captures := captures m |}.

Definition with_isPlaying (x : bool) (m : state) : state :=
  {| isPlaying := x;
     bpm := bpm m;
     beatCount := beatCount m;
     isCountingIn := isCountingIn m;
     countInBeat := countInBeat m;
     recordingStarted := recordingStarted m;
     audioContext := audioContext m;
     intervalId := intervalId m;
     nextNoteTime := nextNoteTime m;
     lookahead := lookahead m;
     scheduleAheadTime := scheduleAheadTime m;
     timers := timers m;
     next_timer := next_timer m;
     clicks := clicks m;
     dom := dom m;
     captures := captures m |}.

Definition with_intervalId (x : option nat) (m : state) : state :=
  {| isPlaying := isPlaying m;
     bpm := bpm m;
     beatCount := beatCount m;
     isCountingIn := isCountingIn m;
     countInBeat := countInBeat m;
     recordingStarted := recordingStarted m;
     audioContext := audioContext m;
     intervalId := x;
     nextNoteTime := nextNoteTime m;
     lookahead := lookahead m;
     scheduleAheadTime := scheduleAheadTime m;
     timers := timers m;
     next_timer := next_timer m;
     clicks := clicks m;
     dom := dom m;
     captures := captures m |}.

Definition with_nextNoteTime (x : number) (m : state) : state :=
  {| isPlaying := isPlaying m;
     bpm := bpm m;
     beatCount := beatCount m;
     isCountingIn := isCountingIn m;
     countInBeat := countInBeat m;
     recordingStarted := recordingStarted m;
     audioContext := audioContext m;
     intervalId := intervalId m;
     nextNoteTime := x;
     lookahead := lookahead m;
     scheduleAheadTime := scheduleAheadTime m;
     timers := timers m;
     next_timer := next_timer m;
     clicks := clicks m;
     dom := dom m;
     captures := captures m |}.

Definition with_timers (x : list (timer callback)) (m : state) : state :=
  {| isPlaying := isPlaying m;
     bpm := bpm m;
     beatCount := beatCount m;
     isCountingIn := isCountingIn m;
     countInBeat := countInBeat m;
     recordingStarted := recordingStarted m;
     audioContext := audioContext m;
     intervalId := intervalId m;
     nextNoteTime := nextNoteTime m;
     lookahead := lookahead m;
     scheduleAheadTime := scheduleAheadTime m;
     timers := x;
     next_timer := next_timer m;
     clicks := clicks m;
     dom := dom m;
     captures := captures m |}.

Definition with_next_timer (x : nat) (m : state) : state :=
  {| isPlaying := isPlaying m;
     bpm := bpm m;
     beatCount := beatCount m;
     isCountingIn := isCountingIn m;
     countInBeat := countInBeat m;
     recordingStarted := recordingStarted m;
     audioContext := audioContext m;
     intervalId := intervalId m;
     nextNoteTime := nextNoteTime m;
     lookahead := lookahead m;
     scheduleAheadTime := scheduleAheadTime m;
     timers := timers m;
     next_timer := x;
     clicks := clicks m;
     dom := dom m;
     captures := captures m |}.

Definition with_clicks (x : list (number * bool)) (m : state) : state :=
  {| isPlaying := isPlaying m;
     bpm := bpm m;
     beatCount := beatCount m;
     isCountingIn := isCountingIn m;
     countInBeat := countInBeat m;
     recordingStarted := recordingStarted m;
     audioContext := audioContext m;
     intervalId := intervalId m;
     nextNoteTime := nextNoteTime m;
     lookahead := lookahead m;
     scheduleAheadTime := scheduleAheadTime m;
     timers := timers m;
     next_timer := next_timer m;
     clicks := x;
     dom := dom m;
     captures := captures m |}.

Definition with_dom (x : option indicator) (m : state) : state :=
  {| isPlaying := isPlaying m;
     bpm := bpm m;
     beatCount := beatCount m;
     isCountingIn := isCountingIn m;
     countInBeat := countInBeat m;
     recordingStarted := recordingStarted m;
     audioContext := audioContext m;
     intervalId := intervalId m;
     nextNoteTime := nextNoteTime m;
     lookahead := lookahead m;
     scheduleAheadTime := scheduleAheadTime m;
     timers := timers m;
     next_timer := next_timer m;
     clicks := clicks m;
     dom := x;
     captures := captures m |}.

Definition with_captures (x : list number) (m : state) : state :=
  {| isPlaying := isPlaying m;
     bpm := bpm m;
     beatCount := beatCount m;
     isCountingIn := isCountingIn m;
     countInBeat := countInBeat m;
     recordingStarted := recordingStarted m;
     audioContext := audioContext m;
     intervalId := intervalId m;
     nextNoteTime := nextNoteTime m;
     lookahead := lookahead m;
     scheduleAheadTime := scheduleAheadTime m;
     timers := timers m;
     next_timer := next_timer m;
     clicks := clicks m;
     dom := dom m;
     captures := x |}.

(** [setTimeout(cb, delay)]: the new state and the identifier. *)
Definition setTimeout (cb : callback) (delay : number) (m : state)
  : state * nat :=
  let id := next_timer m in
  (with_next_timer (S id)
     (with_timers (timers m ++ [ {| timer_id := id; timer_delay := delay;
                                    timer_callback := cb |} ]) m),
   id).

(** [playClick(time, isCountIn)]: one oscillator started at [time]. *)
Definition playClick (t : number) (isCountIn : bool) (m : state) : state :=
  with_clicks (clicks m ++ [(t, isCountIn)]) m.

Definition updateVisualIndicator (beat : Z) (isCountIn : bool) (m : state)
  : state :=
  match dom m with
  | None => m
  | Some _ =>
      let shown :=
        if isCountIn then
          {| circle_active := false; circle_count_in := true;
             count_count_in := true; count_recording := false;
             textContent := CountText beat |}
        else
          {| circle_active := true; circle_count_in := false;
             count_count_in := false; count_recording := true;
             textContent := BeatText beat |} in
      fst (setTimeout ClearBeatCircle 150 (with_dom (Some shown) m))
  end.

Definition nextNote (m : state) : state :=
  let secondsPerBeat := fdiv 60 (bpm m) in
  let m1 := with_nextNoteTime (fadd (nextNoteTime m) secondsPerBeat) m in
  if isCountingIn m1 then
    let m2 := with_countInBeat (countInBeat m1 + 1) m1 in
    let m3 := updateVisualIndicator (countInBeat m2) true m2 in
    if 4 <=? countInBeat m3 then
      let m4 :=
        with_recordingStarted true
          (with_beatCount 0 (with_isCountingIn false m3)) in
      fst (setTimeout StartMIDIRecording 50 m4)
    else m3
  else
    let m2 := with_beatCount (beatCount m1 + 1) m1 in
    updateVisualIndicator (beatCount m2) false m2.

(** One round of the [while] loop of [scheduleNote]: a click, then
    [nextNote]. *)
Definition beat (m : state) : state :=
  nextNote (playClick (nextNoteTime m) (isCountingIn m) m).

(** [scheduleNote()], with [now] for [audioContext.currentTime].  The loop
    ends once [nextNoteTime] is no longer below the look-ahead horizon,
    which a beat too short for the spacing of the numbers at
    [nextNoteTime] never brings about; [None] is fuel exhausted. *)
Fixpoint scheduleNote (fuel : nat) (now : number) (m : state) : option state :=
  if flt (nextNoteTime m) (fadd now (scheduleAheadTime m))
  then match fuel with
       | O => None
       | S fuel' => scheduleNote fuel' now (beat m)
       end
  else Some m.

Definition scheduler (fuel : nat) (now : number) (m : state) : option state :=
  match scheduleNote fuel now m with
  | None => None
  | Some m1 =>
      if isPlaying m1 then
        let '(m2, id) := setTimeout SchedulerTick (lookahead m1) m1 in
        Some (with_intervalId (Some id) m2)
      else Some m1
  end.

(** [start(bpm, countIn)]; creating the audio context is taken to
    succeed. *)
Definition start (fuel : nat) (now : number) (tempo : number)
    (countIn : bool) (m : state) : option state :=
  scheduler fuel now
    {| isPlaying := true; bpm := tempo; beatCount := 0;
       isCountingIn := countIn; countInBeat := 0;
       recordingStarted := false; audioContext := true;
       intervalId := intervalId m; nextNoteTime := now;
       lookahead := lookahead m; scheduleAheadTime := scheduleAheadTime m;
       timers := timers m; next_timer := next_timer m; clicks := clicks m;
       dom := dom m; captures := captures m |}.

Definition stop (m : state) : state :=
  if isPlaying m then
    let m1 :=
      with_recordingStarted false
        (with_isCountingIn false (with_isPlaying false m)) in
    let m2 :=
      match intervalId m1 with
      | Some id => with_intervalId None (with_timers (clear_timer id (timers m1)) m1)
      | None => m1
      end in
    match dom m2 with
    | Some _ =>
        with_dom (Some {| circle_active := false; circle_count_in := false;
                          count_count_in := false; count_recording := false;
                          textContent := Blank |}) m2
    | None => m2
    end
  else m.

(** [startMIDIRecording()]: 16 beats at the fixed 100 BPM plus 3 s. *)
Definition bufferedDuration : number := fadd (fdiv 16 (fdiv 100 60)) 3.

Definition startMIDIRecording (m : state) : state :=
  fst (setTimeout (StartDirectCapture bufferedDuration) 50 m).

(** The body of a timer. *)
Definition run_callback (fuel : nat) (now : number) (cb : callback)
    (m : state)
  : option state :=
  match cb with
  | SchedulerTick => scheduler fuel now m
  | StartMIDIRecording => Some (startMIDIRecording m)
  | ClearBeatCircle =>
      Some
        match dom m with
        | Some i =>
            with_dom (Some {| circle_active := false; circle_count_in := false;
                              count_count_in := count_count_in i;
                              count_recording := count_recording i;
                              textContent := textContent i |}) m
        | None => m
        end
  | StartDirectCapture d => Some (with_captures (captures m ++ [d]) m)
  end.

(** The host fires the pending timer [id] while the audio clock reads
    [now]; a timer that is no longer pending does not fire. *)
Definition fire (fuel : nat) (now : number) (id : nat) (m : state)
  : option state :=
  match find (fun t => Nat.eqb (timer_id t) id) (timers m) with
  | None => Some m
  | Some t =>
      run_callback fuel now (timer_callback t)
        (with_timers (clear_timer id (timers m)) m)
  end.

(** What can happen to a metronome after [start]. *)
Inductive event : Type :=
| Fire (now : number) (id : nat)
| Stop.

Definition step (fuel : nat) (e : event) (m : state) : option state :=
  match e with
  | Fire now id => fire fuel now id m
  | Stop => Some (stop m)
  end.

Fixpoint run (fuel : nat) (es : list event) (m : state) : option state :=
  match es with
  | [] => Some m
  | e :: es' =>
      match step fuel e m with
      | None => None
      | Some m' => run fuel es' m'
      end
  end.

Definition count_in_clicks (m : state) : nat :=
  List.length (filter (fun c => snd c) (clicks m)).

Definition is_handoff (t : timer callback) : bool :=
  match timer_callback t with
  | StartMIDIRecording => true
  | _ => false
  end.

Definition handoffs_pending (m : state) : nat :=
  List.length (filter is_handoff (timers m)).

End Metronome.

(** ** The forced-duration player ([PrecisionMIDIPlayer]) *)

Module PrecisionMIDIPlayer.
Import JS.

(** What [Midi.fromUrl] of the third-party parser returns, as far as the
    player reads it. *)
Record MidiNote : Type :=
  { name : string; note_time : number; duration : number;
    note_velocity : number }.
Record Track : Type := { notes : list MidiNote }.
Record Midi : Type := { tracks : list Track }.

(** The callbacks handed to [Tone.Transport.schedule]. *)
Inductive action : Type :=
| ForcedStop                          (* () => { this.stop(); ... } *)
| TriggerAttackRelease (pitch : string) (sustain : number) (vel : number).

Record scheduled : Type :=
  { event_id : nat; event_time : number; event_action : action }.

Inductive transport_state : Type := Started | Stopped | Paused.

Record state : Type :=
  { synth : bool;
    forcedDuration : number;
    isPlaying : bool;
    currentMidiData : option Midi;
    scheduledEvents : list nat;
    (* Tone.Transport *)
    transport : transport_state;
    timeline : list scheduled;
    next_event : nat;
    (* the text of the .midi-player-status elements *)
    status_text : string }.

Definition constructor : state :=
  {| synth := false; forcedDuration := lit (96 # 10); isPlaying := false;
     currentMidiData := None; scheduledEvents := [];
     transport := Stopped; timeline := []; next_event := 1%nat;
     status_text := "" |}.

Definition init (p : state) : state :=
  {| synth := true; forcedDuration := forcedDuration p;
     isPlaying := isPlaying p; currentMidiData := currentMidiData p;
     scheduledEvents := scheduledEvents p; transport := transport p;
     timeline := timeline p; next_event := next_event p;
     status_text := status_text p |}.

Definition updatePlaybackStatus (playing : bool) (p : state) : state :=
  {| synth := synth p; forcedDuration := forcedDuration p;
     isPlaying := isPlaying p; currentMidiData := currentMidiData p;
     scheduledEvents := scheduledEvents p; transport := transport p;
     timeline := timeline p; next_event := next_event p;
     status_text := if playing then "Playing (Precision Mode)" else "Stopped" |}.

(** [Tone.Transport.clear(id)]. *)
Definition transport_clear (id : nat) (tl : list scheduled) : list scheduled :=
  filter (fun e => negb (Nat.eqb (event_id e) id)) tl.

Definition stop (p : state) : state :=
  if isPlaying p then
    updatePlaybackStatus false
      {| synth := synth p; forcedDuration := forcedDuration p;
         isPlaying := false; currentMidiData := currentMidiData p;
         scheduledEvents := [];
         transport := Stopped;
         timeline := fold_left (fun tl id => transport_clear id tl)
                       (scheduledEvents p) (timeline p);
         next_event := next_event p; status_text := status_text p |}
  else p.

(** [const id = Tone.Transport.schedule(cb, time);
     this.scheduledEvents.push(id)]. *)
Definition schedule_push (a : action) (t : number) (p : state) : state :=
  let id := next_event p in
  {| synth := synth p; forcedDuration := forcedDuration p;
     isPlaying := isPlaying p; currentMidiData := currentMidiData p;
     scheduledEvents := scheduledEvents p ++ [id];
     transport := transport p;
     timeline := timeline p ++ [ {| event_id := id; event_time := t;
                                    event_action := a |} ];
     next_event := S id; status_text := status_text p |}.

(** The body of [track.notes.forEach]. *)
Definition schedule_note (d : number) (p : state) (n : MidiNote) : state :=
  if flt (note_time n) d then
    let adjustedDuration := Math_min (duration n) (fsub d (note_time n)) in
    schedule_push
      (TriggerAttackRelease (name n) adjustedDuration (note_velocity n))
      (note_time n) p
  else p.

Definition schedule_tracks (d : number) (midi : Midi) (p : state) : state :=
  fold_left (fun p1 track => fold_left (schedule_note d) (notes track) p1)
    (tracks midi) p.

(** [forcedDuration || this.forcedDuration]: [null], 0 and [NaN] are
    falsy. *)
Definition effective_duration (forced : option number) (p : state)
  : number :=
  match forced with
  | Some d => if truthy d then d else forcedDuration p
  | None => forcedDuration p
  end.

(** [loadAndPlayWithDuration(midiUrl, forcedDuration)].  [fromUrl] stands
    for the fetch and parse of [Midi.fromUrl], the one call of the [try]
    block that can throw; the [catch] turns its error into [false]. *)
Definition loadAndPlayWithDuration (fromUrl : string -> completion Midi)
    (midiUrl : string) (forced : option number) (p : state)
  : completion bool * state :=
  let p0 := init p in
  let d := effective_duration forced p0 in
  match fromUrl midiUrl with
  | Throw _ => (Normal false, p0)
  | Normal midi =>
      let p1 :=
        {| synth := synth p0; forcedDuration := forcedDuration p0;
           isPlaying := isPlaying p0; currentMidiData := Some midi;
           scheduledEvents := scheduledEvents p0; transport := transport p0;
           timeline := timeline p0; next_event := next_event p0;
           status_text := status_text p0 |} in
      let p2 := stop p1 in
      let p3 := schedule_push ForcedStop d p2 in
      let p4 := schedule_tracks d midi p3 in
      let p5 :=
        {| synth := synth p4; forcedDuration := forcedDuration p4;
           isPlaying := true; currentMidiData := currentMidiData p4;
           scheduledEvents := scheduledEvents p4; transport := Started;
           timeline := timeline p4; next_event := next_event p4;
           status_text := status_text p4 |} in
      (Normal true, updatePlaybackStatus true p5)
  end.

(** The transport reaches the time of a scheduled event and runs its
    callback; a trigger only sounds the synth. *)
Definition run_action (a : action) (p : state) : state :=
  match a with
  | ForcedStop => stop p
  | TriggerAttackRelease _ _ _ => p
  end.

(** The note triggers on a timeline: start time and sustain. *)
Definition triggers (tl : list scheduled) : list (number * number) :=
  flat_map (fun e => match event_action e with
                     | TriggerAttackRelease _ sustain _ =>
                         [(event_time e, sustain)]
                     | ForcedStop => []
                     end) tl.

Definition all_notes (midi : Midi) : list MidiNote :=
  flat_map notes (tracks midi).

(** Every identifier on the timeline is one the player remembers. *)
Definition tracked (p : state) : Prop :=
  forall e, In e (timeline p) -> In (event_id e) (scheduledEvents p).

End PrecisionMIDIPlayer.

(** ** Statements about the codec *)

Module RoundTrip.
Import JS MidiRecorder.

(** What must survive the round trip unchanged. *)
Definition key (e : NoteEvent) : Z * Z * bool :=
  (note e, velocity e, isNoteOn e).

(** A NoteEvent of the data model: note and velocity in 0..127 and a
    time that is a finite number, not negative. *)
Definition well_formed (e : NoteEvent) : Prop :=
  0 <= note e <= 127 /\ 0 <= velocity e <= 127 /\
  exists t, time e = Finite t /\ binary64 t /\ (0 <= t)%Q.

(** The longest session, in seconds, whose gaps in ticks still fit the
    32-bit integers of [variableLengthQuantity]: 160 * 13421772 < 2^31. *)
Definition max_seconds : Q := 13421772.

Definition in_session (e : NoteEvent) : Prop :=
  well_formed e /\ (seconds (time e) <= max_seconds)%Q.

(** An event whose time is a finite number. *)
Definition timed (e : NoteEvent) : Prop :=
  exists t, time e = Finite t /\ binary64 t.

Definition by_time (a b : NoteEvent) : Prop :=
  (seconds (time a) <= seconds (time b))%Q.

Definition at_time (t : Q) (e : NoteEvent) : bool :=
  Qeq_bool (seconds (time e)) t.

(** [sorted] is [notes] in time order, events of equal time in the order
    they have in [notes]; it is [notes] when [notes] is in time order. *)
Definition time_ordered (sorted notes : list NoteEvent) : Prop :=
  Permutation sorted notes /\
  Sorted by_time sorted /\
  (forall t, filter (at_time t) sorted = filter (at_time t) notes) /\
  (Sorted by_time notes -> sorted = notes).

(** [t0] is the time of the earliest of [notes]. *)
Definition earliest (t0 : Q) (notes : list NoteEvent) : Prop :=
  (forall e, In e notes -> (t0 <= seconds (time e))%Q) /\
  exists e, In e notes /\ (seconds (time e) == t0)%Q.

(** Decoding the exported file of [notes] succeeds and gives the notes,
    velocities and flags of [notes] in time order, and the [k]-th
    reconstructed time is within [bound k] of the [k]-th original time,
    counted from the earliest. *)
Definition roundtrip (bound : nat -> Q) (notes : list NoteEvent) : Prop :=
  exists decoded sorted,
    Codec.decode (createMidiData notes) = inr decoded /\
    time_ordered sorted notes /\
    map key decoded = map key sorted /\
    forall t0 k d o,
      earliest t0 notes ->
      nth_error decoded k = Some d ->
      nth_error sorted k = Some o ->
      (Qabs (seconds (time d) - (seconds (time o) - t0)) <= bound k)%Q.

Definition one_tick : nat -> Q := fun _ => 1 # 160.

(** Half a tick, 1/320 s, for every gap, and 2^-25 s for the rounding of
    the arithmetic on it. *)
Definition half_tick_per_gap : nat -> Q :=
  fun k => (inject_Z (Z.of_nat k) * ((1 # 320) + (1 # 33554432)))%Q.

(** The loop of the encoders as a recursive function of the events still
    to emit. *)
Fixpoint encode_from (currentTime : number) (l : list NoteEvent) : list Z :=
  match l with
  | [] => []
  | n :: l' =>
      variableLengthQuantity (deltaTime currentTime n)
        ++ [if isNoteOn n then 144 else 128; note n; velocity n]
        ++ encode_from (time n) l'
  end.

Fixpoint last_time (currentTime : number) (l : list NoteEvent) : number :=
  match l with
  | [] => currentTime
  | n :: l' => last_time (time n) l'
  end.

(** What the decoder reads back from [encode_from]. *)
Fixpoint decoded_from (tick : Z) (currentTime : number) (l : list NoteEvent)
  : list NoteEvent :=
  match l with
  | [] => []
  | n :: l' =>
      let tick' := tick + deltaTime currentTime n in
      {| note := note n; velocity := velocity n;
         time := Codec.ticks_to_seconds tick'; isNoteOn := isNoteOn n |}
        :: decoded_from tick' (time n) l'
  end.

Definition byte (b : Z) : Prop := 0 <= b < 256.

(** What the rounding of a difference of two times of a session can
    add: 2^-28 s. *)
Definition slack : Q := 1 # 268435456.

(** The events still to emit follow [currentTime] in time order, up to
    [slack], and each has a note, a velocity and a time of a session. *)
Fixpoint chain (currentTime : Q) (l : list NoteEvent) : Prop :=
  match l with
  | [] => True
  | n :: l' =>
      exists t,
        time n = Finite t /\
        (currentTime - slack <= t)%Q /\
        (- slack <= t)%Q /\ (t <= max_seconds + slack)%Q /\
        0 <= note n <= 127 /\ 0 <= velocity n <= 127 /\
        chain t l'
  end.

(** The most events for which the length of the track chunk provably fits
    the 32-bit arithmetic of [int32ToBytes]. *)
Definition max_events : Z := 134217728.

(** What one gap can add to the error of a decoded time: half a tick for
    [Math.round], and the rounding of the difference and of the
    product. *)
Definition gap_error : Q := (1 # 320) + (1 # 83886080).

(** Four notes 1/64 s apart: every gap is 2.5 ticks and rounds up to 3. *)
Definition four_close_notes : list NoteEvent :=
  [ {| note := 60; velocity := 100; time := 0; isNoteOn := true |};
    {| note := 62; velocity := 100; time := 1 # 64; isNoteOn := true |};
    {| note := 64; velocity := 100; time := 2 # 64; isNoteOn := true |};
    {| note := 65; velocity := 100; time := 3 # 64; isNoteOn := true |} ].

(** A note held from 0 s to 10 s, inside the 12.6 s capture window. *)
Definition long_note : list NoteEvent :=
  [ {| note := 60; velocity := 100; time := 0; isNoteOn := true |};
    {| note := 60; velocity := 0; time := 10; isNoteOn := false |} ].

(** Three notes 1/64 s apart. *)
Definition three_close_notes : list NoteEvent :=
  [ {| note := 60; velocity := 100; time := 0; isNoteOn := true |};
    {| note := 64; velocity := 100; time := 1 # 64; isNoteOn := true |};
    {| note := 67; velocity := 100; time := 2 # 64; isNoteOn := true |} ].

(** The absolute time at which a decoded file ends the sustain note. *)
Definition sustain_off_time (decoded : list NoteEvent) : option number :=
  option_map time
    (find (fun e => (note e =? 127) && negb (isNoteOn e)) decoded).

End RoundTrip.

(** ** Statements about the recorder *)

Module Session.
Import JS MidiRecorder.

(** What can happen to a recorder short of a new [startRecording]. *)
Inductive op : Type :=
| AddNote (n v : Z) (timestamp : number) (on : bool)
| StopRecording
| CancelRecording
| FireTimer (id : nat).

Definition apply_op (s : state) (o : op) : state :=
  match o with
  | AddNote n v timestamp on => addNote n v timestamp on s
  | StopRecording => fst (stopRecording s)
  | CancelRecording => fst (cancelRecording s)
  | FireTimer id => fire id s
  end.

Definition after (ops : list op) (s : state) : state :=
  fold_left apply_op ops s.

(** Every pending timer is one of the two the recorder remembers, and an
    idle recorder has none. *)
Definition timers_tracked (s : state) : Prop :=
  (forall t, In t (timers s) ->
             silenceTimeout s = Some (timer_id t) \/
             internalTimeout s = Some (timer_id t)) /\
  (isRecording s = false -> timers s = []).

(** A canceled session: idle, without events, flagged. *)
Definition discarded (s : state) : Prop :=
  isRecording s = false /\ recordedNotes s = [] /\ wasCanceled s = true.

(** A recording in progress: one note-on 100 ms after the start. *)
Definition recording : state :=
  addNote 60 100 1100 true (startRecording 1000 "time" 2 constructor).

End Session.

(** ** Statements about the player *)

Module Playback.
Import JS PrecisionMIDIPlayer.

(** The state of a player between calls: while it plays, every event on
    the timeline is one it remembers; while it does not, the timeline is
    empty. *)
Definition consistent (p : state) : Prop :=
  (isPlaying p = true -> tracked p) /\
  (isPlaying p = false -> timeline p = []).

(** A note as the parser hands it over: it starts at a finite time, not
    negative, and has a finite duration. *)
Definition playable (n : MidiNote) : Prop :=
  (exists t, note_time n = Finite t /\ binary64 t /\ (0 <= t)%Q) /\
  (exists u, duration n = Finite u).

(** What the rounding of [duration - note.time] can add to the end of a
    clamped note that starts at [start]: a 2^53-th of the difference. *)
Definition rounding (d start : Q) : Q := ((d - start) * 2 ^ (-53))%Q.

(** The dedicated stop event of a freshly loaded player [p] for the
    duration [d]: one stop event sits at exactly [d], no stop event sits
    anywhere else, and running it halts the transport and clears the
    timeline. *)
Definition stops_at (d : number) (p : state) : Prop :=
  (exists id,
      In {| event_id := id; event_time := d; event_action := ForcedStop |}
         (timeline p)) /\
  (forall e, In e (timeline p) -> event_action e = ForcedStop ->
             event_time e = d) /\
  transport (run_action ForcedStop p) = Stopped /\
  isPlaying (run_action ForcedStop p) = false /\
  timeline (run_action ForcedStop p) = [].

(** The forced-duration property as the specification words it: every
    note trigger starts before [d] and is over by [d], and the stop event
    sits at [d]. *)
Definition honors_exactly (d : Q) (p : state) : Prop :=
  (forall start sustain,
      In (start, sustain) (triggers (timeline p)) ->
      exists s u,
        start = Finite s /\ sustain = Finite u /\
        (s < d)%Q /\ (s + u <= d)%Q) /\
  stops_at d p.

(** The forced-duration property as the code has it: every note trigger
    starts before [d] and is over by [d] but for the rounding of its
    clamped sustain, and the stop event sits at [d]. *)
Definition honors (d : Q) (p : state) : Prop :=
  (forall start sustain,
      In (start, sustain) (triggers (timeline p)) ->
      exists s u,
        start = Finite s /\ sustain = Finite u /\
        (s < d)%Q /\ (s + u <= d + rounding d s)%Q) /\
  stops_at d p.

(** The triggers the loop over the notes schedules. *)
Definition note_triggers (d : number) (l : list MidiNote)
  : list (number * number) :=
  flat_map (fun n => if flt (note_time n) d
                     then [(note_time n,
                            Math_min (duration n) (fsub d (note_time n)))]
                     else []) l.

(** A file with one note from 1 s to 2 s. *)
Definition one_note : Midi :=
  {| tracks := [ {| notes := [ {| name := "C4"; note_time := 1;
                                  duration := 1; note_velocity := 1 |} ] |} ] |}.

(** A file with one note held from 0.71 s for 10 s. *)
Definition held_note : Midi :=
  {| tracks := [ {| notes := [ {| name := "C4"; note_time := lit (71 # 100);
                                  duration := 10; note_velocity := 1 |} ] |} ] |}.

(** The default duration of the player, 9.6, as the rational it is. *)
Definition default_duration : Q := seconds (lit (96 # 10)).

(** Modelled from the spec: the load of a source, [Midi.fromUrl], which
    this repository delegates to a third-party parser and which is not
    part of its sources.  Section 4.3 and the error design: the bytes
    behind the url are decoded, a MalformedFileError is raised when the
    decoder rejects them, and a source that decodes is handed over as a
    whole.  [fetch] stands for the bytes a url serves and [assemble] for
    the pairing of the decoded note-on and note-off events into notes. *)
Definition fromUrl (fetch : string -> list Z)
    (assemble : list NoteEvent -> Midi) (midiUrl : string)
  : completion Midi :=
  match Codec.decode (fetch midiUrl) with
  | inl Codec.MalformedFileError => Throw "MalformedFileError"
  | inr events => Normal (assemble events)
  end.

(** The malformed sources the specification names: the empty source, a
    wrong chunk magic or header length, a source that ends inside its
    chunk headers, and a declared track length that exceeds the
    buffer. *)
Inductive malformed : list Z -> Prop :=
| EmptySource : malformed []
| WrongHeaderMagic (file : list Z) :
    firstn 4 file <> Codec.MThd -> malformed file
| WrongHeaderLength (file : list Z) :
    Codec.big_endian (firstn 4 (skipn 4 file)) <> 6 -> malformed file
| WrongTrackMagic (file : list Z) :
    firstn 4 (skipn 14 file) <> Codec.MTrk -> malformed file
| TruncatedHeaders (file : list Z) :
    (List.length file < 22)%nat -> malformed file
| TruncatedTrack (file : list Z) :
    Z.of_nat (List.length (skipn 22 file))
    < Codec.big_endian (firstn 4 (skipn 18 file)) ->
    malformed file.

(** Nothing of a load has reached the player [p']: its schedule, its
    transport, its playing flag and its file are those of [p]. *)
Definition untouched (p p' : state) : Prop :=
  timeline p' = timeline p /\
  scheduledEvents p' = scheduledEvents p /\
  isPlaying p' = isPlaying p /\
  transport p' = transport p /\
  currentMidiData p' = currentMidiData p.

(** The export of one note, and the same file cut short after 30 of its
    35 bytes. *)
Definition exported : list Z :=
  MidiRecorder.createMidiData
    [ {| note := 60; velocity := 100; time := 0; isNoteOn := true |};
      {| note := 60; velocity := 0; time := 1; isNoteOn := false |} ].

Definition cut_short : list Z := firstn 30 exported.

(** A parser's pairing that keeps no note. *)
Definition no_notes : list NoteEvent -> Midi := fun _ => {| tracks := [] |}.

End Playback.

(** ** Statements about the metronome *)

Module CountIn.
Import JS Metronome.

Definition is_scheduler (t : timer callback) : bool :=
  match timer_callback t with
  | SchedulerTick => true
  | _ => false
  end.

Definition is_capture (t : timer callback) : bool :=
  match timer_callback t with
  | StartDirectCapture _ => true
  | _ => false
  end.

Definition none_pending (f : timer callback -> bool) (m : state) : Prop :=
  forall t, In t (timers m) -> f t = false.

(** Every pending scheduler timer is the one [intervalId] remembers. *)
Definition schedulers_tracked (m : state) : Prop :=
  forall t, In t (timers m) -> is_scheduler t = true ->
            intervalId m = Some (timer_id t).

(** The invariant of a session is stated against the metronome the
    session started from: [c0] count-in clicks among [n0] clicks and the
    captures [k0] were there before [start]. *)





(** A count-in at 100 BPM on a page without beat indicator: [start] at
    audio time 0 emits the first beat, and the scheduler timers that fire
    at 0.55 s, 1.15 s and 1.75 s emit the second, third and fourth. *)
Definition count_in_at_100 : option state :=
  match start 4 0 100 true (constructor None) with
  | Some m =>
      run 4 [Fire (lit (55 # 100)) 1%nat; Fire (lit (115 # 100)) 2%nat;
             Fire (lit (175 # 100)) 3%nat] m
  | None => None
  end.









End CountIn.

(** ** Statements about the file format *)

Module Format.
Import JS MidiRecorder.

(** The number a variable-length quantity stands for: its 7-bit groups,
    most significant first. *)
Definition vlq_value (bytes : list Z) : Z :=
  fold_left (fun acc b => acc * 128 + b mod 128) bytes 0.

(** The shape of a variable-length quantity: the continuation bit is set
    on every byte but the last. *)
Fixpoint vlq_shape (bytes : list Z) : Prop :=
  match bytes with
  | [] => False
  | b :: rest =>
      match rest with
      | [] => 0 <= b < 128
      | _ :: _ => 128 <= b < 256 /\ vlq_shape rest
      end
  end.

(** The unsigned 32-bit number four bytes stand for, most significant
    first. *)
Definition uint32_of_bytes (b3 b2 b1 b0 : Z) : Z :=
  b3 * 16777216 + b2 * 65536 + b1 * 256 + b0.

End Format.

(** ** Statements about a capture session *)

Module Capture.
Import JS MidiRecorder Session.

(** Everything a caller can do to a recorder. *)
Inductive command : Type :=
| Start (now : number) (md : string) (duration : number)
| Do (o : op).

Definition exec (s : state) (c : command) : state :=
  match c with
  | Start now md duration => startRecording now md duration s
  | Do o => apply_op s o
  end.

(** The recorder after a history of commands on a new one. *)
Definition reach (cs : list command) : state := fold_left exec cs constructor.

(** A note as it arrives from the keyboard. *)
Record incoming : Type :=
  { in_note : Z; in_velocity : Z; in_timestamp : number; in_on : bool }.

Definition add (s : state) (i : incoming) : state :=
  addNote (in_note i) (in_velocity i) (in_timestamp i) (in_on i) s.

(** The event stored for a note that arrives in a session started at
    [start] (both in milliseconds). *)
Definition captured (start : number) (i : incoming) : NoteEvent :=
  {| note := in_note i; velocity := in_velocity i;
     time := fdiv (fsub (in_timestamp i) start) 1000; isNoteOn := in_on i |}.

(** The timers of a recorder are under control: each pending one is
    remembered, an idle recorder has none, there is never more than one,
    and a recording in silence mode has no duration timer. *)
Definition timers_in_hand (s : state) : Prop :=
  timers_tracked s /\
  (List.length (timers s) <= 1)%nat /\
  (isRecording s = true -> String.eqb (mode s) "silence" = true ->
   internalTimeout s = None).

(** The one timer [startRecording] leaves pending. *)
Definition timers_after_start (md : string) (duration : number) (id : nat)
  : list (timer callback) :=
  if String.eqb md "time" then
    [ {| timer_id := id; timer_delay := fmul duration 1000;
         timer_callback := InternalTimeoutFired |} ]
  else if String.eqb md "silence" then
    [ {| timer_id := id; timer_delay := 2000;
         timer_callback := SilenceTimeoutFired |} ]
  else [].

End Capture.

(** ** Pausing, resuming and looping the player *)

Module PlayerControls.
Import JS PrecisionMIDIPlayer.

(** A call on [Tone.Transport] that changes its state only. *)
Definition with_transport (t : transport_state) (p : state) : state :=
  {| synth := synth p; forcedDuration := forcedDuration p;
     isPlaying := isPlaying p; currentMidiData := currentMidiData p;
     scheduledEvents := scheduledEvents p; transport := t;
     timeline := timeline p; next_event := next_event p;
     status_text := status_text p |}.

(** [pause()]: the flag [isPlaying] is not touched. *)
Definition pause (p : state) : state :=
  if isPlaying p then updatePlaybackStatus false (with_transport Paused p)
  else p.

(** [resume()]. *)
Definition resume (p : state) : state :=
  if negb (isPlaying p) &&
     match transport p with Paused => true | _ => false end
  then updatePlaybackStatus true (with_transport Started p)
  else p.

(** What can happen to a player: a call of one of its methods, or the
    transport running a scheduled callback. *)
Inductive command : Type :=
| CallLoad (fromUrl : string -> completion Midi) (midiUrl : string)
    (forced : option number)
| CallStop
| CallPause
| CallResume
| Due (a : action).

Definition exec (p : state) (c : command) : state :=
  match c with
  | CallLoad fromUrl midiUrl forced =>
      snd (loadAndPlayWithDuration fromUrl midiUrl forced p)
  | CallStop => stop p
  | CallPause => pause p
  | CallResume => resume p
  | Due a => run_action a p
  end.

(** The player after a history of commands on a new one. *)
Definition reach (cs : list command) : state := fold_left exec cs constructor.








(** Between calls a player that is not playing has a stopped transport. *)
Definition settled (p : state) : Prop :=
  Playback.consistent p /\ (isPlaying p = false -> transport p = Stopped).

(** A source that serves the one-note file. *)
Definition serving : string -> completion Midi :=
  fun _ => Normal Playback.one_note.

End PlayerControls.

(** ** Statements about the clicks of a metronome session *)

Module Beats.
Import JS Metronome CountIn.

(** A session: [start], then the events [es]. *)
Definition session (fuel : nat) (now tempo : number) (countIn : bool)
    (q : state) (es : list event) : option state :=
  match start fuel now tempo countIn q with
  | Some m0 => run fuel es m0
  | None => None
  end.

(** The scheduler is one chain of timers: a pending scheduler timer is the
    one [intervalId] remembers, and a stopped metronome has none. *)
Definition one_chain (m : state) : Prop :=
  schedulers_tracked m /\
  (isPlaying m = false -> none_pending is_scheduler m).

(** The beat indicator at rest: absent from the page, or without classes
    and without text. *)
Definition blank : indicator :=
  {| circle_active := false; circle_count_in := false;
     count_count_in := false; count_recording := false;
     textContent := Blank |}.

Definition at_rest (d : option indicator) : Prop := d = None \/ d = Some blank.

(** The indicator of a stopped metronome is at rest. *)
Definition rests (m : state) : Prop :=
  isPlaying m = false -> at_rest (dom m).

(** A session without count-in, against the metronome it started from
    ([c0] count-in clicks, [n0] clicks and the captures [k0] before
    [start]): no count-in, no recording on its way, and [beatCount] counts
    the clicks of the session. *)
Definition plain (c0 n0 : nat) (k0 : list number) (m : state) : Prop :=
  isCountingIn m = false /\
  none_pending is_handoff m /\
  none_pending is_capture m /\
  captures m = k0 /\
  count_in_clicks m = c0 /\
  Z.of_nat (List.length (clicks m)) = Z.of_nat n0 + beatCount m.

End Beats.

(** * Properties *)

(** ** Rounding to binary64 *)

Section Binary64.
Import JS.

Lemma pow2_pos (z : Z) : (0 < 2 ^ z)%Q.
Proof. apply Qpower_0_lt. reflexivity. Qed.

Lemma pow2_add (a b : Z) : (2 ^ (a + b) == 2 ^ a * 2 ^ b)%Q.
Proof. apply Qpower_plus. discriminate. Qed.

Lemma pow2_le (a b : Z) : a <= b -> (2 ^ a <= 2 ^ b)%Q.
Proof. intros H. apply Qpower_le_compat_l; [exact H | discriminate]. Qed.

Lemma pow2_of_Z (z : Z) : 0 <= z -> (inject_Z (2 ^ z) == 2 ^ z)%Q.
Proof. intros H. apply (Zpower_Qpower 2 z H). Qed.

(** [log2_floor] does not overshoot. *)
Lemma log2_floor_le (q : Q) : (0 < q)%Q -> (2 ^ log2_floor q <= q)%Q.
Proof.
  intros Hq. unfold log2_floor.
  set (l := Z.log2 (Qnum q) - Z.log2 (Z.pos (Qden q))).
  destruct (Qle_bool (2 ^ l) q) eqn:Htest; [apply Qle_bool_iff; exact Htest |].
  assert (Hn : 0 < Qnum q).
  { unfold Qlt in Hq. simpl in Hq. lia. }
  destruct (Z.log2_spec (Qnum q) Hn) as [Hn1 _].
  destruct (Z.log2_spec (Z.pos (Qden q)) ltac:(lia)) as [_ Hd2].
  pose proof (Z.log2_nonneg (Qnum q)) as Hln.
  pose proof (Z.log2_nonneg (Z.pos (Qden q))) as Hld.
  set (a := Z.log2 (Qnum q)) in *. set (b := Z.log2 (Z.pos (Qden q))) in *.
  replace (l - 1) with (a - (b + 1)) by (unfold l; lia).
  unfold Z.sub. rewrite pow2_add, Qpower_opp.
  rewrite <- !pow2_of_Z by lia.
  rewrite Z.add_1_r.
  assert (Hq' : (q == inject_Z (Qnum q) / inject_Z (Z.pos (Qden q)))%Q).
  { rewrite <- Qmake_Qdiv. destruct q. reflexivity. }
  rewrite Hq'.
  assert (H1 : (inject_Z (2 ^ a) <= inject_Z (Qnum q))%Q)
    by (rewrite <- Zle_Qle; exact Hn1).
  assert (H2 : (inject_Z (Z.pos (Qden q)) <= inject_Z (2 ^ Z.succ b))%Q)
    by (rewrite <- Zle_Qle; lia).
  assert (H3 : (0 < inject_Z (Z.pos (Qden q)))%Q) by reflexivity.
  assert (H4 : (0 < inject_Z (2 ^ a))%Q).
  { rewrite pow2_of_Z by lia. apply pow2_pos. }
  set (N := inject_Z (Qnum q)) in *. set (D := inject_Z (Z.pos (Qden q))) in *.
  set (A := inject_Z (2 ^ a)) in *. set (B := inject_Z (2 ^ Z.succ b)) in *.
  clearbody N D A B.
  apply Qle_shift_div_l; [exact H3 |].
  assert (H5 : (0 < B)%Q) by lra.
  assert (H6 : (A * / B * D <= A)%Q).
  { assert (Hx : (A * / B * D == A * (D / B))%Q) by (field; lra).
    rewrite Hx. assert (D / B <= 1)%Q.
    { apply Qle_shift_div_r; [exact H5 | lra]. }
    nra. }
  lra.
Qed.

(** ... nor fall short by a factor of two. *)
Lemma log2_floor_lt (q : Q) : (0 < q)%Q -> (q < 2 ^ (log2_floor q + 1))%Q.
Proof.
  intros Hq. unfold log2_floor.
  set (l := Z.log2 (Qnum q) - Z.log2 (Z.pos (Qden q))).
  destruct (Qle_bool (2 ^ l) q) eqn:Htest.
  - assert (Hn : 0 < Qnum q) by (unfold Qlt in Hq; simpl in Hq; lia).
    destruct (Z.log2_spec (Qnum q) Hn) as [_ Hn2].
    destruct (Z.log2_spec (Z.pos (Qden q)) ltac:(lia)) as [Hd1 _].
    pose proof (Z.log2_nonneg (Qnum q)) as Hln.
    pose proof (Z.log2_nonneg (Z.pos (Qden q))) as Hld.
    assert (Hq' : (q == inject_Z (Qnum q) / inject_Z (Z.pos (Qden q)))%Q).
    { rewrite <- Qmake_Qdiv. destruct q. reflexivity. }
    rewrite Hq'. apply Qlt_shift_div_r; [reflexivity |].
    replace (l + 1) with (Z.succ (Z.log2 (Qnum q))
                          + - Z.log2 (Z.pos (Qden q)))
      by (unfold l; lia).
    rewrite pow2_add, Qpower_opp, <- !pow2_of_Z by lia.
    assert (H1 : (inject_Z (Qnum q)
                  < inject_Z (2 ^ Z.succ (Z.log2 (Qnum q))))%Q)
      by (rewrite <- Zlt_Qlt; exact Hn2).
    assert (H2 : (inject_Z (2 ^ Z.log2 (Z.pos (Qden q)))
                  <= inject_Z (Z.pos (Qden q)))%Q)
      by (rewrite <- Zle_Qle; exact Hd1).
    assert (H3 : (0 < inject_Z (2 ^ Z.log2 (Z.pos (Qden q))))%Q).
    { rewrite pow2_of_Z by lia. apply pow2_pos. }
    assert (H0 : (0 < inject_Z (Qnum q))%Q)
      by (change (inject_Z 0 < inject_Z (Qnum q))%Q;
          rewrite <- Zlt_Qlt; exact Hn).
    set (N := inject_Z (Qnum q)) in *.
    set (D := inject_Z (Z.pos (Qden q))) in *.
    set (A := inject_Z (2 ^ Z.succ (Z.log2 (Qnum q)))) in *.
    set (B := inject_Z (2 ^ Z.log2 (Z.pos (Qden q)))) in *.
    clearbody N D A B.
    assert (Hx : (A * / B * D == A * (D / B))%Q) by (field; lra).
    rewrite Hx.
    assert (Hone : (1 <= D / B)%Q) by (apply Qle_shift_div_l; lra).
    set (R := (D / B)%Q) in *. clearbody R. nra.
  - replace (l - 1 + 1) with l by lia.
    destruct (Qlt_le_dec q (2 ^ l)) as [H | H]; [exact H |].
    apply Qle_bool_iff in H. congruence.
Qed.

Lemma nearest_even_error (s : Q) :
  (Qabs (inject_Z (nearest_even s) - s) <= 1 # 2)%Q.
Proof.
  unfold nearest_even.
  pose proof (Qfloor_le s) as Hlo. pose proof (Qlt_floor s) as Hhi.
  rewrite inject_Z_plus in Hhi. change (inject_Z 1) with 1%Q in Hhi.
  apply Qabs_Qle_condition.
  destruct (s - inject_Z (Qfloor s) ?= 1 # 2)%Q eqn:Hcmp.
  - apply Qeq_alt in Hcmp.
    destruct (Z.even (Qfloor s));
      rewrite ?inject_Z_plus; change (inject_Z 1) with 1%Q;
      set (f := inject_Z (Qfloor s)) in *; clearbody f; split; lra.
  - apply Qlt_alt in Hcmp.
    set (f := inject_Z (Qfloor s)) in *; clearbody f; split; lra.
  - apply Qgt_alt in Hcmp. rewrite inject_Z_plus.
    change (inject_Z 1) with 1%Q.
    set (f := inject_Z (Qfloor s)) in *; clearbody f; split; lra.
Qed.

Lemma nearest_even_nonneg (s : Q) : (0 <= s)%Q -> 0 <= nearest_even s.
Proof.
  intros Hs. unfold nearest_even.
  assert (Hf : 0 <= Qfloor s).
  { change 0 with (Qfloor 0). apply Qfloor_resp_le. exact Hs. }
  destruct (s - inject_Z (Qfloor s) ?= 1 # 2)%Q; [| lia | lia].
  destruct (Z.even (Qfloor s)); lia.
Qed.

Lemma nearest_even_pos (s : Q) : (1 <= s)%Q -> 1 <= nearest_even s.
Proof.
  intros Hs. unfold nearest_even.
  assert (Hf : 1 <= Qfloor s).
  { change 1 with (Qfloor 1). apply Qfloor_resp_le. exact Hs. }
  destruct (s - inject_Z (Qfloor s) ?= 1 # 2)%Q; [| lia | lia].
  destruct (Z.even (Qfloor s)); lia.
Qed.

Lemma last_place_cases (q : Q) :
  (0 < q)%Q ->
  last_place q = -1074 \/ (2 ^ last_place q <= q * 2 ^ (-52))%Q.
Proof.
  intros Hq. unfold last_place.
  destruct (Z.max_spec (-1074) (log2_floor q - 52)) as [[_ ->] | [_ ->]];
    [right | left; reflexivity].
  replace (log2_floor q - 52) with (log2_floor q + -52) by lia.
  rewrite pow2_add. pose proof (log2_floor_le q Hq) as Hl.
  pose proof (pow2_pos (-52)) as Hp.
  set (x := (2 ^ log2_floor q)%Q) in *.
  set (y := (2 ^ (-52))%Q) in *. clearbody x y. nra.
Qed.

(** What the rounding of a positive rational does: it overflows, or it
    lands within half a unit of the last place. *)
Lemma round_magnitude_spec (q : Q) :
  (0 < q)%Q ->
  (round_magnitude q = None /\
   (2 ^ 1024 <= q + 2 ^ last_place q * (1 # 2))%Q) \/
  (exists v,
      round_magnitude q = Some v /\ (0 <= v)%Q /\
      (Qabs (v - q) <= 2 ^ last_place q * (1 # 2))%Q /\
      ((2 ^ last_place q <= q)%Q -> (0 < v)%Q)).
Proof.
  intros Hq. unfold round_magnitude.
  pose proof (pow2_pos (last_place q)) as Hp.
  set (e := last_place q) in *.
  pose proof (nearest_even_error (q / 2 ^ e)) as Hm.
  assert (Hm0 : 0 <= nearest_even (q / 2 ^ e)).
  { apply nearest_even_nonneg. apply Qle_shift_div_l; [exact Hp | lra]. }
  assert (Hm1 : (2 ^ e <= q)%Q -> 1 <= nearest_even (q / 2 ^ e)).
  { intros H. apply nearest_even_pos.
    apply Qle_shift_div_l; [exact Hp | lra]. }
  set (m := nearest_even (q / 2 ^ e)) in *.
  assert (Hz : (0 <= inject_Z m)%Q)
    by (change (inject_Z 0 <= inject_Z m)%Q; rewrite <- Zle_Qle; exact Hm0).
  assert (Hz1 : (2 ^ e <= q)%Q -> (1 <= inject_Z m)%Q).
  { intros H. change (inject_Z 1 <= inject_Z m)%Q. rewrite <- Zle_Qle.
    apply Hm1, H. }
  assert (Herr : (Qabs (inject_Z m * 2 ^ e - q) <= 2 ^ e * (1 # 2))%Q).
  { apply Qabs_Qle_condition in Hm. destruct Hm as [Hlo Hhi].
    apply Qabs_Qle_condition.
    assert (Hs : (q == q / 2 ^ e * 2 ^ e)%Q) by (field; lra).
    set (s := (q / 2 ^ e)%Q) in *.
    set (M := inject_Z m) in *. set (P := (2 ^ e)%Q) in *.
    clearbody s M P. split; nra. }
  destruct (Qle_bool (2 ^ 1024) (inject_Z m * 2 ^ e)) eqn:Hover.
  - left. split; [reflexivity |]. apply Qle_bool_iff in Hover.
    apply Qabs_Qle_condition in Herr. destruct Herr as [_ Herr].
    set (V := (inject_Z m * 2 ^ e)%Q) in *.
    set (T := (2 ^ 1024)%Q) in *. set (P := (2 ^ e)%Q) in *.
    clearbody V T P. lra.
  - right. eexists. split; [reflexivity |]. rewrite Qred_correct.
    split; [apply Qmult_le_0_compat; lra |]. split; [exact Herr |].
    intros H. specialize (Hz1 H).
    set (M := inject_Z m) in *. set (P := (2 ^ e)%Q) in *.
    clearbody M P. nra.
Qed.

(** The last place is small next to the number it belongs to. *)
Lemma last_place_le (q B : Q) :
  (0 < q)%Q -> (q <= B)%Q -> (2 ^ (-1022) <= B)%Q ->
  (2 ^ last_place q <= B * 2 ^ (-52))%Q.
Proof.
  intros Hq HB Hmin.
  pose proof (pow2_pos (-52)) as Hp.
  destruct (last_place_cases q Hq) as [-> | He].
  - change (-1074) with (-1022 + -52). rewrite pow2_add.
    set (x := (2 ^ (-1022))%Q) in *.
    set (y := (2 ^ (-52))%Q) in *. clearbody x y. nra.
  - set (y := (2 ^ (-52))%Q) in *. set (x := (2 ^ last_place q)%Q) in *.
    clearbody x y. nra.
Qed.

Lemma round_magnitude_error (q B : Q) :
  (0 < q)%Q -> (q <= B)%Q -> (2 ^ (-1022) <= B)%Q -> (B <= 2 ^ 1023)%Q ->
  exists v,
    round_magnitude q = Some v /\ (0 <= v)%Q /\
    (Qabs (v - q) <= B * 2 ^ (-53))%Q.
Proof.
  intros Hq HB Hmin Hmax.
  pose proof (last_place_le q B Hq HB Hmin) as He.
  assert (H53 : (2 ^ (-53) == 2 ^ (-52) * (1 # 2))%Q) by reflexivity.
  assert (H1024 : (2 ^ 1024 == 2 * 2 ^ 1023)%Q) by reflexivity.
  assert (H52 : (2 ^ (-52) <= 1)%Q) by (vm_compute; discriminate).
  pose proof (pow2_pos (-52)) as Hp52.
  pose proof (pow2_pos 1023) as Hp1023.
  destruct (round_magnitude_spec q Hq) as [[_ Hover] | (v & Hv & H0 & Herr & _)].
  - exfalso.
    set (P := (2 ^ last_place q)%Q) in *. set (T := (2 ^ 1024)%Q) in *.
    set (H := (2 ^ 1023)%Q) in *. set (y := (2 ^ (-52))%Q) in *.
    clearbody P T H y. nra.
  - exists v. split; [exact Hv |]. split; [exact H0 |].
    eapply Qle_trans; [exact Herr |]. rewrite H53.
    set (P := (2 ^ last_place q)%Q) in *. set (y := (2 ^ (-52))%Q) in *.
    clearbody P y. nra.
Qed.

(** The result of a rounding is within 2^-53 of any bound on the rounded
    magnitude that is a normal number. *)
Lemma round64_error (q B : Q) :
  (Qabs q <= B)%Q -> (2 ^ (-1022) <= B)%Q -> (B <= 2 ^ 1023)%Q ->
  exists v,
    round64 q = Finite v /\ (Qabs (v - q) <= B * 2 ^ (-53))%Q.
Proof.
  intros HB Hmin Hmax. unfold round64.
  pose proof (pow2_pos (-1022)) as Hp. pose proof (pow2_pos (-53)) as Hp53.
  destruct (Qnum q) as [| n | n] eqn:Hn.
  - exists 0%Q. split; [reflexivity |].
    assert (Hq : (q == 0)%Q) by (unfold Qeq; simpl; lia).
    rewrite Hq. change (Qabs (0 - 0)) with 0%Q.
    set (x := (2 ^ (-1022))%Q) in *. set (y := (2 ^ (-53))%Q) in *.
    clearbody x y. nra.
  - assert (Hq : (0 < q)%Q) by (unfold Qlt; simpl; lia).
    rewrite (Qabs_pos q) in HB by lra.
    destruct (round_magnitude_error q B Hq HB Hmin Hmax) as (v & -> & _ & Hv).
    exists v. split; [reflexivity | exact Hv].
  - assert (Hq : (q < 0)%Q) by (unfold Qlt; simpl; lia).
    rewrite (Qabs_neg q) in HB by lra.
    destruct (round_magnitude_error (- q) B ltac:(lra) HB Hmin Hmax)
      as (v & -> & _ & Hv).
    exists (- v)%Q. split; [reflexivity |].
    assert (Hx : (- v - q == - (v - - q))%Q) by ring.
    rewrite Hx, Qabs_opp. exact Hv.
Qed.

Lemma round64_zero (q : Q) : (q == 0)%Q -> round64 q = Finite 0.
Proof.
  intros Hq. unfold round64.
  assert (Hn : Qnum q = 0) by (unfold Qeq in Hq; simpl in Hq; lia).
  rewrite Hn. reflexivity.
Qed.

Lemma binary64_on_grid (q : Q) : binary64 q -> on_grid q.
Proof.
  intros (m & e & _ & He & Hq). exists (m * 2 ^ (e + 1074)).
  rewrite Hq, inject_Z_mult, pow2_of_Z by lia.
  replace e with (e + 1074 + -1074) at 1 by lia.
  rewrite (pow2_add (e + 1074) (-1074)). ring.
Qed.

Lemma on_grid_sub (a b : Q) : on_grid a -> on_grid b -> on_grid (a - b).
Proof.
  intros [k Hk] [j Hj]. exists (k - j). rewrite Hk, Hj.
  unfold Z.sub. rewrite inject_Z_plus, inject_Z_opp. ring.
Qed.

Lemma on_grid_opp (a : Q) : on_grid a -> on_grid (- a).
Proof.
  intros [k Hk]. exists (- k). rewrite Hk, inject_Z_opp. ring.
Qed.

Lemma on_grid_pos (q : Q) :
  on_grid q -> (0 < q)%Q ->
  exists k, 1 <= k /\ (q == inject_Z k * 2 ^ (-1074))%Q.
Proof.
  intros [k Hk] Hq. exists k. split; [| exact Hk].
  pose proof (pow2_pos (-1074)) as Hp. rewrite Hk in Hq.
  destruct (Z_lt_le_dec 0 k) as [H | H]; [lia | exfalso].
  assert (Hz : (inject_Z k <= 0)%Q)
    by (change (inject_Z k <= inject_Z 0)%Q; rewrite <- Zle_Qle; exact H).
  set (K := inject_Z k) in *. set (P := (2 ^ (-1074))%Q) in *.
  clearbody K P. nra.
Qed.

Lemma nearest_even_Z (k : Z) : nearest_even (inject_Z k) = k.
Proof.
  unfold nearest_even. rewrite Qfloor_Z.
  assert (Hx : (inject_Z k - inject_Z k ?= 1 # 2)%Q = Lt).
  { rewrite <- Qlt_alt. set (x := inject_Z k). clearbody x. lra. }
  rewrite Hx. reflexivity.
Qed.

Lemma nearest_even_comp (x y : Q) :
  (x == y)%Q -> nearest_even x = nearest_even y.
Proof.
  intros Hxy. unfold nearest_even.
  rewrite (Qfloor_comp x y Hxy).
  assert (Hc : (x - inject_Z (Qfloor y) ?= 1 # 2)%Q
               = (y - inject_Z (Qfloor y) ?= 1 # 2)%Q).
  { apply Qcompare_comp; [rewrite Hxy; reflexivity | reflexivity]. }
  rewrite Hc. reflexivity.
Qed.

(** A positive multiple of 2^-1074, short of the overflow threshold, is
    rounded to a positive number with a relative error of at most 2^-53:
    below the normal numbers nothing is lost at all. *)
Lemma round_magnitude_on_grid (q : Q) :
  on_grid q -> (0 < q)%Q ->
  (round_magnitude q = None /\ (2 ^ 1024 <= q * (1 + 2 ^ (-53)))%Q) \/
  (exists v,
      round_magnitude q = Some v /\ (0 < v)%Q /\
      (Qabs (v - q) <= q * 2 ^ (-53))%Q).
Proof.
  intros Hg Hq.
  destruct (on_grid_pos q Hg Hq) as (k & Hk1 & Hk).
  pose proof (pow2_pos (-1074)) as Hp. pose proof (pow2_pos (-53)) as Hp53.
  pose proof (pow2_pos (-52)) as Hp52.
  assert (H53 : (2 ^ (-53) == 2 ^ (-52) * (1 # 2))%Q) by reflexivity.
  assert (H52 : (2 ^ (-52) <= 1)%Q) by (vm_compute; discriminate).
  assert (Hk1q : (1 <= inject_Z k)%Q)
    by (change (inject_Z 1 <= inject_Z k)%Q; rewrite <- Zle_Qle; exact Hk1).
  destruct (last_place_cases q Hq) as [He | He].
  - (* below the normal numbers: exact *)
    right. unfold round_magnitude. rewrite He. cbv zeta.
    assert (Hs : (q / 2 ^ (-1074) == inject_Z k)%Q).
    { rewrite Hk. field. lra. }
    assert (Hm : nearest_even (q / 2 ^ (-1074)) = k)
      by (rewrite (nearest_even_comp _ _ Hs); apply nearest_even_Z).
    rewrite Hm.
    assert (Hv : (inject_Z k * 2 ^ (-1074) == q)%Q) by (rewrite Hk; reflexivity).
    destruct (Qle_bool (2 ^ 1024) (inject_Z k * 2 ^ (-1074))) eqn:Hover.
    + exfalso. apply Qle_bool_iff in Hover. rewrite Hv in Hover.
      unfold last_place in He.
      assert (Hl : log2_floor q + 1 <= 1024) by lia.
      pose proof (log2_floor_lt q Hq) as Hlt.
      pose proof (pow2_le _ _ Hl) as Hle.
      set (T := (2 ^ 1024)%Q) in *.
      set (U := (2 ^ (log2_floor q + 1))%Q) in *. clearbody T U.
      lra.
    + eexists. split; [reflexivity |]. rewrite Qred_correct, Hv.
      split; [exact Hq |].
      assert (Hx : (q - q == 0)%Q) by ring. rewrite Hx.
      change (Qabs 0) with 0%Q.
      set (y := (2 ^ (-53))%Q) in *. clearbody y. nra.
  - destruct (round_magnitude_spec q Hq)
      as [[Hn Hover] | (v & Hv & H0 & Herr & Hpos)].
    + left. split; [exact Hn |].
      set (P := (2 ^ last_place q)%Q) in *. set (T := (2 ^ 1024)%Q) in *.
      set (y := (2 ^ (-52))%Q) in *. set (z := (2 ^ (-53))%Q) in *.
      clearbody P T y z. nra.
    + right. exists v. split; [exact Hv |]. split.
      * apply Hpos.
        set (P := (2 ^ last_place q)%Q) in *. set (y := (2 ^ (-52))%Q) in *.
        clearbody P y. nra.
      * eapply Qle_trans; [exact Herr |].
        set (P := (2 ^ last_place q)%Q) in *. set (y := (2 ^ (-52))%Q) in *.
        set (z := (2 ^ (-53))%Q) in *. clearbody P y z. nra.
Qed.

(** The rounding, the operators and the comparison agree with the
    Standard Library's specification of binary64 on the sample
    operands. *)
Lemma operators_agree_with_SpecFloat :
  forallb IEEE.agree IEEE.samples = true.
Proof. vm_compute. reflexivity. Qed.

(** The operators on finite numbers round the exact result. *)
Lemma fsub_error (a b B : Q) :
  (Qabs (a - b) <= B)%Q -> (2 ^ (-1022) <= B)%Q -> (B <= 2 ^ 1023)%Q ->
  exists v,
    fsub (Finite a) (Finite b) = Finite v /\
    (Qabs (v - (a - b)) <= B * 2 ^ (-53))%Q.
Proof.
  intros Hq Hlo Hhi. unfold fsub, fneg, fadd.
  apply round64_error; assumption.
Qed.

Lemma fmul_error (a b B : Q) :
  (Qabs (a * b) <= B)%Q -> (2 ^ (-1022) <= B)%Q -> (B <= 2 ^ 1023)%Q ->
  exists v,
    fmul (Finite a) (Finite b) = Finite v /\
    (Qabs (v - a * b) <= B * 2 ^ (-53))%Q.
Proof.
  intros Hq Hlo Hhi. unfold fmul.
  apply round64_error; assumption.
Qed.


(** The largest binary64 number. *)
Lemma binary64_bound (d : Q) : binary64 d -> (d <= 2 ^ 1024 - 2 ^ 971)%Q.
Proof.
  intros (m & e & Hm & He & Hd). rewrite Hd.
  pose proof (pow2_pos e) as Hpe. pose proof (pow2_pos 971) as Hp.
  pose proof (pow2_le e 971 ltac:(lia)) as Hle.
  assert (HT : (2 ^ 1024 == 2 ^ 53 * 2 ^ 971)%Q)
    by (rewrite <- pow2_add; reflexivity).
  assert (H53 : (2 ^ 53 == inject_Z (2 ^ 53))%Q)
    by (symmetry; apply pow2_of_Z; lia).
  assert (Hmq : (inject_Z m <= inject_Z (2 ^ 53) - 1)%Q).
  { change 1%Q with (inject_Z 1). unfold Qminus.
    rewrite <- inject_Z_opp, <- inject_Z_plus, <- Zle_Qle. lia. }
  rewrite HT, H53.
  set (M := inject_Z m) in *. set (K := inject_Z (2 ^ 53)) in *.
  assert (HK : (1 <= K)%Q).
  { unfold K. change 1%Q with (inject_Z 1). rewrite <- Zle_Qle. lia. }
  set (P := (2 ^ e)%Q) in *. set (U := (2 ^ 971)%Q) in *.
  clearbody M K P U. nra.
Qed.

(** A positive multiple of 2^-1074 that rounds below the overflow
    threshold. *)
Lemma round64_on_grid (q : Q) :
  on_grid q -> (0 < q)%Q -> (q * (1 + 2 ^ (-53)) < 2 ^ 1024)%Q ->
  exists v,
    round64 q = Finite v /\ (0 < v)%Q /\
    (Qabs (v - q) <= q * 2 ^ (-53))%Q.
Proof.
  intros Hg Hq Hsmall. unfold round64.
  destruct (Qnum q) as [| n | n] eqn:Hn;
    try (exfalso; unfold Qlt in Hq; rewrite Hn in Hq; cbn in Hq; lia).
  destruct (round_magnitude_on_grid q Hg Hq)
    as [[_ Hover] | (v & Hv & Hpos & Herr)].
  - exfalso. set (T := (2 ^ 1024)%Q) in *. clearbody T. lra.
  - rewrite Hv. exists v. auto.
Qed.

(** The difference of two binary64 numbers has the sign of the exact
    difference: the rounding takes no difference to 0. *)
Lemma round64_sign (q : Q) :
  on_grid q -> flt (Finite 0) (round64 q) = negb (Qle_bool q 0).
Proof.
  intros Hg. unfold round64.
  destruct (Qnum q) as [| n | n] eqn:Hn.
  - assert (Hq : (q == 0)%Q) by (unfold Qeq; rewrite Hn; reflexivity).
    cbn [flt]. apply (f_equal negb).
    transitivity true; [reflexivity |]. symmetry.
    apply Qle_bool_iff. rewrite Hq. apply Qle_refl.
  - assert (Hq : (0 < q)%Q) by (unfold Qlt; rewrite Hn; cbn; lia).
    assert (Hle : Qle_bool q 0 = false).
    { destruct (Qle_bool q 0) eqn:E; [| reflexivity].
      apply Qle_bool_iff in E. lra. }
    rewrite Hle. cbn [negb].
    destruct (round_magnitude_on_grid q Hg Hq)
      as [[Hnone _] | (v & Hv & Hpos & _)].
    + rewrite Hnone. reflexivity.
    + rewrite Hv. cbn [flt].
      destruct (Qle_bool v 0) eqn:E; [| reflexivity].
      apply Qle_bool_iff in E. lra.
  - assert (Hq : (q < 0)%Q) by (unfold Qlt; rewrite Hn; cbn; lia).
    assert (Hle : Qle_bool q 0 = true) by (apply Qle_bool_iff; lra).
    rewrite Hle. cbn [negb].
    assert (Hg' : on_grid (- q)) by (apply on_grid_opp; exact Hg).
    assert (Hq' : (0 < - q)%Q) by lra.
    destruct (round_magnitude_on_grid (- q) Hg' Hq')
      as [[Hnone _] | (v & Hv & Hpos & _)].
    + rewrite Hnone. reflexivity.
    + rewrite Hv. cbn [flt].
      destruct (Qle_bool (- v) 0) eqn:E; [reflexivity |].
      exfalso. assert (Hc : (- v <= 0)%Q) by lra.
      apply Qle_bool_iff in Hc. congruence.
Qed.

End Binary64.

Section Numerics.
Import JS.

Lemma to_int32_small (z : Z) :
  -2147483648 <= z < 2147483648 -> to_int32 z = z.
Proof.
  intros Hz. unfold to_int32.
  destruct (Z_lt_le_dec z 0) as [Hneg | Hpos].
  - replace (z mod 4294967296) with (z + 4294967296).
    + destruct (Z.ltb_spec (z + 4294967296) 2147483648); lia.
    + apply Z.mod_unique with (q := -1); lia.
  - rewrite Z.mod_small by lia.
    destruct (Z.ltb_spec z 2147483648); lia.
Qed.

Lemma band_127 (v : Z) :
  -2147483648 <= v < 2147483648 -> band v 127 = v mod 128.
Proof.
  intros Hv. unfold band. rewrite (to_int32_small v Hv).
  change (to_int32 127) with (Z.ones 7).
  rewrite Z.land_ones by lia. reflexivity.
Qed.

Lemma band_255 (v : Z) :
  -2147483648 <= v < 2147483648 -> band v 255 = v mod 256.
Proof.
  intros Hv. unfold band. rewrite (to_int32_small v Hv).
  change (to_int32 255) with (Z.ones 8).
  rewrite Z.land_ones by lia. reflexivity.
Qed.

Lemma shr_div (v n : Z) :
  -2147483648 <= v < 2147483648 -> 0 <= n -> shr v n = v / 2 ^ n.
Proof.
  intros Hv Hn. unfold shr. rewrite (to_int32_small v Hv).
  apply Z.shiftr_div_pow2; assumption.
Qed.

Lemma lor_128 (x : Z) : 0 <= x < 128 -> Z.lor x 128 = x + 128.
Proof.
  intros Hx.
  assert (Hland : Z.land x 128 = 0).
  { apply Z.bits_inj'. intros n Hn.
    rewrite Z.land_spec, Z.bits_0.
    change 128 with (2 ^ 7). rewrite Z.pow2_bits_eqb by lia.
    destruct (Z.eqb_spec 7 n) as [<- | Hne].
    - rewrite Bool.andb_true_r.
      apply Z.testbit_false; [lia |].
      rewrite Z.div_small by (change (2 ^ 7) with 128; lia). reflexivity.
    - apply Bool.andb_false_r. }
  rewrite <- Z.lxor_lor by exact Hland.
  symmetry. apply Z.add_nocarry_lxor. exact Hland.
Qed.

Lemma bor_128 (x : Z) : 0 <= x < 128 -> bor x 128 = x + 128.
Proof.
  intros Hx. unfold bor.
  rewrite (to_int32_small x) by lia.
  change (to_int32 128) with 128. apply lor_128; assumption.
Qed.

(** [clearTimeout(id)] leaves the other pending timers, and none with
    that identifier. *)
Lemma clear_timer_incl {C : Type} (id : nat) (ts : list (timer C))
    (t : timer C) :
  In t (clear_timer id ts) -> In t ts /\ timer_id t <> id.
Proof.
  unfold clear_timer. intros Ht. apply filter_In in Ht.
  destruct Ht as [Ht Hne]. split; [exact Ht |].
  intros Heq. rewrite Heq, Nat.eqb_refl in Hne. discriminate.
Qed.

End Numerics.

(** ** The variable-length quantity *)

Section VLQ.
Import JS MidiRecorder Codec.

Lemma vlq_loop_read (fuel : nat) :
  forall (v : Z) (bytes rest : list Z),
    0 <= v < 128 ^ Z.of_nat fuel -> v < 2147483648 ->
    read_vlq_from 0 (vlq_loop fuel v bytes ++ rest)
    = read_vlq_from v (bytes ++ rest).
Proof.
  induction fuel as [| fuel IH]; intros v bytes rest Hv H31.
  - simpl in *. assert (v = 0) by lia. subst v. reflexivity.
  - cbn [vlq_loop].
    destruct (Z.ltb_spec 0 v) as [Hpos | Hzero].
    + rewrite IH.
      * cbn [app read_vlq_from].
        rewrite band_127, bor_128 by (try apply Z.mod_pos_bound; lia).
        rewrite shr_div by lia. change (2 ^ 7) with 128.
        pose proof (Z.mod_pos_bound v 128 ltac:(lia)) as Hm.
        destruct (Z.ltb_spec (v mod 128 + 128) 128); [lia |].
        f_equal. pose proof (Z.div_mod v 128 ltac:(lia)). lia.
      * rewrite shr_div by lia. change (2 ^ 7) with 128.
        rewrite Nat2Z.inj_succ, Z.pow_succ_r in Hv by lia.
        split; [apply Z.div_pos; lia |].
        apply Z.div_lt_upper_bound; lia.
      * rewrite shr_div by lia. change (2 ^ 7) with 128.
        assert (v / 128 <= v) by (apply Z.div_le_upper_bound; lia). lia.
    + assert (v = 0) by lia. subst v. reflexivity.
Qed.

(** The decoder's reading of a delta inverts the encoder's writing of it,
    for every value the 32-bit arithmetic can carry. *)
Lemma read_vlq_variableLengthQuantity (v : Z) (rest : list Z) :
  0 <= v < 2147483648 ->
  read_vlq (variableLengthQuantity v ++ rest) = Some (v, rest).
Proof.
  intros Hv. unfold read_vlq, variableLengthQuantity.
  rewrite vlq_loop_read.
  - cbn [app read_vlq_from].
    rewrite band_127, shr_div by lia. change (2 ^ 7) with 128.
    pose proof (Z.mod_pos_bound v 128 ltac:(lia)) as Hm.
    destruct (Z.ltb_spec (v mod 128) 128); [| lia].
    do 2 f_equal. pose proof (Z.div_mod v 128 ltac:(lia)). lia.
  - rewrite shr_div by lia. change (2 ^ 7) with 128.
    change (128 ^ Z.of_nat 4) with 268435456.
    split; [apply Z.div_pos; lia |].
    apply Z.div_lt_upper_bound; lia.
  - rewrite shr_div by lia. change (2 ^ 7) with 128.
    assert (v / 128 <= v) by (apply Z.div_le_upper_bound; lia). lia.
Qed.

Lemma vlq_loop_more_fuel (extra n : nat) :
  forall (v : Z) (bytes : list Z),
    -2147483648 <= v < 2147483648 -> v < 128 ^ Z.of_nat n ->
    vlq_loop (n + extra) v bytes = vlq_loop n v bytes.
Proof.
  induction n as [| n IH]; intros v bytes Hr Hv.
  - simpl in Hv. destruct extra; [reflexivity |]. simpl.
    destruct (Z.ltb_spec 0 v); [lia | reflexivity].
  - cbn [Nat.add vlq_loop].
    destruct (Z.ltb_spec 0 v) as [Hpos | Hle]; [| reflexivity].
    rewrite Nat2Z.inj_succ, Z.pow_succ_r in Hv by lia.
    assert (Hq : 0 <= v / 128 <= v).
    { split; [apply Z.div_pos; lia | apply Z.div_le_upper_bound; lia]. }
    apply IH; rewrite shr_div by lia; change (2 ^ 7) with 128.
    + lia.
    + apply Z.div_lt_upper_bound; lia.
Qed.

(** The loop of [variableLengthQuantity] never needs a fifth round: more
    fuel changes nothing, whatever the argument. *)
Lemma vlq_loop_fuel (extra : nat) (value : Z) (bytes : list Z) :
  vlq_loop (4 + extra) (shr value 7) bytes = vlq_loop 4 (shr value 7) bytes.
Proof.
  assert (Hrange : -2147483648 <= to_int32 value < 2147483648).
  { unfold to_int32.
    pose proof (Z.mod_pos_bound value 4294967296 ltac:(lia)).
    destruct (Z.ltb_spec (value mod 4294967296) 2147483648); lia. }
  assert (Hq : -2147483648 <= shr value 7 < 268435456).
  { unfold shr. rewrite Z.shiftr_div_pow2 by lia. change (2 ^ 7) with 128.
    split; [apply Z.div_le_lower_bound; lia | apply Z.div_lt_upper_bound; lia]. }
  apply vlq_loop_more_fuel; [lia |].
  change (128 ^ Z.of_nat 4) with 268435456. lia.
Qed.

End VLQ.

(** ** Encoding and decoding a track *)

Section Track.
Import JS MidiRecorder Codec RoundTrip.

Lemma vlq_loop_bytes (fuel : nat) :
  forall (v : Z) (bytes : list Z),
    -2147483648 <= v < 2147483648 -> Forall byte bytes ->
    Forall byte (vlq_loop fuel v bytes).
Proof.
  induction fuel as [| fuel IH]; intros v bytes Hv Hb; [exact Hb |].
  cbn [vlq_loop]. destruct (Z.ltb_spec 0 v) as [Hpos | _]; [| exact Hb].
  pose proof (Z.mod_pos_bound v 128 ltac:(lia)) as Hm.
  assert (Hq : 0 <= v / 128 <= v).
  { split; [apply Z.div_pos; lia | apply Z.div_le_upper_bound; lia]. }
  apply IH.
  - rewrite shr_div by lia. change (2 ^ 7) with 128. lia.
  - constructor; [| exact Hb].
    rewrite band_127, bor_128 by lia. unfold byte. lia.
Qed.

Lemma variableLengthQuantity_bytes (v : Z) :
  0 <= v < 2147483648 -> Forall byte (variableLengthQuantity v).
Proof.
  intros Hv. unfold variableLengthQuantity.
  pose proof (Z.mod_pos_bound v 128 ltac:(lia)) as Hm.
  assert (Hq : 0 <= v / 128 <= v).
  { split; [apply Z.div_pos; lia | apply Z.div_le_upper_bound; lia]. }
  apply vlq_loop_bytes.
  - rewrite shr_div by lia. change (2 ^ 7) with 128. lia.
  - constructor; [| constructor]. rewrite band_127 by lia. unfold byte. lia.
Qed.

Lemma vlq_loop_length (fuel : nat) :
  forall (v : Z) (bytes : list Z),
    (List.length (vlq_loop fuel v bytes) <= fuel + List.length bytes)%nat.
Proof.
  induction fuel as [| fuel IH]; intros v bytes; [simpl; lia |].
  cbn [vlq_loop]. destruct (0 <? v); [| lia].
  specialize (IH (shr v 7) (bor (band v 127) 128 :: bytes)).
  simpl in IH. lia.
Qed.

Lemma Uint8Array_bytes (l : list Z) : Forall byte l -> Uint8Array l = l.
Proof.
  unfold Uint8Array. induction 1 as [| b l Hb _ IH]; [reflexivity |].
  simpl. rewrite IH. f_equal. apply Z.mod_small. exact Hb.
Qed.

(** [Math.round] is within half a unit of its argument. *)
Lemma Math_round_error (x : Q) :
  (x - (1 # 2) < inject_Z (Qfloor (x + (1 # 2))) /\
   inject_Z (Qfloor (x + (1 # 2))) <= x + (1 # 2))%Q.
Proof.
  pose proof (Qfloor_le (x + (1 # 2))) as Hle.
  pose proof (Qlt_floor (x + (1 # 2))) as Hlt.
  rewrite inject_Z_plus in Hlt. change (inject_Z 1) with 1%Q in Hlt.
  generalize dependent (inject_Z (Qfloor (x + (1 # 2)))). intros q Hle Hlt.
  split; lra.
Qed.

Lemma integral_of_Z (z : Z) : integral (Finite (inject_Z z)) = z.
Proof.
  unfold integral. cbn [Qnum inject_Z].
  destruct (z <? 0); [apply Qceiling_Z | apply Qfloor_Z].
Qed.

(** The clamped and rounded gap, as an integer. *)
Lemma clamp_round (p : Q) :
  integral (Math_max 0 (Math_round (Finite p)))
  = Z.max 0 (Qfloor (p + (1 # 2))).
Proof.
  cbn [Math_round Math_max flt].
  set (z := Qfloor (p + (1 # 2))).
  destruct (Qle_bool (inject_Z z) 0) eqn:Hle; cbn [negb].
  - apply Qle_bool_iff in Hle.
    change 0%Q with (inject_Z 0) in Hle. rewrite <- Zle_Qle in Hle.
    rewrite Z.max_l by exact Hle. reflexivity.
  - rewrite integral_of_Z.
    assert (Hz : 0 < z).
    { destruct (Z_lt_le_dec 0 z) as [H | H]; [exact H |].
      exfalso. rewrite Zle_Qle in H. apply Qle_bool_iff in H.
      change (inject_Z 0) with 0%Q in H. congruence. }
    rewrite Z.max_r by lia. reflexivity.
Qed.

Lemma integral_nonneg (x : number) :
  flt (Finite 0) x = true -> 0 <= integral x.
Proof.
  destruct x as [q | | |]; cbn [flt integral]; try lia.
  intros Hq. apply Bool.negb_true_iff in Hq.
  assert (Hpos : (0 < q)%Q).
  { destruct (Qlt_le_dec 0 q) as [H | H]; [exact H |].
    apply Qle_bool_iff in H. congruence. }
  assert (Hn : 0 < Qnum q) by (unfold Qlt in Hpos; cbn in Hpos; lia).
  destruct (Z.ltb_spec (Qnum q) 0); [lia |].
  change 0 with (Qfloor 0). apply Qfloor_resp_le. lra.
Qed.

(** The per-note delta is never negative: a negative gap is clamped. *)
Lemma deltaTime_nonneg (currentTime : number) (n : NoteEvent) :
  0 <= deltaTime currentTime n.
Proof.
  unfold deltaTime.
  set (y := Math_round (fmul (fsub (time n) currentTime) 160)).
  unfold Math_max.
  destruct y as [q | | |] eqn:Hy; try (cbn; lia).
  - destruct (flt (Finite 0) (Finite q)) eqn:Hlt.
    + apply integral_nonneg. exact Hlt.
    + cbn. lia.
Qed.

(** A gap of a session, in ticks: the delta is the gap times 160 up to
    half a tick and the rounding of the difference and of the product;
    it fits the 32-bit integers. *)
Lemma deltaTime_error (a b : Q) (n : NoteEvent) :
  time n = Finite b ->
  (- slack <= b - a)%Q -> (b - a <= max_seconds + 2 * slack)%Q ->
  0 <= deltaTime (Finite a) n < 2147483648 /\
  (Qabs (inject_Z (deltaTime (Finite a) n) * (1 # 160) - (b - a))
   <= gap_error)%Q.
Proof.
  intros Ht Hlo Hhi. unfold deltaTime. rewrite Ht.
  unfold slack, max_seconds in *.
  assert (Hp25 : (2 ^ 25 * 2 ^ (-53) == 1 # 268435456)%Q)
    by (vm_compute; reflexivity).
  assert (Hp33 : (2 ^ 33 * 2 ^ (-53) == 1 # 1048576)%Q)
    by (vm_compute; reflexivity).
  assert (H25 : (2 ^ 25 == 33554432)%Q) by (vm_compute; reflexivity).
  assert (H33 : (2 ^ 33 == 8589934592)%Q) by (vm_compute; reflexivity).
  destruct (fsub_error b a (2 ^ 25)) as (v & Hv & Ev).
  { rewrite H25. apply Qabs_Qle_condition. split; lra. }
  { apply pow2_le. lia. }
  { apply pow2_le. lia. }
  rewrite Hv. rewrite Hp25 in Ev.
  apply Qabs_Qle_condition in Ev. destruct Ev as [Ev1 Ev2].
  destruct (fmul_error v 160 (2 ^ 33)) as (p & Hp & Ep).
  { rewrite H33. apply Qabs_Qle_condition. split; lra. }
  { apply pow2_le. lia. }
  { apply pow2_le. lia. }
  rewrite Hp. rewrite Hp33 in Ep.
  apply Qabs_Qle_condition in Ep. destruct Ep as [Ep1 Ep2].
  rewrite clamp_round.
  destruct (Math_round_error p) as [Hr1 Hr2].
  set (z := Qfloor (p + (1 # 2))) in *.
  assert (Hz : 0 <= z).
  { change 0 with (Qfloor 0). apply Qfloor_resp_le. lra. }
  rewrite Z.max_r by exact Hz.
  split; [split; [exact Hz |] |].
  - assert (Hq : (inject_Z z < inject_Z 2147483648)%Q).
    { change (inject_Z 2147483648) with (2147483648 # 1). lra. }
    rewrite <- Zlt_Qlt in Hq. exact Hq.
  - unfold gap_error. apply Qabs_Qle_condition.
    set (r := inject_Z z) in *. clearbody r. split; lra.
Qed.

Lemma fold_left_emit_note (l : list NoteEvent) :
  forall (events : list Z) (c : number),
    fold_left emit_note l (events, c)
    = (events ++ encode_from c l, last_time c l).
Proof.
  induction l as [| n l IH]; intros events c; simpl.
  - rewrite app_nil_r. reflexivity.
  - rewrite IH. f_equal. rewrite <- !app_assoc. reflexivity.
Qed.

Lemma chain_gap (c t : Q) :
  (- slack <= c)%Q -> (c - slack <= t)%Q -> (t <= max_seconds + slack)%Q ->
  (- slack <= t - c)%Q /\ (t - c <= max_seconds + 2 * slack)%Q.
Proof. unfold slack, max_seconds. intros H1 H2 H3. split; lra. Qed.

Lemma encode_from_bytes (l : list NoteEvent) :
  forall c, (- slack <= c)%Q -> chain c l ->
            Forall byte (encode_from (Finite c) l).
Proof.
  induction l as [| n l IH]; intros c H0 Hch; [constructor |].
  simpl in Hch. destruct Hch as (t & Ht & Hc & Hlo & Hmax & Hn & Hv & Hch).
  destruct (chain_gap c t H0 Hc Hmax) as [Hg1 Hg2].
  cbn [encode_from]. apply Forall_app. split.
  - apply variableLengthQuantity_bytes.
    apply (deltaTime_error c t n Ht Hg1 Hg2).
  - repeat constructor; unfold byte; try lia.
    + destruct (isNoteOn n); lia.
    + destruct (isNoteOn n); lia.
    + rewrite Ht. apply IH; [exact Hlo | exact Hch].
Qed.

Lemma encode_from_length (l : list NoteEvent) :
  forall c, (List.length (encode_from c l) <= 8 * List.length l)%nat.
Proof.
  induction l as [| n l IH]; intros c; [simpl; lia |].
  cbn [encode_from]. rewrite !length_app. specialize (IH (time n)).
  pose proof (vlq_loop_length 4 (shr (deltaTime c n) 7)
                [band (deltaTime c n) 127]) as Hl.
  fold (variableLengthQuantity (deltaTime c n)) in Hl.
  simpl List.length in *. lia.
Qed.

(** The walk of the decoder over the bytes of the encoder. *)
Lemma walk_track_encode_from (l : list NoteEvent) :
  forall (fuel : nat) (tick : Z) (c : Q),
    (- slack <= c)%Q -> chain c l -> (List.length l < fuel)%nat ->
    walk_track fuel tick (encode_from (Finite c) l ++ end_of_track)
    = Some (decoded_from tick (Finite c) l).
Proof.
  induction l as [| n l IH]; intros fuel tick c H0 Hch Hfuel.
  - destruct fuel as [| fuel]; [simpl in Hfuel; lia |]. reflexivity.
  - destruct fuel as [| fuel]; [simpl in Hfuel; lia |].
    simpl in Hch. destruct Hch as (t & Ht & Hc & Hlo & Hmax & Hn & Hv & Hch).
    destruct (chain_gap c t H0 Hc Hmax) as [Hg1 Hg2].
    cbn [encode_from decoded_from walk_track]. rewrite <- !app_assoc.
    rewrite read_vlq_variableLengthQuantity
      by (apply (deltaTime_error c t n Ht Hg1 Hg2)).
    cbn [app].
    assert (Hst : ((if isNoteOn n then 144 else 128) / 16 =? 9)
                  = isNoteOn n) by (destruct (isNoteOn n); reflexivity).
    rewrite Hst.
    assert (Hor : (isNoteOn n
                   || ((if isNoteOn n then 144 else 128) / 16 =? 8))%bool
                  = true) by (destruct (isNoteOn n); reflexivity).
    rewrite Hor. rewrite Ht.
    rewrite IH; [reflexivity | exact Hlo | exact Hch | simpl in Hfuel; lia].
Qed.

End Track.

(** ** Sorting and normalizing *)

Section Sorting.
Import JS MidiRecorder RoundTrip.

(** On finite times the comparator asks for [y] before [x] exactly when
    [y] is the earlier one. *)
Lemma comparator_sign (x y : NoteEvent) :
  timed x -> timed y ->
  fgt (comparator x y) 0
  = negb (Qle_bool (seconds (time x)) (seconds (time y))).
Proof.
  intros (a & Ha & Hba) (b & Hb & Hbb).
  unfold fgt, comparator. rewrite Ha, Hb. cbn [seconds].
  unfold fsub, fneg, fadd.
  rewrite (round64_sign (a + - b)).
  - apply (f_equal negb).
    destruct (Qle_bool a b) eqn:Hab.
    + apply Qle_bool_iff in Hab. apply Qle_bool_iff. lra.
    + destruct (Qle_bool (a + - b) 0) eqn:E; [| reflexivity].
      apply Qle_bool_iff in E.
      assert (Hc : (a <= b)%Q) by lra.
      apply Qle_bool_iff in Hc. congruence.
  - apply (on_grid_sub a b); apply binary64_on_grid; assumption.
Qed.

Lemma insert_by_time_perm (x : NoteEvent) (l : list NoteEvent) :
  Permutation (insert_by_time x l) (x :: l).
Proof.
  induction l as [| y l IH]; cbn [insert_by_time]; [reflexivity |].
  destruct (fgt (comparator x y) 0); [| reflexivity].
  rewrite IH. apply perm_swap.
Qed.

Lemma sort_by_time_perm (l : list NoteEvent) :
  Permutation (sort_by_time l) l.
Proof.
  induction l as [| x l IH]; cbn [sort_by_time fold_right]; [reflexivity |].
  rewrite insert_by_time_perm. constructor. exact IH.
Qed.

Lemma insert_by_time_hd (x y : NoteEvent) (l : list NoteEvent) :
  by_time y x -> HdRel by_time y l -> HdRel by_time y (insert_by_time x l).
Proof.
  intros Hyx Hhd. destruct l as [| z l]; cbn [insert_by_time];
    [constructor; exact Hyx |].
  destruct (fgt (comparator x z) 0); constructor;
    [inversion Hhd; assumption | exact Hyx].
Qed.

Lemma insert_by_time_sorted (x : NoteEvent) (l : list NoteEvent) :
  timed x -> Forall timed l ->
  Sorted by_time l -> Sorted by_time (insert_by_time x l).
Proof.
  intros Hx Hl Hs. induction Hs as [| y l Hs IH Hhd];
    cbn [insert_by_time]; [repeat constructor |].
  inversion Hl as [| ? ? Hy Hl']; subst.
  rewrite (comparator_sign x y Hx Hy).
  destruct (Qle_bool (seconds (time x)) (seconds (time y))) eqn:Hle;
    cbn [negb].
  - constructor; [constructor; assumption |].
    constructor. apply Qle_bool_iff. exact Hle.
  - constructor; [apply IH; exact Hl' |].
    apply insert_by_time_hd; [| exact Hhd].
    unfold by_time.
    destruct (Qlt_le_dec (seconds (time y)) (seconds (time x)))
      as [Hlt | Hge].
    + apply Qlt_le_weak. exact Hlt.
    + apply Qle_bool_iff in Hge. congruence.
Qed.

Lemma sort_by_time_timed (l : list NoteEvent) :
  Forall timed l -> Forall timed (sort_by_time l).
Proof.
  intros Hl. rewrite Forall_forall in *. intros e He. apply Hl.
  eapply Permutation_in; [apply sort_by_time_perm | exact He].
Qed.

Lemma sort_by_time_sorted (l : list NoteEvent) :
  Forall timed l -> Sorted by_time (sort_by_time l).
Proof.
  induction 1 as [| x l Hx Hl IH]; cbn [sort_by_time fold_right];
    [constructor |].
  apply insert_by_time_sorted;
    [exact Hx | apply sort_by_time_timed; exact Hl | exact IH].
Qed.

(** The sort is stable: an event is never moved past one of the same
    time. *)
Lemma insert_by_time_stable (t : Q) (x : NoteEvent) (l : list NoteEvent) :
  timed x -> Forall timed l ->
  filter (at_time t) (insert_by_time x l) = filter (at_time t) (x :: l).
Proof.
  intros Hx Hl. induction Hl as [| y l Hy Hl IH]; [reflexivity |].
  cbn [insert_by_time]. rewrite (comparator_sign x y Hx Hy).
  destruct (Qle_bool (seconds (time x)) (seconds (time y))) eqn:Hle;
    cbn [negb]; [reflexivity |].
  cbn [filter] in *. rewrite IH.
  destruct (at_time t x) eqn:Htx; [| reflexivity].
  destruct (at_time t y) eqn:Hty; [| reflexivity].
  exfalso. unfold at_time in Htx, Hty.
  apply Qeq_bool_iff in Htx. apply Qeq_bool_iff in Hty.
  assert (Hc : (seconds (time x) <= seconds (time y))%Q)
    by (rewrite Htx, Hty; apply Qle_refl).
  apply Qle_bool_iff in Hc. congruence.
Qed.

Lemma sort_by_time_stable (t : Q) (l : list NoteEvent) :
  Forall timed l ->
  filter (at_time t) (sort_by_time l) = filter (at_time t) l.
Proof.
  induction 1 as [| x l Hx Hl IH]; [reflexivity |].
  cbn [sort_by_time fold_right].
  change (fold_right insert_by_time [] l) with (sort_by_time l).
  rewrite insert_by_time_stable
    by (try apply sort_by_time_timed; assumption).
  cbn [filter]. rewrite IH. reflexivity.
Qed.

(** Events already in time order are left in their order. *)
Lemma sort_by_time_in_order (l : list NoteEvent) :
  Forall timed l -> Sorted by_time l -> sort_by_time l = l.
Proof.
  intros Hl Hs. induction Hs as [| x l Hs IH Hhd]; [reflexivity |].
  inversion Hl as [| ? ? Hx Hl']; subst.
  cbn [sort_by_time fold_right].
  change (fold_right insert_by_time [] l) with (sort_by_time l).
  rewrite (IH Hl'). destruct Hhd as [| y l Hxy]; [reflexivity |].
  inversion Hl' as [| ? ? Hy _]; subst.
  cbn [insert_by_time]. rewrite (comparator_sign x y Hx Hy).
  apply Qle_bool_iff in Hxy. rewrite Hxy. reflexivity.
Qed.

(** The sort of the encoders puts the events in time order, events of
    equal time in the order of the input. *)
Lemma sort_by_time_ordered (l : list NoteEvent) :
  Forall timed l -> time_ordered (sort_by_time l) l.
Proof.
  intros Hl. split; [apply sort_by_time_perm |].
  split; [apply sort_by_time_sorted; exact Hl |].
  split; [intros t; apply sort_by_time_stable; exact Hl |].
  apply sort_by_time_in_order. exact Hl.
Qed.

Lemma in_session_timed (e : NoteEvent) : in_session e -> timed e.
Proof. intros [(_ & _ & t & Ht & Hb & _) _]. exists t. auto. Qed.

Lemma all_in_session_timed (l : list NoteEvent) :
  Forall in_session l -> Forall timed l.
Proof.
  intros H. eapply Forall_impl; [| exact H]. apply in_session_timed.
Qed.

Lemma by_time_transitive : Relations_1.Transitive by_time.
Proof. intros x y z Hxy Hyz. unfold by_time in *. lra. Qed.

(** The normalized time of an event of a session: the rounded distance
    from the first event, at most 2^-29 s from the exact one. *)
Lemma normalized_time (t0 t : Q) :
  (0 <= t0)%Q -> (t0 <= t)%Q -> (t <= max_seconds)%Q ->
  exists u,
    fsub (Finite t) (Finite t0) = Finite u /\
    (Qabs (u - (t - t0)) <= 1 # 536870912)%Q.
Proof.
  unfold max_seconds. intros H0 H1 H2.
  destruct (fsub_error t t0 (2 ^ 24)) as (u & Hu & Eu).
  - assert (H24 : (2 ^ 24 == 16777216)%Q) by (vm_compute; reflexivity).
    rewrite H24. apply Qabs_Qle_condition. split; lra.
  - apply pow2_le. lia.
  - apply pow2_le. lia.
  - exists u. split; [exact Hu |].
    assert (Hp : (2 ^ 24 * 2 ^ (-53) == 1 # 536870912)%Q)
      by (vm_compute; reflexivity).
    rewrite Hp in Eu. exact Eu.
Qed.

Lemma chain_normalize (t0 : Q) (l : list NoteEvent) :
  forall c,
    (0 <= t0)%Q -> Sorted by_time l -> Forall in_session l ->
    (forall e, In e l -> (t0 <= seconds (time e))%Q) ->
    match l with
    | [] => True
    | e :: _ => (c <= seconds (time e) - t0 + (1 # 536870912))%Q
    end ->
    chain c
      (map (fun n => {| note := note n; velocity := velocity n;
                        time := fsub (time n) (Finite t0);
                        isNoteOn := isNoteOn n |})
           l).
Proof.
  induction l as [| e l IH]; intros c H0 Hs Hall Hge Hc; [exact I |].
  inversion Hs as [| ? ? Hs' Hhd]; subst.
  inversion Hall as [| ? ? [(Hn & Hv & t & Ht & Hb & Ht0) Hmax] Hall'];
    subst.
  pose proof (Hge e (or_introl eq_refl)) as Hfirst.
  rewrite Ht in Hc, Hmax, Hfirst. cbn [seconds] in Hc, Hmax, Hfirst.
  destruct (normalized_time t0 t H0 Hfirst Hmax) as (u & Hu & Eu).
  apply Qabs_Qle_condition in Eu. destruct Eu as [Eu1 Eu2].
  cbn [map chain time note velocity]. rewrite Ht, Hu.
  exists u. unfold slack, max_seconds in *.
  split; [reflexivity |].
  split; [lra |]. split; [lra |]. split; [lra |].
  split; [exact Hn |]. split; [exact Hv |].
  apply IH; try assumption.
  - intros x Hx. apply Hge. right. exact Hx.
  - destruct Hhd as [| e' l Hee']; [exact I |].
    unfold by_time in Hee'. rewrite Ht in Hee'. cbn [seconds] in Hee'. lra.
Qed.

(** The first of the events in time order is the earliest. *)
Lemma sorted_first_earliest (e0 : NoteEvent) (l : list NoteEvent) :
  Sorted by_time (e0 :: l) ->
  forall e, In e (e0 :: l) -> (seconds (time e0) <= seconds (time e))%Q.
Proof.
  intros Hs e He.
  apply Sorted_StronglySorted in Hs; [| exact by_time_transitive].
  inversion Hs as [| ? ? _ Hall]; subst.
  destruct He as [<- | He]; [apply Qle_refl |].
  rewrite Forall_forall in Hall. apply Hall. exact He.
Qed.

Lemma normalizedNotes_chain (notes : list NoteEvent) :
  Forall in_session notes -> chain 0 (normalizedNotes notes).
Proof.
  intros Hall. unfold normalizedNotes.
  assert (Hsorted := sort_by_time_sorted notes (all_in_session_timed _ Hall)).
  assert (Hall' : Forall in_session (sort_by_time notes)).
  { rewrite Forall_forall in *. intros e He. apply Hall.
    eapply Permutation_in; [apply sort_by_time_perm | exact He]. }
  destruct (sort_by_time notes) as [| e0 l] eqn:Hsort; [exact I |].
  inversion Hall' as [| ? ? [(_ & _ & t0 & Ht0 & _ & Hpos) _] _]; subst.
  cbn [firstNoteTime]. rewrite Ht0.
  apply chain_normalize; try assumption.
  - intros e He. pose proof (sorted_first_earliest e0 l Hsorted e He) as H.
    rewrite Ht0 in H. exact H.
  - rewrite Ht0. cbn [seconds]. lra.
Qed.

Lemma normalizedNotes_key (notes : list NoteEvent) :
  map key (normalizedNotes notes) = map key (sort_by_time notes).
Proof.
  unfold normalizedNotes. rewrite map_map. reflexivity.
Qed.

Lemma normalizedNotes_length (notes : list NoteEvent) :
  List.length (normalizedNotes notes) = List.length notes.
Proof.
  unfold normalizedNotes. rewrite length_map.
  apply Permutation_length, sort_by_time_perm.
Qed.

(** The first normalized event sits at time 0. *)
Lemma normalizedNotes_first (notes : list NoteEvent) (e : NoteEvent)
    (l : list NoteEvent) :
  Forall timed notes ->
  normalizedNotes notes = e :: l -> time e = Finite 0.
Proof.
  intros Hall. unfold normalizedNotes.
  pose proof (sort_by_time_timed notes Hall) as Hall'.
  destruct (sort_by_time notes) as [| e0 l0]; [discriminate |].
  inversion Hall' as [| ? ? (t0 & Ht0 & _) _]; subst.
  simpl. intros Heq. injection Heq as <- _. cbn [time]. rewrite Ht0.
  unfold fsub, fneg, fadd. apply round64_zero. ring.
Qed.

(** A normalized time is the original, counted from the first event, up
    to 2^-29 s. *)
Lemma normalizedNotes_time (notes : list NoteEvent) (k : nat)
    (o o' e0 : NoteEvent) :
  Forall in_session notes ->
  nth_error (sort_by_time notes) 0 = Some e0 ->
  nth_error (sort_by_time notes) k = Some o ->
  nth_error (normalizedNotes notes) k = Some o' ->
  exists u,
    time o' = Finite u /\
    (Qabs (u - (seconds (time o) - seconds (time e0))) <= 1 # 536870912)%Q.
Proof.
  intros Hall H0 Ho Ho'.
  assert (Hsorted := sort_by_time_sorted notes (all_in_session_timed _ Hall)).
  assert (Hall' : Forall in_session (sort_by_time notes)).
  { rewrite Forall_forall in *. intros e He. apply Hall.
    eapply Permutation_in; [apply sort_by_time_perm | exact He]. }
  unfold normalizedNotes in Ho'. cbv zeta in Ho'.
  rewrite nth_error_map, Ho in Ho'. cbn [option_map] in Ho'.
  injection Ho' as <-. cbn [time].
  destruct (sort_by_time notes) as [| x l] eqn:Hsort; [discriminate |].
  cbn [nth_error] in H0. injection H0 as ->.
  rewrite Forall_forall in Hall'.
  pose proof (nth_error_In _ _ Ho) as Hin.
  destruct (Hall' e0 (or_introl eq_refl))
    as [(_ & _ & t0 & Ht0 & _ & Hpos) _].
  destruct (Hall' o Hin) as [(_ & _ & t & Ht & _ & _) Hmax].
  pose proof (sorted_first_earliest e0 l Hsorted o Hin) as Hle.
  cbn [firstNoteTime]. rewrite Ht0, Ht in *. cbn [seconds] in *.
  apply normalized_time; assumption.
Qed.

End Sorting.

(** ** The file around the track *)

Section File.
Import JS MidiRecorder Codec RoundTrip.

Lemma int32ToBytes_big_endian (n : Z) :
  0 <= n < 2147483648 ->
  exists b3 b2 b1 b0,
    int32ToBytes n = [b3; b2; b1; b0] /\
    byte b3 /\ byte b2 /\ byte b1 /\ byte b0 /\
    big_endian [b3; b2; b1; b0] = n.
Proof.
  intros Hn.
  assert (Hshift : forall k, 0 <= k ->
             -2147483648 <= n / 2 ^ k < 2147483648).
  { intros k Hk. assert (0 < 2 ^ k) by (apply Z.pow_pos_nonneg; lia).
    assert (0 <= n / 2 ^ k <= n).
    { split; [apply Z.div_pos; lia | apply Z.div_le_upper_bound; nia]. }
    lia. }
  exists (n / 2 ^ 24 mod 256), (n / 2 ^ 16 mod 256),
         (n / 2 ^ 8 mod 256), (n mod 256).
  split; [| repeat split; try (apply Z.mod_pos_bound; lia)].
  - unfold int32ToBytes.
    rewrite !shr_div by lia.
    rewrite !band_255 by (try apply Hshift; lia). reflexivity.
  - unfold big_endian. cbn [fold_left].
    change (2 ^ 24) with (256 * (256 * 256)).
    change (2 ^ 16) with (256 * 256). change (2 ^ 8) with 256.
    rewrite <- !Z.div_div by lia.
    pose proof (Z.div_mod n 256 ltac:(lia)).
    pose proof (Z.div_mod (n / 256) 256 ltac:(lia)).
    pose proof (Z.div_mod (n / 256 / 256) 256 ltac:(lia)).
    assert (0 <= n / 256 / 256 / 256 < 256).
    { split; [repeat apply Z.div_pos; lia |].
      repeat apply Z.div_lt_upper_bound; lia. }
    rewrite (Z.mod_small (n / 256 / 256 / 256)) by lia. lia.
Qed.

(** A file written around a track of bytes decodes to what its track
    decodes to. *)
Lemma decode_midi_file (track : list Z) :
  Forall byte track ->
  Z.of_nat (List.length track) < 2147483648 ->
  decode (midi_file track)
  = match decode_track track with
    | Some events => inr events
    | None => inl MalformedFileError
    end.
Proof.
  intros Hbytes Hlen.
  destruct (int32ToBytes_big_endian (Z.of_nat (List.length track)))
    as (b3 & b2 & b1 & b0 & Hb & H3 & H2 & H1 & H0 & Hbe); [lia |].
  unfold midi_file. rewrite Hb.
  rewrite (Uint8Array_bytes ([77; 84; 114; 107] ++ [b3; b2; b1; b0]))
    by (cbn [app];
        repeat (apply Forall_cons; [first [assumption | unfold byte; lia] |]);
        apply Forall_nil).
  change header with [77; 84; 104; 100; 0; 0; 0; 6; 0; 0; 0; 1; 0; 96].
  unfold decode. cbn [app firstn skipn].
  change (bytes_eqb [77; 84; 104; 100] MThd) with true.
  change (bytes_eqb [77; 84; 114; 107] MTrk) with true.
  change (big_endian [0; 0; 0; 6] =? 6) with true.
  rewrite Hbe. cbn [negb List.length Nat.ltb Nat.leb].
  rewrite Z.ltb_irrefl, Nat2Z.id, firstn_all. reflexivity.
Qed.

End File.

(** ** Round trip (C1) *)

Section RoundTripProofs.
Import JS MidiRecorder Codec RoundTrip.

Lemma encode_from_covers (l : list NoteEvent) :
  forall c, (List.length l <= List.length (encode_from c l))%nat.
Proof.
  induction l as [| n l IH]; intros c; [simpl; lia |].
  cbn [encode_from]. rewrite !length_app. specialize (IH (time n)).
  simpl List.length. lia.
Qed.

Lemma decoded_from_key (l : list NoteEvent) :
  forall tick c, map key (decoded_from tick c l) = map key l.
Proof.
  induction l as [| n l IH]; intros tick c; [reflexivity |].
  cbn [decoded_from map]. rewrite IH. reflexivity.
Qed.

Lemma ticks_to_seconds_plus (a b : Z) :
  (ticks_to_seconds (a + b)
   == ticks_to_seconds a + inject_Z b * (1 # 160))%Q.
Proof.
  unfold ticks_to_seconds. rewrite inject_Z_plus. field.
Qed.

(** Every gap adds at most [gap_error] to the error of a decoded time. *)
Lemma decoded_from_time (l : list NoteEvent) :
  forall (tick : Z) (c E : Q) (k : nat) (d o : NoteEvent),
    (- slack <= c)%Q -> chain c l ->
    (Qabs (ticks_to_seconds tick - c) <= E)%Q ->
    nth_error (decoded_from tick (Finite c) l) k = Some d ->
    nth_error l k = Some o ->
    (Qabs (seconds (time d) - seconds (time o))
     <= E + inject_Z (Z.of_nat (S k)) * gap_error)%Q.
Proof.
  induction l as [| n l IH]; intros tick c E k d o H0 Hch HE Hd Ho.
  - destruct k; discriminate.
  - simpl in Hch. destruct Hch as (t & Ht & Hc & Hlo & Hmax & Hn & Hv & Hch).
    destruct (chain_gap c t H0 Hc Hmax) as [Hg1 Hg2].
    destruct (deltaTime_error c t n Ht Hg1 Hg2) as [_ Hdelta].
    assert (Hstep :
      (Qabs (ticks_to_seconds (tick + deltaTime (Finite c) n) - t)
       <= E + gap_error)%Q).
    { apply Qabs_Qle_condition in HE. destruct HE as [HE1 HE2].
      apply Qabs_Qle_condition in Hdelta. destruct Hdelta as [Hd1 Hd2].
      apply Qabs_Qle_condition.
      rewrite ticks_to_seconds_plus.
      generalize dependent (inject_Z (deltaTime (Finite c) n)).
      generalize dependent (ticks_to_seconds tick).
      intros a HE1 HE2 r Hd1 Hd2. split; lra. }
    cbn [decoded_from] in Hd. rewrite Ht in Hd.
    destruct k as [| k].
    + cbn [nth_error] in Hd, Ho. injection Hd as <-. injection Ho as <-.
      cbn [time]. rewrite Ht. cbn [seconds].
      change (inject_Z (Z.of_nat 1)) with 1%Q.
      eapply Qle_trans; [exact Hstep |]. lra.
    + cbn [nth_error] in Hd, Ho.
      specialize (IH _ _ _ _ _ _ Hlo Hch Hstep Hd Ho).
      eapply Qle_trans; [exact IH |].
      rewrite (Nat2Z.inj_succ (S k)). unfold Z.succ.
      rewrite inject_Z_plus. change (inject_Z 1) with 1%Q.
      generalize (inject_Z (Z.of_nat (S k))). intros q. lra.
Qed.

Lemma deltaTime_at_zero (n : NoteEvent) :
  time n = Finite 0 -> deltaTime (Finite 0) n = 0.
Proof. intros Hn. unfold deltaTime. rewrite Hn. reflexivity. Qed.

Lemma decoded_time_from_start (l : list NoteEvent) (k : nat)
    (d o : NoteEvent) :
  chain 0 l ->
  match l with [] => True | e :: _ => time e = Finite 0 end ->
  nth_error (decoded_from 0 (Finite 0) l) k = Some d ->
  nth_error l k = Some o ->
  (Qabs (seconds (time d) - seconds (time o))
   <= inject_Z (Z.of_nat k) * gap_error)%Q.
Proof.
  intros Hch Hfirst Hd Ho.
  destruct l as [| e l]; [destruct k; discriminate |].
  simpl in Hch. destruct Hch as (t & Ht & _ & _ & _ & _ & _ & Hch).
  rewrite Hfirst in Ht. injection Ht as <-.
  cbn [decoded_from] in Hd.
  rewrite (deltaTime_at_zero e Hfirst), Hfirst in Hd.
  destruct k as [| k].
  - cbn [nth_error] in Hd, Ho. injection Hd as <-. injection Ho as <-.
    cbn [time]. rewrite Hfirst. vm_compute. discriminate.
  - cbn [nth_error] in Hd, Ho.
    assert (HE : (Qabs (ticks_to_seconds (0 + 0) - 0) <= 0)%Q)
      by (vm_compute; discriminate).
    assert (H0 : (- slack <= 0)%Q) by (vm_compute; discriminate).
    pose proof (decoded_from_time l _ _ _ _ _ _ H0 Hch HE Hd Ho) as Hb.
    eapply Qle_trans; [exact Hb |]. lra.
Qed.

Lemma createTrackData_encode_from (notes : list NoteEvent) :
  Forall in_session notes ->
  createTrackData notes
  = encode_from (Finite 0) (normalizedNotes notes) ++ end_of_track.
Proof.
  intros Hall. unfold createTrackData.
  rewrite fold_left_emit_note. cbn [app].
  apply Uint8Array_bytes. apply Forall_app. split.
  - apply encode_from_bytes; [vm_compute; discriminate |].
    apply normalizedNotes_chain. exact Hall.
  - repeat constructor; unfold byte; lia.
Qed.

(** The first of the events in time order sits at the earliest time of
    the input. *)
Lemma first_is_earliest (notes sorted : list NoteEvent) (t0 : Q)
    (e0 : NoteEvent) :
  Permutation sorted notes -> Sorted by_time sorted ->
  earliest t0 notes -> nth_error sorted 0 = Some e0 ->
  (seconds (time e0) == t0)%Q.
Proof.
  intros Hperm Hs [Hmin (e & He & Heq)] H0.
  destruct sorted as [| x l]; [discriminate |].
  cbn [nth_error] in H0. injection H0 as ->.
  assert (Hin0 : In e0 notes)
    by (eapply Permutation_in; [exact Hperm | left; reflexivity]).
  assert (Hine : In e (e0 :: l))
    by (eapply Permutation_in; [symmetry; exact Hperm | exact He]).
  pose proof (Hmin e0 Hin0) as H1.
  pose proof (sorted_first_earliest e0 l Hs e Hine) as H2.
  lra.
Qed.

(** C1, as the code has it: decoding the file written by the export-mode
    encoder succeeds and gives back the notes, velocities and on/off
    flags of the events of the input in time order, events of equal time
    in the order of the input, and the time of the [k]-th decoded event
    is within [k] times (1/320 + 2^-25) s of its original, counted from
    the earliest event, for data-model events of a session of at most
    [max_seconds] and fewer than [max_events] events.  The error is half
    a tick per gap, and a last bit for the rounding of the arithmetic on
    it, and it adds up; it is not bounded by one tick. *)
Theorem roundtrip_half_tick_per_gap (notes : list NoteEvent) :
  Forall in_session notes ->
  Z.of_nat (List.length notes) < max_events ->
  roundtrip half_tick_per_gap notes.
Proof.
  intros Hall Hlen.
  pose proof (normalizedNotes_chain notes Hall) as Hch.
  pose proof (normalizedNotes_length notes) as Hl.
  pose proof (all_in_session_timed notes Hall) as Htimed.
  pose proof (sort_by_time_ordered notes Htimed) as Hord.
  exists (decoded_from 0 (Finite 0) (normalizedNotes notes)),
         (sort_by_time notes).
  split; [| split; [exact Hord | split]].
  - unfold createMidiData.
    rewrite createTrackData_encode_from by exact Hall.
    pose proof (encode_from_length (normalizedNotes notes) (Finite 0)) as Hup.
    pose proof (encode_from_covers (normalizedNotes notes) (Finite 0)) as Hlow.
    rewrite decode_midi_file.
    + unfold decode_track.
      rewrite walk_track_encode_from;
        [reflexivity | vm_compute; discriminate | exact Hch |].
      rewrite length_app. simpl. lia.
    + apply Forall_app. split.
      * apply encode_from_bytes; [vm_compute; discriminate | exact Hch].
      * repeat constructor; unfold byte; lia.
    + rewrite length_app. unfold max_events in Hlen.
      simpl List.length. lia.
  - rewrite decoded_from_key. apply normalizedNotes_key.
  - intros t0 k d o Hearly Hd Ho.
    destruct Hord as (Hperm & Hsorted & _).
    destruct (nth_error (normalizedNotes notes) k) as [o' |] eqn:Ho'.
    2:{ apply nth_error_None in Ho'.
        assert (Hk : (k < List.length (sort_by_time notes))%nat)
          by (apply nth_error_Some; congruence).
        rewrite (Permutation_length Hperm) in Hk. lia. }
    destruct (nth_error (sort_by_time notes) 0) as [e0 |] eqn:He0.
    2:{ apply nth_error_None in He0.
        assert (Hk : (k < List.length (sort_by_time notes))%nat)
          by (apply nth_error_Some; congruence).
        lia. }
    pose proof (first_is_earliest notes _ t0 e0 Hperm Hsorted Hearly He0)
      as Ht0.
    destruct (normalizedNotes_time notes k o o' e0 Hall He0 Ho Ho')
      as (u & Hu & Eu).
    assert (Hdec :
      (Qabs (seconds (time d) - seconds (time o'))
       <= inject_Z (Z.of_nat k) * gap_error)%Q).
    { apply (decoded_time_from_start (normalizedNotes notes));
        try assumption.
      destruct (normalizedNotes notes) as [| e l] eqn:Hnorm; [exact I |].
      eapply normalizedNotes_first; [exact Htimed | exact Hnorm]. }
    rewrite Hu in Hdec. cbn [seconds] in Hdec.
    destruct k as [| k].
    + (* the first event: both times are 0 *)
      rewrite He0 in Ho. injection Ho as <-.
      assert (Hd0 : time d = Finite (ticks_to_seconds 0)).
      { destruct (normalizedNotes notes) as [| e l] eqn:Hnorm;
          [discriminate |].
        cbn [decoded_from nth_error] in Hd. injection Hd as <-.
        cbn [time].
        rewrite (deltaTime_at_zero e
                   (normalizedNotes_first notes e l Htimed Hnorm)).
        reflexivity. }
      rewrite Hd0. cbn [seconds]. unfold half_tick_per_gap.
      change (inject_Z (Z.of_nat 0)) with 0%Q.
      apply Qabs_Qle_condition.
      change (ticks_to_seconds 0) with (0 # 160).
      set (x := seconds (time e0)) in *. clearbody x.
      assert (Hz : (0 # 160 == 0)%Q) by reflexivity.
      split; lra.
    + unfold half_tick_per_gap, gap_error in *.
      apply Qabs_Qle_condition in Hdec. destruct Hdec as [Hd1 Hd2].
      apply Qabs_Qle_condition in Eu. destruct Eu as [Eu1 Eu2].
      assert (Hk1 : (1 <= inject_Z (Z.of_nat (S k)))%Q).
      { change 1%Q with (inject_Z 1). rewrite <- Zle_Qle. lia. }
      apply Qabs_Qle_condition.
      set (K := inject_Z (Z.of_nat (S k))) in *.
      set (x := seconds (time d)) in *. set (y := seconds (time o)) in *.
      set (z := seconds (time e0)) in *.
      clearbody K x y z. split; lra.
Qed.

Lemma four_close_notes_in_session : Forall in_session four_close_notes.
Proof.
  unfold four_close_notes, in_session, well_formed, max_seconds.
  repeat (apply Forall_cons;
          [cbn [note velocity time seconds]; repeat split; try lia;
           [eexists; split; [reflexivity |]; split;
            [| unfold Qle; simpl; lia]
           | unfold Qle; simpl; lia] |]);
    try apply Forall_nil.
  - exists 0, 0. split; [reflexivity |]. split; [lia | reflexivity].
  - exists 1, (-6). split; [reflexivity |]. split; [lia | reflexivity].
  - exists 1, (-5). split; [reflexivity |]. split; [lia | reflexivity].
  - exists 3, (-6). split; [reflexivity |]. split; [lia | reflexivity].
Qed.

Lemma roundtrip_half_tick_per_gap_witness :
  Forall in_session four_close_notes /\
  Z.of_nat (List.length four_close_notes) < max_events /\
  roundtrip half_tick_per_gap four_close_notes.
Proof.
  split; [exact four_close_notes_in_session |].
  split; [reflexivity |].
  apply (roundtrip_half_tick_per_gap four_close_notes).
  - exact four_close_notes_in_session.
  - reflexivity.
Defined.

(** C1 as stated fails: four data-model events 1/64 s apart come back at
    ticks 0, 3, 6 and 9, and the last one is 9/160 - 3/64 = 3/320 s away
    from its original, more than one tick. *)
Lemma roundtrip_one_tick_fails :
  Forall in_session four_close_notes /\
  ~ roundtrip one_tick four_close_notes.
Proof.
  split; [exact four_close_notes_in_session |].
  intros (decoded & sorted & Hdec & (Hperm & _ & _) & Hkey & Htime).
  vm_compute in Hdec. injection Hdec as <-.
  destruct sorted as [| s0 [| s1 [| s2 [| s3 [| s4 l]]]]]; try discriminate.
  assert (Hk3 : key s3 = (65, 100, true)).
  { apply (f_equal (fun l => nth_error l 3)) in Hkey.
    cbn in Hkey. injection Hkey as H1 H2 H3.
    unfold key. congruence. }
  assert (Hin : In s3 four_close_notes).
  { eapply Permutation_in; [exact Hperm |]. right. right. right. left.
    reflexivity. }
  assert (Hs3 : time s3 = Finite (3 # 64)).
  { destruct Hin as [<- | [<- | [<- | [<- | []]]]];
      try discriminate Hk3; reflexivity. }
  assert (Hearly : earliest 0 four_close_notes).
  { split.
    - intros e [<- | [<- | [<- | [<- | []]]]];
        cbn [time seconds]; unfold Qle; simpl; lia.
    - eexists. split; [left; reflexivity | reflexivity]. }
  specialize (Htime 0%Q 3%nat _ s3 Hearly eq_refl eq_refl).
  rewrite Hs3 in Htime. vm_compute in Htime. apply Htime. reflexivity.
Qed.

End RoundTripProofs.

(** ** The playback-padded encoder (C5, C8) *)

Section Padding.
Import JS MidiRecorder Codec RoundTrip.

(** C5 at the failing input: for a note released 10 s after it was
    struck, the playback-padded encoder computes a remaining delta of -64
    ticks, passes it unclamped to [variableLengthQuantity], and writes it
    as the byte 64; the per-note deltas of the same loop are clamped by
    [Math.max(0, ...)] (see [deltaTime_nonneg]). *)
Theorem playback_remaining_ticks_negative :
  remainingTicks
    (snd (fold_left emit_note (normalizedNotes long_note)
            (variableLengthQuantity 0 ++ [144; 127; 1], Finite 0))) = -64 /\
  variableLengthQuantity (-64) = [64] /\
  createPlaybackTrackData long_note
  = [0; 144; 127; 1;  0; 144; 60; 100;  140; 64; 128; 60; 0;
     64; 128; 127; 0;  0; 255; 47; 0].
Proof. vm_compute. repeat split; reflexivity. Qed.

(** The sustain note-on is the first event of every playback-padded
    track. *)
Lemma playback_starts_with_sustain_on (notes : list NoteEvent) :
  exists rest, createPlaybackTrackData notes = [0; 144; 127; 1] ++ rest.
Proof.
  unfold createPlaybackTrackData. rewrite fold_left_emit_note.
  change (variableLengthQuantity 0 ++ [144; 127; 1]) with [0; 144; 127; 1].
  unfold Uint8Array. rewrite <- !app_assoc, map_app.
  eexists. reflexivity.
Qed.

(** C8 at the failing input: for three notes 1/64 s apart the deltas are
    0, 3, 3 and round((9.6 - 1/32) * 160) = 1531, so the sustain note-off
    lands on tick 1537, not on tick 1536; for a note released after
    10 s it lands on tick 1664. *)
Theorem playback_sustain_off_misses_target :
  createPlaybackTrackData three_close_notes
  = [0; 144; 127; 1;  0; 144; 60; 100;  3; 144; 64; 100;  3; 144; 67; 100;
     139; 123; 128; 127; 0;  0; 255; 47; 0] /\
  (exists decoded,
      decode (createPlaybackMidiData three_close_notes) = inr decoded /\
      sustain_off_time decoded = Some (Finite (1537 # 160))) /\
  (exists decoded,
      decode (createPlaybackMidiData long_note) = inr decoded /\
      sustain_off_time decoded = Some (Finite (1664 # 160))) /\
  ~ (1537 # 160 == seconds targetDuration)%Q.
Proof.
  split; [vm_compute; reflexivity |].
  split; [eexists; split; vm_compute; reflexivity |].
  split; [eexists; split; vm_compute; reflexivity |].
  vm_compute. discriminate.
Qed.

End Padding.

(** ** The recorder (C6, C7, C10) *)

Section RecorderProofs.
Import JS MidiRecorder Session.

Lemma clearAllTimers_fields (s : state) :
  isRecording (clearAllTimers s) = isRecording s /\
  recordedNotes (clearAllTimers s) = recordedNotes s /\
  wasCanceled (clearAllTimers s) = wasCanceled s /\
  silenceTimeout (clearAllTimers s) = None /\
  internalTimeout (clearAllTimers s) = None.
Proof.
  unfold clearAllTimers.
  destruct (silenceTimeout s) eqn:Hs; cbn [internalTimeout];
    destruct (internalTimeout s) eqn:Hi; cbn; auto.
Qed.

Lemma clearAllState_fields (s : state) :
  isRecording (clearAllState s) = isRecording s /\
  recordedNotes (clearAllState s) = [] /\
  wasCanceled (clearAllState s) = wasCanceled s.
Proof.
  unfold clearAllState.
  match goal with |- context [clearAllTimers ?x] =>
    destruct (clearAllTimers_fields x) as (H1 & H2 & H3 & _) end.
  rewrite H1, H2, H3. auto.
Qed.

Lemma no_events_no_blob (s : state) :
  recordedNotes s = [] ->
  convertToMidiBlob s = Throw "No notes recorded" /\
  createPlaybackMidiBlob s = Throw "No notes recorded".
Proof.
  intros Hempty. unfold convertToMidiBlob, createPlaybackMidiBlob.
  rewrite Hempty. split; reflexivity.
Qed.

(** C6: with no captured event both export entry points throw, and the
    completion they return carries no blob. *)
Theorem empty_capture_throws (s : state) :
  recordedNotes s = [] ->
  convertToMidiBlob s = Throw "No notes recorded" /\
  createPlaybackMidiBlob s = Throw "No notes recorded".
Proof. exact (no_events_no_blob s). Qed.

Lemma empty_capture_throws_witness :
  recordedNotes constructor = [] /\
  convertToMidiBlob constructor = Throw "No notes recorded" /\
  createPlaybackMidiBlob constructor = Throw "No notes recorded".
Proof.
  split; [reflexivity |].
  apply (empty_capture_throws constructor). reflexivity.
Defined.

(** An export that does not throw has events to encode. *)
Lemma export_needs_events (s : state) (b : Blob) :
  convertToMidiBlob s = Normal b \/ createPlaybackMidiBlob s = Normal b ->
  recordedNotes s <> [].
Proof.
  unfold convertToMidiBlob, createPlaybackMidiBlob.
  intros [H | H] Hempty; rewrite Hempty in H; discriminate.
Qed.

Lemma discarded_apply_op (s : state) (o : op) :
  discarded s -> discarded (apply_op s o).
Proof.
  intros (Hrec & Hnotes & Hcan). unfold discarded.
  destruct o as [n v ts on | | | id]; cbn [apply_op].
  - unfold addNote. rewrite Hrec. cbn. auto.
  - unfold stopRecording. rewrite Hrec. cbn. auto.
  - unfold cancelRecording. rewrite Hrec. cbn. auto.
  - unfold fire. destruct (find _ (timers s)); [| auto].
    cbn [isRecording]. rewrite Hrec. cbn. auto.
Qed.

Lemma discarded_after (ops : list op) :
  forall s, discarded s -> discarded (after ops s).
Proof.
  unfold after. induction ops as [| o ops IH]; intros s Hs; [exact Hs |].
  simpl. apply IH. apply discarded_apply_op. exact Hs.
Qed.

Lemma cancelRecording_discards (s : state) :
  isRecording s = true -> discarded (fst (cancelRecording s)).
Proof.
  intros Hrec. unfold cancelRecording. rewrite Hrec. cbn [negb fst].
  match goal with |- discarded (clearAllState ?x) =>
    destruct (clearAllState_fields x) as (H1 & H2 & H3);
    destruct (clearAllTimers_fields x) as (H4 & _ & H5 & _) end.
  unfold discarded. rewrite H1, H2, H3.
  match goal with |- context [clearAllTimers ?y] =>
    destruct (clearAllTimers_fields y) as (H6 & _ & H7 & _) end.
  rewrite H6, H7. cbn. auto.
Qed.

(** C7: after [cancelRecording()] on an active session, and after any
    further notes, stops, cancels and timer firings, the recorder holds
    no event, [stopRecording()] returns nothing, and both exports throw
    instead of encoding. *)
Theorem cancel_discards_events (s : state) (ops : list op) :
  isRecording s = true ->
  let s' := after ops (fst (cancelRecording s)) in
  recordedNotes s' = [] /\
  wasCanceled s' = true /\
  stopRecording s' = (s', None) /\
  convertToMidiBlob s' = Throw "No notes recorded" /\
  createPlaybackMidiBlob s' = Throw "No notes recorded".
Proof.
  intros Hrec s'.
  assert (Hd : discarded s')
    by (apply discarded_after, cancelRecording_discards; exact Hrec).
  destruct Hd as (Hidle & Hnotes & Hcan).
  repeat split; try assumption.
  - unfold stopRecording. rewrite Hidle. reflexivity.
  - apply no_events_no_blob; assumption.
  - apply no_events_no_blob; assumption.
Qed.

Lemma cancel_discards_events_witness :
  isRecording recording = true /\
  recordedNotes recording <> [] /\
  let s' := after [AddNote 62 90 1500 true; StopRecording]
              (fst (cancelRecording recording)) in
  recordedNotes s' = [] /\
  wasCanceled s' = true /\
  stopRecording s' = (s', None) /\
  convertToMidiBlob s' = Throw "No notes recorded" /\
  createPlaybackMidiBlob s' = Throw "No notes recorded".
Proof.
  split; [reflexivity |].
  split; [discriminate |].
  apply (cancel_discards_events recording
           [AddNote 62 90 1500 true; StopRecording]).
  reflexivity.
Defined.

(** C10: [cancelRecording()] on an idle recorder changes nothing and
    returns nothing; in particular, after [stopRecording()] has ended a
    session, a cancel attempt leaves the captured events and the canceled
    flag as they were, and the export still encodes those events. *)
Theorem cancel_when_idle_keeps_events (s : state) :
  (isRecording s = false -> cancelRecording s = (s, None)) /\
  (isRecording s = true ->
   let s1 := fst (stopRecording s) in
   snd (stopRecording s) = Some (recordedNotes s) /\
   cancelRecording s1 = (s1, None) /\
   recordedNotes (fst (cancelRecording s1)) = recordedNotes s /\
   wasCanceled (fst (cancelRecording s1)) = wasCanceled s /\
   (recordedNotes s <> [] ->
    convertToMidiBlob (fst (cancelRecording s1))
    = Normal {| blob_bytes := createMidiData (recordedNotes s);
                blob_type := "audio/midi" |})).
Proof.
  split.
  - intros Hidle. unfold cancelRecording. rewrite Hidle. reflexivity.
  - intros Hrec s1. subst s1. unfold stopRecording. rewrite Hrec.
    cbn [negb fst snd].
    match goal with |- context [clearAllTimers ?x] =>
      destruct (clearAllTimers_fields x) as (H1 & H2 & H3 & _);
      set (s1 := clearAllTimers x) in * end.
    cbn in H1, H2, H3.
    assert (Hc : cancelRecording s1 = (s1, None))
      by (unfold cancelRecording; rewrite H1; reflexivity).
    rewrite Hc. cbn [fst]. repeat split; try assumption.
    + f_equal. exact H2.
    + intros Hne. unfold convertToMidiBlob. rewrite H2.
      destruct (recordedNotes s); [contradiction | reflexivity].
Qed.

Lemma cancel_when_idle_keeps_events_witness :
  isRecording constructor = false /\
  cancelRecording constructor = (constructor, None) /\
  isRecording recording = true /\
  recordedNotes recording <> [] /\
  let s1 := fst (stopRecording recording) in
  cancelRecording s1 = (s1, None) /\
  recordedNotes (fst (cancelRecording s1)) = recordedNotes recording.
Proof.
  split; [reflexivity |].
  split; [apply (proj1 (cancel_when_idle_keeps_events constructor)); reflexivity |].
  split; [reflexivity |].
  split; [discriminate |].
  pose proof (proj2 (cancel_when_idle_keeps_events recording) eq_refl) as H.
  cbv zeta in H. destruct H as (_ & H2 & H3 & _).
  split; [exact H2 | exact H3].
Defined.

End RecorderProofs.

(** ** The player (C2, C9) *)

Section PlayerProofs.
Import JS PrecisionMIDIPlayer Playback.

(** [Math.min] of two finite numbers is finite and at most the second. *)
Lemma Math_min_le_r (a b : Q) :
  exists u, Math_min (Finite a) (Finite b) = Finite u /\ (u <= b)%Q.
Proof.
  cbn [Math_min flt].
  destruct (Qle_bool a b) eqn:Hle; cbn [negb].
  - exists a. split; [reflexivity |]. apply Qle_bool_iff. exact Hle.
  - exists b. split; [reflexivity | apply Qle_refl].
Qed.

(** The clamp [duration - note.time] of a note that starts before a
    finite [d]: the rounded distance to [d]. *)
Lemma clamp_error (s d : Q) :
  binary64 s -> binary64 d -> (0 <= s)%Q -> (s < d)%Q ->
  exists v,
    fsub (Finite d) (Finite s) = Finite v /\ (v <= d - s + rounding d s)%Q.
Proof.
  intros Hs Hd H0 Hlt. unfold fsub, fneg, fadd, rounding.
  pose proof (binary64_bound d Hd) as Hmax.
  pose proof (pow2_pos (-53)) as Hz. pose proof (pow2_pos 918) as HW.
  assert (HU : (2 ^ 1024 * 2 ^ (-53) == 2 ^ 971)%Q)
    by (rewrite <- pow2_add; reflexivity).
  assert (HV : (2 ^ 971 * 2 ^ (-53) == 2 ^ 918)%Q)
    by (rewrite <- pow2_add; reflexivity).
  destruct (round64_on_grid (d + - s)) as (v & Hv & _ & Ev).
  - apply (on_grid_sub d s); apply binary64_on_grid; assumption.
  - lra.
  - set (T := (2 ^ 1024)%Q) in *. set (U := (2 ^ 971)%Q) in *.
    set (W := (2 ^ 918)%Q) in *. set (z := (2 ^ (-53))%Q) in *.
    clearbody T U W z.
    assert (Hprod : (0 <= (T - U - (d + - s)) * (1 + z))%Q).
    { apply Qmult_le_0_compat; lra. }
    nra.
  - exists v. split; [exact Hv |].
    apply Qabs_Qle_condition in Ev. destruct Ev as [_ Ev].
    set (z := (2 ^ (-53))%Q) in *. clearbody z. lra.
Qed.

Lemma triggers_app (a b : list scheduled) :
  triggers (a ++ b) = triggers a ++ triggers b.
Proof. unfold triggers. apply flat_map_app. Qed.

Lemma transport_clear_all (ids : list nat) :
  forall tl,
    (forall e, In e tl -> In (event_id e) ids) ->
    fold_left (fun tl id => transport_clear id tl) ids tl = [].
Proof.
  induction ids as [| id ids IH]; intros tl Hin.
  - destruct tl as [| e tl]; [reflexivity |].
    destruct (Hin e (or_introl eq_refl)).
  - simpl. apply IH. intros e He. unfold transport_clear in He.
    apply filter_In in He. destruct He as [He Hne].
    destruct (Hin e He) as [Heq | Hrest]; [| exact Hrest].
    subst id. rewrite Nat.eqb_refl in Hne. discriminate.
Qed.

(** [stop()] on a consistent player leaves nothing on the timeline. *)
Lemma stop_clears_timeline (p : state) :
  consistent p -> timeline (stop p) = [] /\ isPlaying (stop p) = false.
Proof.
  intros [Hplay Hidle]. unfold stop.
  destruct (isPlaying p) eqn:Hp.
  - cbn. split; [| reflexivity].
    apply transport_clear_all. apply Hplay. reflexivity.
  - split; [apply Hidle; reflexivity | exact Hp].
Qed.

(** One pass of the loop over the notes: the timeline and the remembered
    identifiers grow together, by the triggers of the notes before [d]. *)
Lemma schedule_notes_spec (d : number) (l : list MidiNote) :
  forall p,
    let p' := fold_left (schedule_note d) l p in
    exists added,
      timeline p' = timeline p ++ added /\
      scheduledEvents p' = scheduledEvents p ++ map event_id added /\
      triggers added = note_triggers d l /\
      (forall e, In e added -> event_action e <> ForcedStop) /\
      isPlaying p' = isPlaying p.
Proof.
  induction l as [| n l IH]; intros p; cbn [fold_left].
  - exists []. cbn. rewrite !app_nil_r. repeat split; auto.
  - destruct (IH (schedule_note d p n)) as (added & Ht & Hs & Htr & Hns & Hp).
    unfold schedule_note in *. cbn [note_triggers flat_map].
    destruct (flt (note_time n) d) eqn:Hlt.
    + eexists (_ :: added).
      cbn [schedule_push timeline scheduledEvents isPlaying] in *.
      rewrite Ht, Hs, <- !app_assoc. cbn [app map event_id].
      repeat split; auto.
      * cbn [triggers flat_map event_action event_time app].
        f_equal. exact Htr.
      * intros e [<- | He]; [discriminate | apply Hns; exact He].
    + exists added. repeat split; auto.
Qed.

Lemma note_triggers_app (d : number) (a b : list MidiNote) :
  note_triggers d (a ++ b) = note_triggers d a ++ note_triggers d b.
Proof. unfold note_triggers. apply flat_map_app. Qed.

Lemma schedule_tracks_spec (d : number) (ts : list Track) :
  forall p,
    let p' := fold_left
                (fun p1 track => fold_left (schedule_note d) (notes track) p1)
                ts p in
    exists added,
      timeline p' = timeline p ++ added /\
      scheduledEvents p' = scheduledEvents p ++ map event_id added /\
      triggers added = note_triggers d (flat_map notes ts) /\
      (forall e, In e added -> event_action e <> ForcedStop) /\
      isPlaying p' = isPlaying p.
Proof.
  induction ts as [| t ts IH]; intros p; cbn [fold_left].
  - exists []. cbn. rewrite !app_nil_r. repeat split; auto.
  - destruct (schedule_notes_spec d (notes t) p)
      as (a1 & Ht1 & Hs1 & Htr1 & Hns1 & Hp1).
    destruct (IH (fold_left (schedule_note d) (notes t) p))
      as (a2 & Ht2 & Hs2 & Htr2 & Hns2 & Hp2).
    exists (a1 ++ a2). cbv zeta in *.
    rewrite Ht2, Hs2, Ht1, Hs1, Hp2, Hp1, <- !app_assoc, map_app.
    repeat split; auto.
    + rewrite triggers_app, Htr1, Htr2. cbn [flat_map].
      rewrite note_triggers_app. reflexivity.
    + intros e He. apply in_app_or in He.
      destruct He; [apply Hns1 | apply Hns2]; assumption.
Qed.

(** A scheduled note of a playable file starts before [d] and ends by
    [d], up to the rounding of its clamp. *)
Lemma note_triggers_bound (d : Q) (l : list MidiNote)
    (start sustain : number) :
  binary64 d -> Forall playable l ->
  In (start, sustain) (note_triggers (Finite d) l) ->
  exists s u,
    start = Finite s /\ sustain = Finite u /\
    (s < d)%Q /\ (s + u <= d + rounding d s)%Q.
Proof.
  unfold note_triggers. intros Hd Hall Hin. apply in_flat_map in Hin.
  destruct Hin as (n & Hn & Hin).
  rewrite Forall_forall in Hall.
  destruct (Hall n Hn) as [(s & Hs & Hbs & H0) (w & Hw)].
  rewrite Hs, Hw in Hin. cbn [flt] in Hin.
  destruct (Qle_bool d s) eqn:Hle; cbn [negb] in Hin; [destruct Hin |].
  assert (Hlt : (s < d)%Q).
  { destruct (Qlt_le_dec s d) as [H | H]; [exact H |].
    apply Qle_bool_iff in H. congruence. }
  destruct (clamp_error s d Hbs Hd H0 Hlt) as (v & Hv & Ev).
  rewrite Hv in Hin.
  destruct (Math_min_le_r w v) as (u & Hu & Eu). rewrite Hu in Hin.
  destruct Hin as [Heq | []]. injection Heq as <- <-.
  exists s, u. repeat split; try assumption.
  unfold rounding in *. set (z := (2 ^ (-53))%Q) in *. clearbody z. lra.
Qed.

(** What a successful load leaves behind. *)
Lemma load_success (fromUrl : string -> completion Midi) (url : string)
    (midi : Midi) (forced : option number) (p : state) :
  consistent p -> fromUrl url = Normal midi ->
  let d := effective_duration forced p in
  exists p' id added,
    loadAndPlayWithDuration fromUrl url forced p = (Normal true, p') /\
    timeline p'
    = {| event_id := id; event_time := d; event_action := ForcedStop |}
        :: added /\
    triggers added = note_triggers d (all_notes midi) /\
    (forall e, In e added -> event_action e <> ForcedStop) /\
    isPlaying p' = true /\ transport p' = Started /\ tracked p' /\
    currentMidiData p' = Some midi.
Proof.
  intros Hcons Hurl d. unfold loadAndPlayWithDuration. rewrite Hurl.
  change (effective_duration forced (init p)) with d.
  set (p1 := {| synth := synth (init p);
                forcedDuration := forcedDuration (init p);
                isPlaying := isPlaying (init p);
                currentMidiData := Some midi;
                scheduledEvents := scheduledEvents (init p);
                transport := transport (init p);
                timeline := timeline (init p);
                next_event := next_event (init p);
                status_text := status_text (init p) |}).
  assert (Hc1 : consistent p1) by exact Hcons.
  destruct (stop_clears_timeline p1 Hc1) as [Htl Hpl].
  assert (Hse : scheduledEvents (stop p1) = [] \/ isPlaying p1 = false).
  { unfold stop. destruct (isPlaying p1); [left; reflexivity | right; reflexivity]. }
  assert (Hmd : currentMidiData (stop p1) = Some midi).
  { unfold stop. destruct (isPlaying p1); reflexivity. }
  unfold schedule_tracks.
  assert (Hkeep : forall ts q,
             currentMidiData
               (fold_left
                  (fun p1 track =>
                     fold_left (schedule_note d) (notes track) p1) ts q)
             = currentMidiData q).
  { induction ts as [| t ts IHts]; intros q; [reflexivity |].
    cbn [fold_left]. rewrite IHts.
    generalize q. induction (notes t) as [| n ns IHn]; intros q0;
      [reflexivity |].
    cbn [fold_left]. rewrite IHn. unfold schedule_note.
    destruct (flt (note_time n) d); reflexivity. }
  destruct (schedule_tracks_spec d (tracks midi)
              (schedule_push ForcedStop d (stop p1)))
    as (added & Ht & Hs & Htr & Hns & Hp).
  cbv zeta in Ht, Hs, Htr, Hns, Hp.
  cbn [schedule_push timeline scheduledEvents] in Ht, Hs.
  rewrite Htl in Ht. cbn [app] in Ht.
  eexists _, (next_event (stop p1)), added.
  split; [reflexivity |].
  cbn [updatePlaybackStatus timeline isPlaying transport currentMidiData].
  split; [exact Ht |]. split; [exact Htr |]. split; [exact Hns |].
  split; [reflexivity |]. split; [reflexivity |].
  split.
  - unfold tracked. cbn [updatePlaybackStatus timeline scheduledEvents].
    rewrite Ht, Hs. intros e [<- | He].
    + apply in_or_app. left. apply in_or_app. right. left. reflexivity.
    + apply in_or_app. right. apply in_map. exact He.
  - rewrite Hkeep. cbn [schedule_push currentMidiData]. exact Hmd.
Qed.

End PlayerProofs.

Section ForcedDuration.
Import JS PrecisionMIDIPlayer Playback.

Lemma constructor_consistent : consistent constructor.
Proof. split; intros H; [discriminate H | reflexivity]. Qed.

(** C2, as the code has it: a successful load of a playable file honors
    the effective duration, which is [forcedDuration] when that is given
    and truthy, and the player's default of 9.6 s when it is 0, [NaN] or
    omitted: every note trigger starts before it and ends by it up to the
    rounding of the clamp, and one stop event sits at exactly it. *)
Theorem forced_duration_honored (fromUrl : string -> completion Midi)
    (url : string) (midi : Midi) (forced : option number) (p : state)
    (d : Q) :
  consistent p -> fromUrl url = Normal midi ->
  Forall playable (all_notes midi) ->
  effective_duration forced p = Finite d -> binary64 d ->
  (exists p',
      loadAndPlayWithDuration fromUrl url forced p = (Normal true, p') /\
      honors d p' /\
      triggers (timeline p')
      = note_triggers (Finite d) (all_notes midi)) /\
  (forall x, forced = Some x -> truthy x = true ->
             effective_duration forced p = x) /\
  (forall x, forced = Some x -> truthy x = false ->
             effective_duration forced p = forcedDuration p) /\
  (forced = None -> effective_duration forced p = forcedDuration p).
Proof.
  intros Hcons Hurl Hplayable Heff Hd. split; [| split; [| split]].
  - destruct (load_success fromUrl url midi forced p Hcons Hurl)
      as (p' & id & added & Hload & Htl & Htr & Hns & Hplay & Hst & Htracked
          & _).
    cbv zeta in Hload, Htl, Htr. rewrite Heff in Htl, Htr.
    exists p'. split; [exact Hload |].
    assert (Htrig : triggers (timeline p')
                    = note_triggers (Finite d) (all_notes midi)).
    { rewrite Htl. change (?e :: added) with ([e] ++ added).
      rewrite triggers_app. exact Htr. }
    split; [| exact Htrig].
    unfold honors, stops_at. rewrite Htrig.
    split; [intros start sustain;
            apply note_triggers_bound; assumption |].
    split; [exists id; rewrite Htl; left; reflexivity |].
    split.
    { intros e He Hstop. rewrite Htl in He. destruct He as [<- | He].
      - reflexivity.
      - destruct (Hns e He Hstop). }
    cbn [run_action]. unfold stop. rewrite Hplay. cbn.
    repeat split. apply transport_clear_all. exact Htracked.
  - intros x -> Hx. cbn [effective_duration]. rewrite Hx. reflexivity.
  - intros x -> Hx. cbn [effective_duration]. rewrite Hx. reflexivity.
  - intros ->. reflexivity.
Qed.

Lemma one_note_playable : Forall playable (all_notes one_note).
Proof.
  repeat constructor.
  - exists 1%Q. split; [reflexivity |]. split; [| discriminate].
    exists 1, 0. split; [reflexivity |]. split; [lia | reflexivity].
  - exists 1%Q. reflexivity.
Qed.

Lemma forced_duration_honored_witness :
  consistent constructor /\
  Forall playable (all_notes one_note) /\
  binary64 2 /\
  (exists p',
      loadAndPlayWithDuration (fun _ => Normal one_note) "take.mid"
        (Some (Finite 2)) constructor = (Normal true, p') /\
      honors 2 p').
Proof.
  assert (H2 : binary64 2).
  { exists 1, 1. split; [reflexivity |]. split; [lia | reflexivity]. }
  split; [exact constructor_consistent |].
  split; [exact one_note_playable |].
  split; [exact H2 |].
  destruct (forced_duration_honored (fun _ => Normal one_note) "take.mid"
              one_note (Some (Finite 2)) constructor 2
              constructor_consistent eq_refl one_note_playable eq_refl H2)
    as ((p' & Hload & Hhon & _) & _).
  exists p'. split; [exact Hload | exact Hhon].
Defined.

Lemma held_note_playable : Forall playable (all_notes held_note).
Proof.
  repeat constructor.
  - eexists. split; [vm_compute; reflexivity |]. split; [| discriminate].
    exists 799388933858263, (-50).
    split; [reflexivity |]. split; [lia | reflexivity].
  - exists 10%Q. reflexivity.
Qed.

(** C2 as stated fails twice.  For a forced duration of 0 the falsy 0
    selects the default 9.6 s, and the note starting at 1 s is scheduled
    although it starts after the requested duration.  And for a playable
    note held from 0.71 s for 10 s under the duration 9.6 the clamp
    9.6 - 0.71 is rounded up, to 8.8900000000000006, and the note ends
    after 9.6. *)
Lemma forced_duration_not_honored :
  ~ honors_exactly 0
      (snd (loadAndPlayWithDuration (fun _ => Normal one_note) "take.mid"
              (Some (Finite 0)) constructor)) /\
  Forall playable (all_notes held_note) /\
  ~ honors_exactly default_duration
      (snd (loadAndPlayWithDuration (fun _ => Normal held_note) "take.mid"
              (Some (lit (96 # 10))) constructor)).
Proof.
  split; [| split; [exact held_note_playable |]].
  - intros (Hnotes & _).
    destruct (Hnotes (Finite 1) (Finite 1))
      as (s & u & Hs & Hu & Hlt & _).
    + vm_compute. left. reflexivity.
    + injection Hs as <-. vm_compute in Hlt. discriminate Hlt.
  - intros (Hnotes & _).
    destruct (Hnotes (lit (71 # 100))
                (Finite (625578135739433 # 70368744177664)))
      as (s & u & Hs & Hu & _ & Hle).
    + vm_compute. left. reflexivity.
    + vm_compute in Hs. injection Hs as <-. injection Hu as <-.
      vm_compute in Hle. apply Hle. reflexivity.
Qed.

(** The decoder rejects every malformed source. *)
Lemma decode_rejects_malformed (file : list Z) :
  malformed file -> Codec.decode file = inl Codec.MalformedFileError.
Proof.
  intros Hm. unfold Codec.decode.
  destruct (Codec.bytes_eqb (firstn 4 file) Codec.MThd) eqn:H1;
    cbn [negb]; [| reflexivity].
  destruct (Codec.big_endian (firstn 4 (skipn 4 file)) =? 6) eqn:H2;
    cbn [negb]; [| reflexivity].
  destruct (Nat.ltb (List.length file) 14) eqn:H3; [reflexivity |].
  destruct (Codec.bytes_eqb (firstn 4 (skipn 14 file)) Codec.MTrk) eqn:H4;
    cbn [negb]; [| reflexivity].
  destruct (Nat.ltb (List.length (skipn 14 file)) 8) eqn:H5; [reflexivity |].
  cbv zeta. rewrite !skipn_skipn. cbn [Nat.add].
  destruct (Z.of_nat (List.length (skipn 22 file))
            <? Codec.big_endian (firstn 4 (skipn 18 file))) eqn:H6;
    [reflexivity |].
  exfalso.
  unfold Codec.bytes_eqb in H1, H4.
  destruct (list_eq_dec Z.eq_dec (firstn 4 file) Codec.MThd)
    as [E1 | E1]; [| discriminate].
  destruct (list_eq_dec Z.eq_dec (firstn 4 (skipn 14 file)) Codec.MTrk)
    as [E4 | E4]; [| discriminate].
  apply Z.eqb_eq in H2. apply Nat.ltb_ge in H3, H5. apply Z.ltb_ge in H6.
  rewrite length_skipn in H5.
  destruct Hm as [| file E | file E | file E | file E | file E];
    try contradiction; try discriminate; lia.
Qed.

(** C9, as the code has it.  The decoder rejects the empty source and
    every malformed one.  When the decoder rejects the source, the
    MalformedFileError that the load raises is caught inside
    [loadAndPlayWithDuration], which returns [false] to its caller:
    nothing of the source reaches the player, whose schedule, transport,
    playing flag and file are as before the call.  When the decoder
    accepts the source, the file handed to the player is assembled from
    all its events, and the load returns [true]. *)
Theorem malformed_source_is_caught (fetch : string -> list Z)
    (assemble : list NoteEvent -> Midi) (url : string)
    (forced : option number) (p : state) :
  (malformed (fetch url) ->
   Codec.decode (fetch url) = inl Codec.MalformedFileError) /\
  (Codec.decode (fetch url) = inl Codec.MalformedFileError ->
   fromUrl fetch assemble url = Throw "MalformedFileError" /\
   loadAndPlayWithDuration (fromUrl fetch assemble) url forced p
   = (Normal false, init p) /\
   untouched p (init p)) /\
  (forall events,
      consistent p -> Codec.decode (fetch url) = inr events ->
      exists p',
        loadAndPlayWithDuration (fromUrl fetch assemble) url forced p
        = (Normal true, p') /\
        currentMidiData p' = Some (assemble events) /\
        triggers (timeline p')
        = note_triggers (effective_duration forced p)
            (all_notes (assemble events))).
Proof.
  split; [apply decode_rejects_malformed | split].
  - intros Hdec.
    assert (Hurl : fromUrl fetch assemble url = Throw "MalformedFileError")
      by (unfold fromUrl; rewrite Hdec; reflexivity).
    split; [exact Hurl |].
    unfold loadAndPlayWithDuration. rewrite Hurl.
    split; [reflexivity | repeat split].
  - intros events Hcons Hdec.
    assert (Hurl : fromUrl fetch assemble url = Normal (assemble events))
      by (unfold fromUrl; rewrite Hdec; reflexivity).
    destruct (load_success (fromUrl fetch assemble) url (assemble events)
                forced p Hcons Hurl)
      as (p' & id & added & Hload & Htl & Htr & _ & _ & _ & _ & Hmd).
    cbv zeta in Hload, Htl, Htr.
    exists p'. split; [exact Hload |]. split; [exact Hmd |].
    rewrite Htl. change (?e :: added) with ([e] ++ added).
    rewrite triggers_app. exact Htr.
Qed.

Lemma cut_short_malformed : malformed cut_short.
Proof. apply TruncatedTrack. vm_compute. reflexivity. Qed.

Lemma malformed_source_is_caught_witness :
  malformed [] /\ malformed cut_short /\
  loadAndPlayWithDuration (fromUrl (fun _ => []) no_notes) "empty.mid"
    None constructor
  = (Normal false, init constructor) /\
  loadAndPlayWithDuration (fromUrl (fun _ => cut_short) no_notes) "cut.mid"
    None constructor
  = (Normal false, init constructor).
Proof.
  split; [exact EmptySource |]. split; [exact cut_short_malformed |].
  split.
  - destruct (malformed_source_is_caught (fun _ => []) no_notes "empty.mid"
                None constructor) as (Hrej & Hcaught & _).
    apply Hcaught, Hrej. exact EmptySource.
  - destruct (malformed_source_is_caught (fun _ => cut_short) no_notes
                "cut.mid" None constructor) as (Hrej & Hcaught & _).
    apply Hcaught, Hrej. exact cut_short_malformed.
Defined.

(** C9 as stated fails: the load of the empty source, which the decoder
    rejects with a MalformedFileError, returns [false]; nothing is raised
    to the caller. *)
Lemma load_empty_source_does_not_raise :
  Codec.decode [] = inl Codec.MalformedFileError /\
  fst (loadAndPlayWithDuration (fromUrl (fun _ => []) no_notes) "empty.mid"
         None constructor)
  = Normal false /\
  fst (loadAndPlayWithDuration (fromUrl (fun _ => []) no_notes) "empty.mid"
         None constructor)
  <> Throw "MalformedFileError".
Proof. repeat split. discriminate. Qed.

(** The calls of the player keep it consistent: consistency holds of the
    constructed player and of every state reached from it. *)
Lemma stop_consistent (p : state) : consistent p -> consistent (stop p).
Proof.
  intros Hp. destruct (stop_clears_timeline p Hp) as [Htl Hpl].
  split; intros H; [congruence | exact Htl].
Qed.

Lemma load_consistent (fromUrl : string -> completion Midi) (url : string)
    (forced : option number) (p : state) :
  consistent p ->
  consistent (snd (loadAndPlayWithDuration fromUrl url forced p)).
Proof.
  intros Hp. destruct (fromUrl url) as [midi | msg] eqn:Hurl.
  - destruct (load_success fromUrl url midi forced p Hp Hurl)
      as (p' & id & added & Hload & _ & _ & _ & Hplay & _ & Htracked & _).
    rewrite Hload. cbn [snd]. split; intros H; [exact Htracked | congruence].
  - unfold loadAndPlayWithDuration. rewrite Hurl. exact Hp.
Qed.

Lemma player_stop_idempotent (p : state) : stop (stop p) = stop p.
Proof.
  unfold stop. destruct (isPlaying p) eqn:Hp; cbn.
  - reflexivity.
  - rewrite Hp. reflexivity.
Qed.

End ForcedDuration.

(** ** The metronome (C3, C4) *)

Section MetronomeProofs.
Import JS Metronome CountIn.

(** Reads a field through the assignments made before it. *)
Ltac fields :=
  cbn [isPlaying bpm beatCount isCountingIn countInBeat recordingStarted
       audioContext intervalId nextNoteTime lookahead scheduleAheadTime
       timers next_timer clicks dom captures
       with_beatCount with_countInBeat with_isCountingIn
       with_recordingStarted with_isPlaying with_intervalId
       with_nextNoteTime with_timers with_next_timer with_clicks with_dom
       with_captures setTimeout playClick fst snd] in *.

Lemma stop_isPlaying (m : state) : isPlaying (stop m) = false.
Proof.
  unfold stop. destruct (isPlaying m) eqn:Hp; [| exact Hp].
  cbv zeta. fields.
  destruct (intervalId m); fields; destruct (dom m); fields; reflexivity.
Qed.

Lemma stop_when_stopped (m : state) : isPlaying m = false -> stop m = m.
Proof. unfold stop. intros ->. reflexivity. Qed.

Lemma metronome_stop_idempotent (m : state) : stop (stop m) = stop m.
Proof. apply stop_when_stopped, stop_isPlaying. Qed.

Lemma updateVisualIndicator_fields (b : Z) (c : bool) (m : state) :
  isPlaying (updateVisualIndicator b c m) = isPlaying m /\
  bpm (updateVisualIndicator b c m) = bpm m /\
  beatCount (updateVisualIndicator b c m) = beatCount m /\
  isCountingIn (updateVisualIndicator b c m) = isCountingIn m /\
  countInBeat (updateVisualIndicator b c m) = countInBeat m /\
  recordingStarted (updateVisualIndicator b c m) = recordingStarted m /\
  intervalId (updateVisualIndicator b c m) = intervalId m /\
  nextNoteTime (updateVisualIndicator b c m) = nextNoteTime m /\
  scheduleAheadTime (updateVisualIndicator b c m) = scheduleAheadTime m /\
  clicks (updateVisualIndicator b c m) = clicks m /\
  captures (updateVisualIndicator b c m) = captures m /\
  exists added,
    timers (updateVisualIndicator b c m) = timers m ++ added /\
    forall t, In t added -> timer_callback t = ClearBeatCircle.
Proof.
  unfold updateVisualIndicator. destruct (dom m); fields.
  - repeat split. eexists. split; [reflexivity |].
    intros t [<- | []]. reflexivity.
  - repeat split. exists []. rewrite app_nil_r. split; [reflexivity |].
    intros t [].
Qed.

(** What one round of the scheduling loop does to the fields. *)
Lemma beat_fields (m : state) :
  isPlaying (beat m) = isPlaying m /\
  intervalId (beat m) = intervalId m /\
  captures (beat m) = captures m /\
  bpm (beat m) = bpm m /\
  scheduleAheadTime (beat m) = scheduleAheadTime m /\
  nextNoteTime (beat m) = fadd (nextNoteTime m) (fdiv 60 (bpm m)) /\
  clicks (beat m) = clicks m ++ [(nextNoteTime m, isCountingIn m)] /\
  (exists added,
      timers (beat m) = timers m ++ added /\
      (forall t, In t added ->
                 is_scheduler t = false /\ is_capture t = false /\
                 (is_handoff t = true ->
                  isCountingIn m = true /\ 4 <= countInBeat m + 1)) /\
      List.length (filter is_handoff added)
      = if isCountingIn m && (4 <=? countInBeat m + 1) then 1%nat else 0%nat).
Proof.
  unfold beat, nextNote. cbv zeta. fields.
  destruct (isCountingIn m) eqn:Hc.
  - match goal with |- context [updateVisualIndicator ?b ?c ?x] =>
      destruct (updateVisualIndicator_fields b c x)
        as (H1 & H2 & H3 & H4 & H5 & H6 & H7 & H8 & H9 & H10 & H11
            & added & Hadd & Hcb);
      set (m3 := updateVisualIndicator b c x) in *
    end.
    fields. rewrite H5.
    assert (Hvis : forall t, In t added ->
              is_scheduler t = false /\ is_capture t = false /\
              is_handoff t = false).
    { intros t Ht. unfold is_scheduler, is_capture, is_handoff.
      rewrite (Hcb t Ht). auto. }
    assert (Hnone : List.length (filter is_handoff added) = 0%nat).
    { clear - Hvis. induction added as [| t l IH]; [reflexivity |].
      cbn. destruct (Hvis t (or_introl eq_refl)) as (_ & _ & ->).
      apply IH. intros x Hx. apply Hvis. right. exact Hx. }
    destruct (4 <=? countInBeat m + 1) eqn:H4'; fields;
      rewrite ?H1, ?H2, ?H7, ?H8, ?H9, ?H10, ?H11, ?Hadd.
    + repeat split. eexists. rewrite <- app_assoc.
      split; [reflexivity |]. split.
      * intros t Ht. apply in_app_or in Ht.
        destruct Ht as [Ht | [<- | []]].
        -- destruct (Hvis t Ht) as (Hs & Hcap & Hh).
           split; [exact Hs | split; [exact Hcap |]].
           intros Habs. rewrite Hh in Habs. discriminate.
        -- split; [reflexivity | split; [reflexivity |]].
           intros _. split; [reflexivity | apply Z.leb_le; exact H4'].
      * rewrite filter_app, length_app, Hnone. reflexivity.
    + repeat split. exists added. split; [reflexivity |]. split.
      * intros t Ht. destruct (Hvis t Ht) as (Hs & Hcap & Hh).
        split; [exact Hs | split; [exact Hcap |]].
        intros Habs. rewrite Hh in Habs. discriminate.
      * exact Hnone.
  - match goal with |- context [updateVisualIndicator ?b ?c ?x] =>
      destruct (updateVisualIndicator_fields b c x)
        as (H1 & H2 & H3 & H4 & H5 & H6 & H7 & H8 & H9 & H10 & H11
            & added & Hadd & Hcb);
      set (m3 := updateVisualIndicator b c x) in *
    end.
    fields. rewrite ?H1, ?H2, ?H7, ?H8, ?H9, ?H10, ?H11, ?Hadd.
    assert (Hvis : forall t, In t added ->
              is_scheduler t = false /\ is_capture t = false /\
              is_handoff t = false).
    { intros t Ht. unfold is_scheduler, is_capture, is_handoff.
      rewrite (Hcb t Ht). auto. }
    repeat split. exists added. split; [reflexivity |]. split.
    + intros t Ht. destruct (Hvis t Ht) as (Hs & Hcap & Hh).
      split; [exact Hs | split; [exact Hcap |]].
      intros Habs. rewrite Hh in Habs. discriminate.
    + clear - Hvis. induction added as [| t l IH]; [reflexivity |].
      cbn. destruct (Hvis t (or_introl eq_refl)) as (_ & _ & ->).
      apply IH. intros x Hx. apply Hvis. right. exact Hx.
Qed.

Lemma beat_count_in_clicks (m : state) :
  count_in_clicks (beat m)
  = (count_in_clicks m + if isCountingIn m then 1 else 0)%nat.
Proof.
  destruct (beat_fields m) as (_ & _ & _ & _ & _ & _ & Hclicks & _).
  unfold count_in_clicks. rewrite Hclicks, filter_app, length_app.
  cbn. destruct (isCountingIn m); reflexivity.
Qed.



Lemma beat_after_counting (m : state) :
  isCountingIn m = false ->
  countInBeat (beat m) = countInBeat m /\
  isCountingIn (beat m) = false /\
  beatCount (beat m) = beatCount m + 1.
Proof.
  intros Hc. unfold beat, nextNote. cbv zeta. fields. rewrite Hc.
  match goal with |- context [updateVisualIndicator ?b ?c ?x] =>
    destruct (updateVisualIndicator_fields b c x)
      as (H1 & H2 & H3 & H4 & H5 & H6 & _);
    set (m3 := updateVisualIndicator b c x) in *
  end.
  fields. rewrite H3, H4, H5, Hc. auto.
Qed.

Lemma beat_none_pending_scheduler (m : state) :
  none_pending is_scheduler m -> none_pending is_scheduler (beat m).
Proof.
  intros Hnone t Ht.
  destruct (beat_fields m)
    as (_ & _ & _ & _ & _ & _ & _ & added & Htm & Hadd & _).
  rewrite Htm in Ht. apply in_app_or in Ht. destruct Ht as [Ht | Ht].
  - apply Hnone. exact Ht.
  - apply Hadd. exact Ht.
Qed.

Section Invariant.
Variables (c0 n0 : nat) (k0 : list number).




Lemma scheduleNote_preserves (P : state -> Prop) :
  (forall m, P m -> P (beat m)) ->
  forall fuel now m m',
    scheduleNote fuel now m = Some m' -> P m -> P m'.
Proof.
  intros Hbeat fuel now. induction fuel as [| fuel IH]; intros m m' Hrun Hm;
    cbn [scheduleNote] in Hrun;
    destruct (flt (nextNoteTime m) (fadd now (scheduleAheadTime m))).
  - discriminate.
  - injection Hrun as <-. exact Hm.
  - eapply IH; [exact Hrun | apply Hbeat; exact Hm].
  - injection Hrun as <-. exact Hm.
Qed.







(** What [stop()] does to a playing metronome. *)
Lemma stop_fields (m : state) :
  isPlaying m = true ->
  isCountingIn (stop m) = false /\
  countInBeat (stop m) = countInBeat m /\
  beatCount (stop m) = beatCount m /\
  clicks (stop m) = clicks m /\
  captures (stop m) = captures m /\
  intervalId (stop m) = None /\
  (forall t, In t (timers (stop m)) ->
             In t (timers m) /\ intervalId m <> Some (timer_id t)).
Proof.
  intros Hp. unfold stop. rewrite Hp. cbv zeta. fields.
  destruct (intervalId m) as [id |] eqn:Hid; fields;
    destruct (dom m) eqn:Hd; fields; repeat split; auto;
    try (apply clear_timer_incl in H; tauto);
    try (apply clear_timer_incl in H; destruct H; congruence);
    discriminate.
Qed.





End Invariant.


(** *** The calls return *)






















(** C4 at the failing input: [stop()], called twice right after the
    fourth count-in beat, leaves the handoff timer pending; the timer
    then fires, runs [startMIDIRecording], and 50 ms later the capture
    starts on a stopped metronome. *)
Theorem metronome_stop_leaves_handoff_pending :
  exists m4,
    count_in_at_100 = Some m4 /\
    isPlaying m4 = true /\
    stop (stop m4) = stop m4 /\
    isPlaying (stop (stop m4)) = false /\
    handoffs_pending (stop (stop m4)) = 1%nat /\
    exists m',
      run 4 [Fire (lit (180 # 100)) 4%nat; Fire (lit (185 # 100)) 6%nat]
        (stop (stop m4))
      = Some m' /\
      captures m' = [bufferedDuration] /\
      isPlaying m' = false.
Proof.
  eexists. split; [vm_compute; reflexivity |].
  split; [vm_compute; reflexivity |].
  split; [apply metronome_stop_idempotent |].
  split; [vm_compute; reflexivity |].
  split; [vm_compute; reflexivity |].
  eexists. split; [vm_compute; reflexivity |].
  split; vm_compute; reflexivity.
Qed.

End MetronomeProofs.

(** ** Stopping the recorder *)

Section RecorderStop.
Import JS MidiRecorder Session.

Lemma recorder_stop_idempotent (s : state) :
  fst (stopRecording (fst (stopRecording s))) = fst (stopRecording s).
Proof.
  unfold stopRecording at 2 3. destruct (isRecording s) eqn:Hrec; cbn [negb fst].
  - match goal with |- context [clearAllTimers ?x] =>
      destruct (clearAllTimers_fields x) as (H1 & _) end.
    unfold stopRecording. rewrite H1. reflexivity.
  - unfold stopRecording. rewrite Hrec. reflexivity.
Qed.

Lemma no_member_nil {A : Type} (l : list A) :
  (forall x, ~ In x l) -> l = [].
Proof.
  destruct l as [| a l]; [reflexivity |].
  intros H. destruct (H a). left. reflexivity.
Qed.

(** [clearAllTimers] cancels every timer the recorder remembers. *)
Lemma clearAllTimers_clears (s : state) :
  (forall t, In t (timers s) ->
             silenceTimeout s = Some (timer_id t) \/
             internalTimeout s = Some (timer_id t)) ->
  timers (clearAllTimers s) = [].
Proof.
  intros Htracked. apply no_member_nil. intros t Ht.
  unfold clearAllTimers in Ht.
  destruct (silenceTimeout s) as [a |] eqn:Hs; cbn [internalTimeout] in Ht;
    destruct (internalTimeout s) as [b |] eqn:Hi; cbn [timers] in Ht;
    repeat match goal with
           | Hin : In _ (clear_timer _ _) |- _ =>
               apply clear_timer_incl in Hin; destruct Hin
           end;
    destruct (Htracked t ltac:(assumption)) as [Heq | Heq];
    congruence.
Qed.

(** After [stopRecording()] on a recorder whose timers are tracked, no
    timer of the recorder is pending. *)
Lemma recorder_stop_clears_timers (s : state) :
  timers_tracked s -> timers (fst (stopRecording s)) = [].
Proof.
  intros [Htracked Hidle]. unfold stopRecording.
  destruct (isRecording s) eqn:Hrec; cbn [negb fst].
  - apply clearAllTimers_clears. exact Htracked.
  - apply Hidle. reflexivity.
Qed.

Lemma constructor_tracked : timers_tracked constructor.
Proof. split; [intros t [] | reflexivity]. Qed.

Lemma tracked_of_no_timers (s : state) :
  timers s = [] -> timers_tracked s.
Proof.
  intros Hnil. unfold timers_tracked. rewrite Hnil.
  split; [intros t [] | reflexivity].
Qed.

Lemma clearAllState_clears (s : state) :
  timers_tracked s -> timers (clearAllState s) = [] /\
                      silenceTimeout (clearAllState s) = None /\
                      internalTimeout (clearAllState s) = None.
Proof.
  intros [Htracked _]. unfold clearAllState.
  match goal with |- context [clearAllTimers ?x] =>
    destruct (clearAllTimers_fields x) as (_ & _ & _ & H4 & H5);
    pose proof (clearAllTimers_clears x Htracked) as H6 end.
  auto.
Qed.

Lemma resetSilenceTimer_tracked (s : state) :
  isRecording s = true -> timers_tracked s ->
  timers_tracked (resetSilenceTimer s).
Proof.
  intros Hrec [Htracked _]. unfold resetSilenceTimer.
  split; cbn; [| rewrite Hrec; discriminate].
  intros t Ht. apply in_app_or in Ht.
  destruct Ht as [Ht | [<- | []]]; [| left; reflexivity].
  right. destruct (silenceTimeout s) as [a |] eqn:Hs.
  - apply clear_timer_incl in Ht. destruct Ht as [Ht Hne].
    destruct (Htracked t Ht) as [H | H]; [congruence | exact H].
  - destruct (Htracked t Ht) as [H | H]; [discriminate | exact H].
Qed.

Lemma startRecording_tracked (now : number) (md : string) (duration : number)
    (s : state) :
  timers_tracked s -> timers_tracked (startRecording now md duration s).
Proof.
  intros Hs. destruct (clearAllState_clears s Hs) as (Ht & Hsil & Hint).
  unfold startRecording. rewrite Ht, Hsil, Hint.
  destruct (String.eqb md "time").
  - split; cbn; [| discriminate].
    intros t [<- | []]. right. reflexivity.
  - destruct (String.eqb md "silence").
    + apply resetSilenceTimer_tracked; [reflexivity |].
      split; cbn; [intros t [] | discriminate].
    + split; cbn; [intros t [] | discriminate].
Qed.

(** Every state a recorder reaches keeps its timers tracked. *)
Lemma apply_op_tracked (s : state) (o : op) :
  timers_tracked s -> timers_tracked (apply_op s o).
Proof.
  intros Hs. destruct o as [n v ts on | | | id]; cbn [apply_op].
  - unfold addNote. destruct (isRecording s) eqn:Hrec; cbn [negb]; [| exact Hs].
    match goal with |- context [if ?c then _ else _] => destruct c end.
    + apply resetSilenceTimer_tracked; [reflexivity |].
      destruct Hs as [H1 H2]. split; cbn; [exact H1 | discriminate].
    + destruct Hs as [H1 H2]. split; cbn; [exact H1 | discriminate].
  - apply tracked_of_no_timers. apply recorder_stop_clears_timers. exact Hs.
  - unfold cancelRecording. destruct (isRecording s) eqn:Hrec; cbn [negb fst];
      [| exact Hs].
    apply tracked_of_no_timers.
    match goal with |- timers (clearAllState ?x) = [] =>
      apply (clearAllState_clears x) end.
    apply tracked_of_no_timers. apply clearAllTimers_clears.
    destruct Hs as [H1 _]. exact H1.
  - unfold fire.
    destruct (find (fun t => Nat.eqb (timer_id t) id) (timers s)); [| exact Hs].
    cbn [isRecording]. destruct (isRecording s) eqn:Hrec.
    + apply tracked_of_no_timers. apply recorder_stop_clears_timers.
      destruct Hs as [H1 _]. split; cbn; [| discriminate].
      intros x Hx. apply clear_timer_incl in Hx. apply H1, Hx.
    + apply tracked_of_no_timers. cbn.
      destruct Hs as [_ H2]. rewrite (H2 Hrec). reflexivity.
Qed.

End RecorderStop.


(** * Further properties of the encoder *)

Section FormatProofs.
Import JS MidiRecorder RoundTrip Format.

Lemma vlq_value_app (a b : list Z) :
  forall acc,
    fold_left (fun acc b => acc * 128 + b mod 128) (a ++ b) acc
    = fold_left (fun acc b => acc * 128 + b mod 128) b
        (fold_left (fun acc b => acc * 128 + b mod 128) a acc).
Proof. intros acc. apply fold_left_app. Qed.

Lemma vlq_loop_value (fuel : nat) :
  forall (v : Z) (bytes : list Z),
    0 <= v < 128 ^ Z.of_nat fuel -> v < 2147483648 ->
    fold_left (fun acc b => acc * 128 + b mod 128)
      (vlq_loop fuel v bytes) 0
    = fold_left (fun acc b => acc * 128 + b mod 128) bytes v.
Proof.
  induction fuel as [| fuel IH]; intros v bytes Hv H31.
  - simpl in *. assert (v = 0) by lia. subst v. reflexivity.
  - cbn [vlq_loop].
    destruct (Z.ltb_spec 0 v) as [Hpos | Hzero].
    + assert (Hq : 0 <= v / 128 <= v).
      { split; [apply Z.div_pos; lia | apply Z.div_le_upper_bound; lia]. }
      pose proof (Z.mod_pos_bound v 128 ltac:(lia)) as Hm.
      rewrite IH.
      * cbn [fold_left].
        rewrite band_127, bor_128, shr_div by lia. change (2 ^ 7) with 128.
        f_equal.
        replace ((v mod 128 + 128) mod 128) with (v mod 128).
        -- pose proof (Z.div_mod v 128 ltac:(lia)). lia.
        -- apply Z.mod_unique with (q := 1); lia.
      * rewrite shr_div by lia. change (2 ^ 7) with 128.
        rewrite Nat2Z.inj_succ, Z.pow_succ_r in Hv by lia.
        split; [lia | apply Z.div_lt_upper_bound; lia].
      * rewrite shr_div by lia. change (2 ^ 7) with 128. lia.
    + assert (v = 0) by lia. subst v. reflexivity.
Qed.

Lemma vlq_loop_shape (fuel : nat) :
  forall (v : Z) (bytes : list Z),
    -2147483648 <= v < 2147483648 -> vlq_shape bytes ->
    vlq_shape (vlq_loop fuel v bytes).
Proof.
  induction fuel as [| fuel IH]; intros v bytes Hv Hs; [exact Hs |].
  cbn [vlq_loop]. destruct (Z.ltb_spec 0 v) as [Hpos | _]; [| exact Hs].
  pose proof (Z.mod_pos_bound v 128 ltac:(lia)) as Hm.
  assert (Hq : 0 <= v / 128 <= v).
  { split; [apply Z.div_pos; lia | apply Z.div_le_upper_bound; lia]. }
  apply IH.
  - rewrite shr_div by lia. change (2 ^ 7) with 128. lia.
  - rewrite band_127, bor_128 by lia.
    destruct bytes as [| b rest]; [destruct Hs |].
    cbn [vlq_shape]. split; [lia | exact Hs].
Qed.

(** X1: A delta the 32-bit arithmetic can carry is written as a well-formed
    variable-length quantity of at most five bytes that stands for it. *)
Theorem variableLengthQuantity_well_formed (v : Z) :
  0 <= v < 2147483648 ->
  vlq_shape (variableLengthQuantity v) /\
  vlq_value (variableLengthQuantity v) = v /\
  (1 <= List.length (variableLengthQuantity v) <= 5)%nat.
Proof.
  intros Hv. unfold variableLengthQuantity, vlq_value.
  pose proof (Z.mod_pos_bound v 128 ltac:(lia)) as Hm.
  assert (Hq : 0 <= v / 128 <= v).
  { split; [apply Z.div_pos; lia | apply Z.div_le_upper_bound; lia]. }
  split; [| split].
  - apply vlq_loop_shape.
    + rewrite shr_div by lia. change (2 ^ 7) with 128. lia.
    + cbn [vlq_shape]. rewrite band_127 by lia. lia.
  - rewrite vlq_loop_value.
    + cbn [fold_left]. rewrite band_127, shr_div by lia.
      change (2 ^ 7) with 128. rewrite Z.mod_mod by lia.
      pose proof (Z.div_mod v 128 ltac:(lia)). lia.
    + rewrite shr_div by lia. change (2 ^ 7) with 128.
      change (128 ^ Z.of_nat 4) with 268435456.
      split; [lia | apply Z.div_lt_upper_bound; lia].
    + rewrite shr_div by lia. change (2 ^ 7) with 128. lia.
  - pose proof (vlq_loop_length 4 (shr v 7) [band v 127]) as Hlen.
    change (List.length [band v 127]) with 1%nat in Hlen. split; [| lia].
    assert (Hs : vlq_shape (vlq_loop 4 (shr v 7) [band v 127])).
    { apply vlq_loop_shape.
      - rewrite shr_div by lia. change (2 ^ 7) with 128. lia.
      - cbn [vlq_shape]. rewrite band_127 by lia. lia. }
    destruct (vlq_loop 4 (shr v 7) [band v 127]);
      [destruct Hs | cbn [List.length]; lia].
Qed.

Lemma variableLengthQuantity_well_formed_witness :
  0 <= 1600 < 2147483648 /\
  vlq_shape (variableLengthQuantity 1600) /\
  vlq_value (variableLengthQuantity 1600) = 1600.
Proof.
  split; [lia |].
  destruct (variableLengthQuantity_well_formed 1600 ltac:(lia)) as (H1 & H2 & _).
  split; assumption.
Defined.

Lemma to_int32_range (z : Z) : -2147483648 <= to_int32 z < 2147483648.
Proof.
  unfold to_int32.
  pose proof (Z.mod_pos_bound z 4294967296 ltac:(lia)).
  destruct (Z.ltb_spec (z mod 4294967296) 2147483648); lia.
Qed.

Lemma to_int32_congruent (z : Z) : exists k, to_int32 z = z + k * 4294967296.
Proof.
  unfold to_int32.
  pose proof (Z.div_mod z 4294967296 ltac:(lia)) as Hdm.
  destruct (Z.ltb_spec (z mod 4294967296) 2147483648).
  - exists (- (z / 4294967296)). lia.
  - exists (- (z / 4294967296) - 1). lia.
Qed.

Lemma to_int32_idempotent (z : Z) : to_int32 (to_int32 z) = to_int32 z.
Proof. apply to_int32_small, to_int32_range. Qed.

(** X2: A value whose 32-bit reading is negative (a negative delta, or one of
    2^31 ticks and more) is written as a single byte, the low 7 bits of its
    two's complement; the rest of the value is lost. *)
Theorem variableLengthQuantity_out_of_range (v : Z) :
  to_int32 v < 0 ->
  variableLengthQuantity v = [v mod 128].
Proof.
  intros Hneg. pose proof (to_int32_range v) as Hr.
  unfold variableLengthQuantity.
  assert (Hshr : shr v 7 < 0).
  { unfold shr. rewrite Z.shiftr_div_pow2 by lia. change (2 ^ 7) with 128.
    apply Z.div_lt_upper_bound; lia. }
  cbn [vlq_loop]. destruct (Z.ltb_spec 0 (shr v 7)); [lia |].
  f_equal. unfold band. change (to_int32 127) with (Z.ones 7).
  rewrite Z.land_ones by lia. change (2 ^ 7) with 128.
  destruct (to_int32_congruent v) as [k Hk]. rewrite Hk.
  replace (v + k * 4294967296) with (v + (k * 33554432) * 128) by lia.
  apply Z.mod_add. lia.
Qed.

Lemma variableLengthQuantity_out_of_range_witness :
  to_int32 2147483648 < 0 /\
  variableLengthQuantity 2147483648 = [2147483648 mod 128] /\
  to_int32 (-64) < 0 /\
  variableLengthQuantity (-64) = [(-64) mod 128].
Proof.
  split; [reflexivity |].
  split; [apply (variableLengthQuantity_out_of_range 2147483648); reflexivity |].
  split; [reflexivity |].
  apply (variableLengthQuantity_out_of_range (-64)). reflexivity.
Defined.

Lemma int32ToBytes_bytes (n : Z) :
  exists b3 b2 b1 b0,
    int32ToBytes n = [b3; b2; b1; b0] /\
    (0 <= b3 < 256 /\ 0 <= b2 < 256 /\ 0 <= b1 < 256 /\ 0 <= b0 < 256) /\
    uint32_of_bytes b3 b2 b1 b0 = n mod 4294967296.
Proof.
  pose proof (to_int32_range n) as Hr.
  destruct (to_int32_congruent n) as [k Hk].
  set (x := to_int32 n) in *.
  assert (Hshift : forall j, 0 <= j -> shr n j = x / 2 ^ j).
  { intros j Hj. unfold shr. fold x. apply Z.shiftr_div_pow2. exact Hj. }
  assert (Hrange : forall j, 0 <= j ->
             -2147483648 <= x / 2 ^ j < 2147483648).
  { intros j Hj. assert (0 < 2 ^ j) by (apply Z.pow_pos_nonneg; lia).
    split.
    - apply Z.div_le_lower_bound; nia.
    - apply Z.div_lt_upper_bound; nia. }
  exists (x / 2 ^ 24 mod 256), (x / 2 ^ 16 mod 256),
         (x / 2 ^ 8 mod 256), (x mod 256).
  split; [| split].
  - unfold int32ToBytes. rewrite !Hshift by lia.
    rewrite !band_255 by (apply Hrange; lia).
    f_equal. unfold band. fold x. change (to_int32 255) with (Z.ones 8).
    rewrite Z.land_ones by lia. reflexivity.
  - repeat split; apply Z.mod_pos_bound; lia.
  - unfold uint32_of_bytes.
    change (2 ^ 24) with (256 * (256 * 256)).
    change (2 ^ 16) with (256 * 256). change (2 ^ 8) with 256.
    rewrite <- !Z.div_div by lia.
    pose proof (Z.div_mod x 256 ltac:(lia)).
    pose proof (Z.div_mod (x / 256) 256 ltac:(lia)).
    pose proof (Z.div_mod (x / 256 / 256) 256 ltac:(lia)).
    pose proof (Z.div_mod (x / 256 / 256 / 256) 256 ltac:(lia)).
    pose proof (Z.mod_pos_bound x 256 ltac:(lia)).
    pose proof (Z.mod_pos_bound (x / 256) 256 ltac:(lia)).
    pose proof (Z.mod_pos_bound (x / 256 / 256) 256 ltac:(lia)).
    pose proof (Z.mod_pos_bound (x / 256 / 256 / 256) 256 ltac:(lia)).
    apply Z.mod_unique with (q := - k + x / 256 / 256 / 256 / 256); lia.
Qed.

(** X3: [int32ToBytes] writes the low 32 bits of its argument, most
    significant byte first, whatever the argument. *)
Theorem int32ToBytes_low_32_bits (n : Z) :
  exists b3 b2 b1 b0,
    int32ToBytes n = [b3; b2; b1; b0] /\
    (0 <= b3 < 256 /\ 0 <= b2 < 256 /\ 0 <= b1 < 256 /\ 0 <= b0 < 256) /\
    uint32_of_bytes b3 b2 b1 b0 = n mod 4294967296.
Proof. apply int32ToBytes_bytes. Qed.

Lemma midi_file_bytes (track : list Z) :
  exists b3 b2 b1 b0,
    midi_file track
    = [77; 84; 104; 100; 0; 0; 0; 6; 0; 0; 0; 1; 0; 96;
       77; 84; 114; 107; b3; b2; b1; b0] ++ track /\
    uint32_of_bytes b3 b2 b1 b0
    = Z.of_nat (List.length track) mod 4294967296 /\
    List.length (midi_file track) = (22 + List.length track)%nat.
Proof.
  destruct (int32ToBytes_bytes (Z.of_nat (List.length track)))
    as (b3 & b2 & b1 & b0 & Hb & (H3 & H2 & H1 & H0) & Hv).
  exists b3, b2, b1, b0. unfold midi_file. rewrite Hb.
  rewrite (Uint8Array_bytes ([77; 84; 114; 107] ++ [b3; b2; b1; b0]))
    by (cbn [app];
        repeat (apply Forall_cons; [unfold byte; lia |]); apply Forall_nil).
  change header with [77; 84; 104; 100; 0; 0; 0; 6; 0; 0; 0; 1; 0; 96].
  split; [reflexivity |]. split; [exact Hv |].
  rewrite !length_app. reflexivity.
Qed.

(** X4: Both files have the same layout around their track: the fixed
    14-byte header chunk (format 0, one track, 96 ticks per quarter note),
    the track magic, and the length of the track in four bytes, most
    significant first, then the track. *)
Theorem midi_file_layout (notes : list NoteEvent) :
  (exists b3 b2 b1 b0,
      createMidiData notes
      = [77; 84; 104; 100; 0; 0; 0; 6; 0; 0; 0; 1; 0; 96;
         77; 84; 114; 107; b3; b2; b1; b0] ++ createTrackData notes /\
      uint32_of_bytes b3 b2 b1 b0
      = Z.of_nat (List.length (createTrackData notes)) mod 4294967296 /\
      List.length (createMidiData notes)
      = (22 + List.length (createTrackData notes))%nat) /\
  (exists b3 b2 b1 b0,
      createPlaybackMidiData notes
      = [77; 84; 104; 100; 0; 0; 0; 6; 0; 0; 0; 1; 0; 96;
         77; 84; 114; 107; b3; b2; b1; b0]
          ++ createPlaybackTrackData notes /\
      uint32_of_bytes b3 b2 b1 b0
      = Z.of_nat (List.length (createPlaybackTrackData notes))
        mod 4294967296 /\
      List.length (createPlaybackMidiData notes)
      = (22 + List.length (createPlaybackTrackData notes))%nat).
Proof.
  split; [apply (midi_file_bytes (createTrackData notes)) |
          apply (midi_file_bytes (createPlaybackTrackData notes))].
Qed.

(** Both encoders write the user events with the same bytes; the export
    track ends with the end-of-track event, and the playback-padded track
    frames the events with the sustain note-on and, before the end-of-track
    event, a delta and the sustain note-off. *)
Lemma tracks_share_events (notes : list NoteEvent) :
  exists events pad,
    createTrackData notes = events ++ [0; 255; 47; 0] /\
    createPlaybackTrackData notes
    = [0; 144; 127; 1] ++ events ++ pad ++ [128; 127; 0] ++ [0; 255; 47; 0] /\
    events = Uint8Array (encode_from (Finite 0) (normalizedNotes notes)) /\
    pad = Uint8Array
            (variableLengthQuantity
               (remainingTicks
                  (last_time (Finite 0) (normalizedNotes notes)))).
Proof.
  eexists. eexists. split; [| split; [| split]]; try reflexivity.
  - unfold createTrackData. rewrite fold_left_emit_note. cbn [app].
    unfold Uint8Array. rewrite map_app. reflexivity.
  - unfold createPlaybackTrackData. rewrite fold_left_emit_note.
    change (variableLengthQuantity 0 ++ [144; 127; 1]) with [0; 144; 127; 1].
    unfold Uint8Array. rewrite !map_app. reflexivity.
Qed.

End FormatProofs.

(** * Further properties of the recorder *)

Section CaptureProofs.
Import JS MidiRecorder Session Capture.

Lemma clearAllTimers_next_timer (s : state) :
  next_timer (clearAllTimers s) = next_timer s /\
  mode (clearAllTimers s) = mode s /\
  startTime (clearAllTimers s) = startTime s.
Proof.
  unfold clearAllTimers.
  destruct (silenceTimeout s); cbn [internalTimeout];
    destruct (internalTimeout s); cbn; auto.
Qed.

Lemma startRecording_fields (now : number) (md : string) (duration : number)
    (s : state) :
  timers_tracked s ->
  let s' := startRecording now md duration s in
  isRecording s' = true /\ recordedNotes s' = [] /\
  wasCanceled s' = false /\ startTime s' = Some now /\ mode s' = md /\
  timers s' = timers_after_start md duration (next_timer s) /\
  (String.eqb md "silence" = true -> internalTimeout s' = None).
Proof.
  intros Hs. destruct (clearAllState_clears s Hs) as (Ht & Hsil & Hint).
  assert (Hnext : next_timer (clearAllState s) = next_timer s).
  { unfold clearAllState.
    match goal with |- context [clearAllTimers ?x] =>
      destruct (clearAllTimers_next_timer x) as (H & _) end.
    exact H. }
  unfold startRecording, timers_after_start.
  rewrite Ht, Hsil, Hint, Hnext.
  destruct (String.eqb md "time") eqn:Htime.
  - cbn. repeat split; auto. intros Hsilence.
    apply String.eqb_eq in Htime. subst md. discriminate Hsilence.
  - destruct (String.eqb md "silence") eqn:Hsilence; cbn; repeat split; auto.
Qed.

Lemma timers_in_hand_of_idle (s : state) :
  isRecording s = false -> timers s = [] -> timers_in_hand s.
Proof.
  intros Hidle Hnil. split; [apply tracked_of_no_timers; exact Hnil |].
  split; [rewrite Hnil; cbn; lia | congruence].
Qed.

Lemma startRecording_in_hand (now : number) (md : string) (duration : number)
    (s : state) :
  timers_tracked s -> timers_in_hand (startRecording now md duration s).
Proof.
  intros Hs.
  destruct (startRecording_fields now md duration s Hs)
    as (Hrec & _ & _ & _ & Hmode & Htimers & Hint).
  split; [apply startRecording_tracked; exact Hs |].
  split.
  - rewrite Htimers. unfold timers_after_start.
    destruct (String.eqb md "time"); [cbn; lia |].
    destruct (String.eqb md "silence"); cbn; lia.
  - intros _ Hsilence. apply Hint. rewrite <- Hmode. exact Hsilence.
Qed.

(** In silence mode a note-on replaces the pending timer by a new one. *)
Lemma resetSilenceTimer_one (s : state) :
  timers_in_hand s -> isRecording s = true ->
  String.eqb (mode s) "silence" = true ->
  timers (resetSilenceTimer s)
  = [ {| timer_id := next_timer s; timer_delay := 2000;
         timer_callback := SilenceTimeoutFired |} ].
Proof.
  intros ((Htracked & _) & _ & Hint) Hrec Hmode.
  specialize (Hint Hrec Hmode). unfold resetSilenceTimer. cbn [timers].
  assert (Hnil : match silenceTimeout s with
                 | Some id => clear_timer id (timers s)
                 | None => timers s
                 end = []).
  { apply no_member_nil. intros t Ht.
    destruct (silenceTimeout s) as [a |] eqn:Hs.
    - apply clear_timer_incl in Ht. destruct Ht as [Ht Hne].
      destruct (Htracked t Ht) as [H | H]; congruence.
    - destruct (Htracked t Ht) as [H | H]; congruence. }
  rewrite Hnil. reflexivity.
Qed.

Lemma addNote_in_hand (n v : Z) (ts : number) (on : bool) (s : state) :
  timers_in_hand s -> timers_in_hand (addNote n v ts on s).
Proof.
  intros Hs. pose proof Hs as ((Htracked & Hidle) & Hlen & Hint).
  unfold addNote. destruct (isRecording s) eqn:Hrec; cbn [negb]; [| exact Hs].
  match goal with |- context [if ?c then _ else _] => destruct c eqn:Hc end.
  - apply Bool.andb_true_iff in Hc. destruct Hc as [Hmode _].
    cbn [mode] in Hmode.
    match goal with |- timers_in_hand (resetSilenceTimer ?x) =>
      assert (Hx : timers_in_hand x)
        by (split; [split; cbn; [exact Htracked | discriminate] |];
            split; cbn; auto);
      pose proof (resetSilenceTimer_one x Hx eq_refl Hmode) as Hone;
      set (s1 := x) in *
    end.
    split; [apply resetSilenceTimer_tracked; [reflexivity | apply Hx] |].
    split; [rewrite Hone; cbn; lia |].
    intros _ _. unfold resetSilenceTimer. cbn [internalTimeout].
    apply Hint; [reflexivity | exact Hmode].
  - split; [split; cbn; [exact Htracked | discriminate] |].
    split; cbn; auto.
Qed.

Lemma apply_op_in_hand (s : state) (o : op) :
  timers_in_hand s -> timers_in_hand (apply_op s o).
Proof.
  intros Hs. pose proof Hs as (Htracked & Hlen & Hint).
  destruct o as [n v ts on | | | id]; cbn [apply_op].
  - apply addNote_in_hand. exact Hs.
  - unfold stopRecording. destruct (isRecording s) eqn:Hrec; cbn [negb fst];
      [| exact Hs].
    apply timers_in_hand_of_idle.
    + match goal with |- context [clearAllTimers ?x] =>
        destruct (clearAllTimers_fields x) as (H & _) end. exact H.
    + apply clearAllTimers_clears. apply Htracked.
  - unfold cancelRecording. destruct (isRecording s) eqn:Hrec; cbn [negb fst];
      [| exact Hs].
    apply timers_in_hand_of_idle.
    + match goal with |- isRecording (clearAllState ?x) = false =>
        destruct (clearAllState_fields x) as (H & _); rewrite H end.
      match goal with |- context [clearAllTimers ?x] =>
        destruct (clearAllTimers_fields x) as (H' & _) end. exact H'.
    + match goal with |- timers (clearAllState ?x) = [] =>
        apply (clearAllState_clears x) end.
      apply tracked_of_no_timers. apply clearAllTimers_clears. apply Htracked.
  - pose proof (apply_op_tracked s (FireTimer id) Htracked) as Hfired.
    cbn [apply_op] in Hfired. unfold fire in *.
    destruct (find (fun t => Nat.eqb (timer_id t) id) (timers s)); [| exact Hs].
    cbn [isRecording] in *. destruct (isRecording s) eqn:Hrec.
    + apply timers_in_hand_of_idle.
      * unfold stopRecording. cbn [isRecording negb fst].
        match goal with |- context [clearAllTimers ?x] =>
          destruct (clearAllTimers_fields x) as (H & _) end. exact H.
      * apply recorder_stop_clears_timers.
        destruct Htracked as [H1 _]. split; cbn; [| discriminate].
        intros x Hx. apply clear_timer_incl in Hx. apply H1, Hx.
    + apply timers_in_hand_of_idle; [reflexivity |]. cbn.
      destruct Htracked as [_ H2]. rewrite (H2 Hrec). reflexivity.
Qed.

Lemma reach_in_hand (cs : list command) : timers_in_hand (reach cs).
Proof.
  unfold reach.
  assert (Hgen : forall s, timers_in_hand s ->
                           timers_in_hand (fold_left exec cs s)).
  { induction cs as [| c cs IH]; intros s Hs; [exact Hs |].
    cbn [fold_left]. apply IH. destruct c as [now md d | o]; cbn [exec].
    - apply startRecording_in_hand. apply Hs.
    - apply apply_op_in_hand. exact Hs. }
  apply Hgen. apply timers_in_hand_of_idle; reflexivity.
Qed.

(** X7: Whatever was done to a recorder before, it never has more than one
    timer pending and none while idle, and [startRecording] leaves exactly
    the timer of the new session: starting twice in a row leaks neither a
    timer nor an event. *)
Theorem recorder_timers_never_leak (cs : list command) :
  (List.length (timers (reach cs)) <= 1)%nat /\
  (isRecording (reach cs) = false -> timers (reach cs) = []) /\
  forall now md duration,
    let s := startRecording now md duration (reach cs) in
    timers s = timers_after_start md duration (next_timer (reach cs)) /\
    recordedNotes s = [] /\ isRecording s = true /\ wasCanceled s = false.
Proof.
  destruct (reach_in_hand cs) as ((Htracked & Hidle) & Hlen & _).
  split; [exact Hlen |]. split; [exact Hidle |].
  intros now md duration s.
  destruct (startRecording_fields now md duration (reach cs)
              (conj Htracked Hidle)) as (H1 & H2 & H3 & _ & _ & H6 & _).
  auto.
Qed.

Lemma idle_after_stop :
  isRecording (reach [Start 1000 "time" 2; Do StopRecording]) = false.
Proof. vm_compute. reflexivity. Qed.

Lemma recorder_timers_never_leak_witness :
  timers (reach [Start 1000 "time" 2; Do StopRecording]) = [].
Proof.
  destruct (recorder_timers_never_leak [Start 1000 "time" 2; Do StopRecording])
    as (_ & H & _).
  apply H. exact idle_after_stop.
Defined.

Lemma add_all (ins : list incoming) :
  forall s t0,
    isRecording s = true -> startTime s = Some t0 ->
    let s' := fold_left add ins s in
    isRecording s' = true /\ startTime s' = Some t0 /\
    recordedNotes s' = recordedNotes s ++ map (captured t0) ins.
Proof.
  induction ins as [| i ins IH]; intros s t0 Hrec Hstart.
  - cbn. rewrite app_nil_r. auto.
  - cbn [fold_left map].
    assert (Hadd : isRecording (add s i) = true /\
                   startTime (add s i) = Some t0 /\
                   recordedNotes (add s i)
                   = recordedNotes s ++ [captured t0 i]).
    { unfold add, addNote, captured. rewrite Hrec, Hstart. cbn [negb].
      match goal with |- context [if ?c then _ else _] => destruct c end;
        unfold resetSilenceTimer; cbn; auto. }
    destruct Hadd as (Hrec' & Hstart' & Hnotes').
    destruct (IH (add s i) t0 Hrec' Hstart') as (H1 & H2 & H3).
    cbv zeta. rewrite H3, Hnotes', <- app_assoc. auto.
Qed.

(** X8: A session returns exactly the notes that arrived during it, in the
    order of arrival, each with its time in seconds since the start of the
    session; nothing of an earlier session comes back. *)
Theorem session_returns_its_notes (s : state) (now : number) (md : string)
    (duration : number) (ins : list incoming) :
  timers_tracked s ->
  snd (stopRecording (fold_left add ins (startRecording now md duration s)))
  = Some (map (captured now) ins).
Proof.
  intros Hs.
  destruct (startRecording_fields now md duration s Hs)
    as (Hrec & Hnotes & _ & Hstart & _).
  destruct (add_all ins _ now Hrec Hstart) as (Hrec' & _ & Hnotes').
  cbv zeta in Hrec', Hnotes'. rewrite Hnotes in Hnotes'. cbn [app] in Hnotes'.
  unfold stopRecording. rewrite Hrec'. cbn [negb snd].
  match goal with |- context [clearAllTimers ?x] =>
    destruct (clearAllTimers_fields x) as (_ & H & _) end.
  rewrite H. cbn [recordedNotes]. rewrite Hnotes'. reflexivity.
Qed.

Lemma session_returns_its_notes_witness :
  timers_tracked recording /\
  snd (stopRecording
         (fold_left add
            [ {| in_note := 60; in_velocity := 100; in_timestamp := 5100;
                 in_on := true |};
              {| in_note := 60; in_velocity := 100; in_timestamp := 5500;
                 in_on := false |} ]
            (startRecording 5000 "time" 2 recording)))
  = Some [ {| note := 60; velocity := 100;
              time := fdiv (fsub 5100 5000) 1000; isNoteOn := true |};
           {| note := 60; velocity := 100;
              time := fdiv (fsub 5500 5000) 1000; isNoteOn := false |} ].
Proof.
  assert (Ht : timers_tracked recording).
  { apply (apply_op_tracked _ (AddNote 60 100 1100 true)).
    apply startRecording_tracked. apply constructor_tracked. }
  split; [exact Ht |].
  exact (session_returns_its_notes recording 5000 "time" 2
           [ {| in_note := 60; in_velocity := 100; in_timestamp := 5100;
                in_on := true |};
             {| in_note := 60; in_velocity := 100; in_timestamp := 5500;
                in_on := false |} ] Ht).
Defined.

(** X9: While a recording in silence mode runs, every note-on replaces the
    pending inactivity timer by a fresh two-second one, so exactly one is
    pending, and a note-off leaves it alone; in any other mode a note
    touches no timer. *)
Theorem silence_timer_rearmed (cs : list command) (n v : Z) (ts : number) :
  isRecording (reach cs) = true ->
  (String.eqb (mode (reach cs)) "silence" = true ->
   timers (addNote n v ts true (reach cs))
   = [ {| timer_id := next_timer (reach cs); timer_delay := 2000;
          timer_callback := SilenceTimeoutFired |} ] /\
   silenceTimeout (addNote n v ts true (reach cs))
   = Some (next_timer (reach cs)) /\
   timers (addNote n v ts false (reach cs)) = timers (reach cs) /\
   silenceTimeout (addNote n v ts false (reach cs))
   = silenceTimeout (reach cs)) /\
  (String.eqb (mode (reach cs)) "silence" = false ->
   forall on, timers (addNote n v ts on (reach cs)) = timers (reach cs)).
Proof.
  intros Hrec. pose proof (reach_in_hand cs) as Hs.
  pose proof Hs as ((Htracked & Hidle) & Hlen & Hint).
  split.
  - intros Hmode. unfold addNote. rewrite Hrec. cbn [negb mode].
    rewrite Hmode. cbn [andb].
    match goal with |- context [resetSilenceTimer ?x] =>
      assert (Hx : timers_in_hand x)
        by (split; [split; cbn; [exact Htracked | discriminate] |];
            split; cbn; auto);
      rewrite (resetSilenceTimer_one x Hx eq_refl Hmode)
    end.
    cbn. auto.
  - intros Hmode on. unfold addNote. rewrite Hrec. cbn [negb mode].
    rewrite Hmode. reflexivity.
Qed.

Lemma silent_session_recording :
  isRecording (reach [Start 1000 "silence" 10]) = true.
Proof. vm_compute. reflexivity. Qed.

Lemma silence_timer_rearmed_witness :
  timers (addNote 60 100 1100 false (reach [Start 1000 "silence" 10]))
  = timers (reach [Start 1000 "silence" 10]).
Proof.
  destruct (silence_timer_rearmed [Start 1000 "silence" 10] 60 100 1100
              silent_session_recording) as [H _].
  apply H. reflexivity.
Defined.

Lemma find_pending {C : Type} (t : timer C) (ts : list (timer C)) :
  In t ts -> find (fun x => Nat.eqb (timer_id x) (timer_id t)) ts <> None.
Proof.
  intros Ht Hnone. pose proof (find_none _ _ Hnone t Ht) as H.
  cbn in H. rewrite Nat.eqb_refl in H. discriminate.
Qed.

(** X10: When the duration timer or the inactivity timer fires during a
    recording, the recording stops by itself: no timer stays pending, the
    captured events and the cancel flag are kept, the events can still be
    exported, and a later [stopRecording] returns nothing. *)
Theorem timeout_stops_recording (cs : list command) (t : timer callback) :
  isRecording (reach cs) = true -> In t (timers (reach cs)) ->
  let s' := fire (timer_id t) (reach cs) in
  isRecording s' = false /\ timers s' = [] /\
  recordedNotes s' = recordedNotes (reach cs) /\
  wasCanceled s' = wasCanceled (reach cs) /\
  snd (stopRecording s') = None /\
  convertToMidiBlob s' = convertToMidiBlob (reach cs).
Proof.
  intros Hrec Ht. destruct (reach_in_hand cs) as ((Htracked & _) & _).
  intros s'.
  assert (Hfields : isRecording s' = false /\ timers s' = [] /\
                    recordedNotes s' = recordedNotes (reach cs) /\
                    wasCanceled s' = wasCanceled (reach cs)).
  { subst s'. unfold fire.
    destruct (find _ (timers (reach cs))) eqn:Hfind;
      [| exfalso; exact (find_pending t _ Ht Hfind)].
    cbn [isRecording]. rewrite Hrec.
    split; [| split].
    - unfold stopRecording. cbn [isRecording negb fst].
      match goal with |- context [clearAllTimers ?x] =>
        destruct (clearAllTimers_fields x) as (H & _) end. exact H.
    - apply recorder_stop_clears_timers. split; cbn; [| congruence].
      intros x Hx. apply clear_timer_incl in Hx. apply Htracked, Hx.
    - unfold stopRecording. cbn [isRecording negb fst].
      match goal with |- context [clearAllTimers ?x] =>
        destruct (clearAllTimers_fields x) as (_ & H2 & H3 & _) end.
      rewrite H2, H3. cbn. auto. }
  destruct Hfields as (H1 & H2 & H3 & H4).
  repeat split; auto.
  - unfold stopRecording. rewrite H1. reflexivity.
  - unfold convertToMidiBlob. rewrite H3. reflexivity.
Qed.

Lemma timed_session_pending :
  isRecording (reach [Start 1000 "time" 2]) = true /\
  In {| timer_id := 1%nat; timer_delay := 2 * 1000;
        timer_callback := InternalTimeoutFired |}
     (timers (reach [Start 1000 "time" 2])).
Proof. split; [vm_compute; reflexivity | vm_compute; left; reflexivity]. Qed.

Lemma timeout_stops_recording_witness :
  isRecording (fire 1 (reach [Start 1000 "time" 2])) = false.
Proof.
  destruct timed_session_pending as [Hrec Hin].
  destruct (timeout_stops_recording [Start 1000 "time" 2] _ Hrec Hin)
    as [H _].
  exact H.
Defined.

End CaptureProofs.

(** * Further properties of the player *)

Section PlayerControlProofs.
Import JS PrecisionMIDIPlayer Playback PlayerControls.

Lemma pause_fields (p : state) :
  isPlaying (pause p) = isPlaying p /\ timeline (pause p) = timeline p /\
  scheduledEvents (pause p) = scheduledEvents p /\
  forcedDuration (pause p) = forcedDuration p /\
  (isPlaying p = true ->
   transport (pause p) = Paused /\ status_text (pause p) = "Stopped"%string).
Proof.
  unfold pause. destruct (isPlaying p) eqn:Hp; cbn; rewrite ?Hp;
    repeat split; auto; discriminate.
Qed.

Lemma resume_settled (p : state) : settled p -> resume p = p.
Proof.
  intros [_ Hidle]. unfold resume.
  destruct (isPlaying p) eqn:Hp; [reflexivity |].
  rewrite (Hidle eq_refl). reflexivity.
Qed.

Lemma stop_settled (p : state) : settled p -> settled (stop p).
Proof.
  intros [Hc Hidle]. split; [apply stop_consistent; exact Hc |].
  unfold stop. destruct (isPlaying p) eqn:Hp; cbn; auto.
Qed.

Lemma exec_settled (p : state) (c : command) : settled p -> settled (exec p c).
Proof.
  intros Hp. pose proof Hp as [Hc Hidle].
  destruct c as [fromUrl url forced | | | | a]; cbn [exec].
  - split; [apply load_consistent; exact Hc |].
    destruct (fromUrl url) as [midi | msg] eqn:Hurl.
    + destruct (load_success fromUrl url midi forced p Hc Hurl)
        as (p' & id & added & Hload & _ & _ & _ & Hplay & _).
      rewrite Hload. cbn [snd]. congruence.
    + unfold loadAndPlayWithDuration. rewrite Hurl. exact Hidle.
  - apply stop_settled. exact Hp.
  - destruct (pause_fields p) as (H1 & H2 & H3 & _ & H5).
    split; [split |].
    + intros H e He. rewrite H2 in He. rewrite H3.
      rewrite H1 in H. apply Hc; assumption.
    + intros H. rewrite H2. rewrite H1 in H. apply Hc. exact H.
    + intros H. rewrite H1 in H. unfold pause. rewrite H. auto.
  - rewrite (resume_settled p Hp). exact Hp.
  - destruct a; cbn [run_action]; [apply stop_settled |]; exact Hp.
Qed.

Lemma reach_settled (cs : list command) : settled (reach cs).
Proof.
  unfold reach.
  assert (Hgen : forall p, settled p -> settled (fold_left exec cs p)).
  { induction cs as [| c cs IH]; intros p Hp; [exact Hp |].
    cbn [fold_left]. apply IH, exec_settled, Hp. }
  apply Hgen. split; [apply constructor_consistent | reflexivity].
Qed.

(** X11: However a player was driven, [resume()] changes nothing: [pause()]
    halts the transport but leaves [isPlaying] set, and [resume()] acts
    only when [isPlaying] is unset and the transport is paused, which never
    holds.  A paused player keeps its schedule and shows the text of a
    stopped one. *)
Theorem resume_changes_nothing (cs : list command) :
  resume (reach cs) = reach cs /\
  (isPlaying (reach cs) = true ->
   transport (pause (reach cs)) = Paused /\
   isPlaying (pause (reach cs)) = true /\
   status_text (pause (reach cs)) = "Stopped"%string /\
   timeline (pause (reach cs)) = timeline (reach cs) /\
   resume (pause (reach cs)) = pause (reach cs)).
Proof.
  split; [apply resume_settled, reach_settled |].
  intros Hplay. destruct (pause_fields (reach cs)) as (H1 & H2 & _ & _ & H5).
  destruct (H5 Hplay) as [H6 H7]. rewrite H1.
  repeat split; auto.
  apply resume_settled.
  apply (exec_settled (reach cs) CallPause), reach_settled.
Qed.

Lemma playing_after_load :
  isPlaying (reach [CallLoad serving "take.mid" None]) = true.
Proof. vm_compute. reflexivity. Qed.

Lemma resume_changes_nothing_witness :
  transport (resume (pause (reach [CallLoad serving "take.mid" None])))
  = Paused.
Proof.
  destruct (resume_changes_nothing [CallLoad serving "take.mid" None])
    as [_ H].
  destruct (H playing_after_load) as (H1 & _ & _ & _ & H5).
  rewrite H5. exact H1.
Defined.

(** X12: However a player was driven, every callback still on the transport is
    one it remembers, so [stop()] always leaves the transport empty; and a
    player that is not playing has a stopped, empty transport. *)
Theorem stop_clears_every_schedule (cs : list command) :
  (forall e, In e (timeline (reach cs)) ->
             In (event_id e) (scheduledEvents (reach cs))) /\
  timeline (stop (reach cs)) = [] /\
  isPlaying (stop (reach cs)) = false /\
  transport (stop (reach cs)) = Stopped /\
  (isPlaying (reach cs) = false ->
   transport (reach cs) = Stopped /\ timeline (reach cs) = []).
Proof.
  destruct (reach_settled cs) as [Hc Hidle]. pose proof Hc as [Hplay Hnone].
  destruct (stop_clears_timeline (reach cs) Hc) as [H1 H2].
  split; [| split; [exact H1 | split; [exact H2 | split]]].
  - intros e He. destruct (isPlaying (reach cs)) eqn:Hp.
    + apply Hplay; auto.
    + rewrite (Hnone eq_refl) in He. destruct He.
  - unfold stop. destruct (isPlaying (reach cs)) eqn:Hp; cbn; auto.
  - intros Hp. split; [apply Hidle | apply Hnone]; exact Hp.
Qed.

Lemma stopped_after_load :
  isPlaying (reach [CallLoad serving "take.mid" None; CallStop]) = false.
Proof. vm_compute. reflexivity. Qed.

Lemma stop_clears_every_schedule_witness :
  transport (reach [CallLoad serving "take.mid" None; CallStop]) = Stopped /\
  timeline (reach [CallLoad serving "take.mid" None; CallStop]) = [].
Proof.
  destruct (stop_clears_every_schedule
              [CallLoad serving "take.mid" None; CallStop])
    as (_ & _ & _ & _ & H).
  apply H. exact stopped_after_load.
Defined.









End PlayerControlProofs.

(** * Further properties of the metronome *)

Section BeatProofs.
Import JS Metronome CountIn Beats.

Ltac mfields :=
  cbn [isPlaying bpm beatCount isCountingIn countInBeat recordingStarted
       audioContext intervalId nextNoteTime lookahead scheduleAheadTime
       timers next_timer clicks dom captures
       with_beatCount with_countInBeat with_isCountingIn
       with_recordingStarted with_isPlaying with_intervalId
       with_nextNoteTime with_timers with_next_timer with_clicks with_dom
       with_captures setTimeout playClick fst snd] in *.

Lemma one_chain_fewer (m : state) (ts : list (timer callback)) :
  (forall t, In t ts -> In t (timers m)) ->
  one_chain m -> one_chain (with_timers ts m).
Proof.
  intros Hincl [Htr Hidle]. split.
  - intros t Ht Hs. mfields. apply Htr; auto.
  - intros Hp t Ht. mfields. apply (Hidle Hp). auto.
Qed.

Lemma scheduler_one_chain (fuel : nat) (now : number) (m m' : state) :
  none_pending is_scheduler m -> scheduler fuel now m = Some m' ->
  one_chain m'.
Proof.
  intros Hnone Hrun. unfold scheduler in Hrun.
  destruct (scheduleNote fuel now m) as [m1 |] eqn:Hloop; [| discriminate].
  assert (H1 : none_pending is_scheduler m1).
  { apply (scheduleNote_preserves (none_pending is_scheduler)
             beat_none_pending_scheduler fuel now m m1 Hloop Hnone). }
  destruct (isPlaying m1) eqn:Hp.
  - cbn in Hrun. injection Hrun as <-. split.
    + intros t Ht Hs. mfields. apply in_app_or in Ht.
      destruct Ht as [Ht | [<- | []]]; [| reflexivity].
      rewrite (H1 t Ht) in Hs. discriminate.
    + mfields. rewrite Hp. discriminate.
  - injection Hrun as <-. split; [| intros _; exact H1].
    intros t Ht Hs. rewrite (H1 t Ht) in Hs. discriminate.
Qed.

Lemma idle_callback (fuel : nat) (now : number) (t : timer callback)
    (m : state) :
  is_scheduler t = false ->
  exists m',
    run_callback fuel now (timer_callback t) m = Some m' /\
    clicks m' = clicks m /\ isPlaying m' = isPlaying m /\
    intervalId m' = intervalId m /\ nextNoteTime m' = nextNoteTime m /\
    exists added,
      timers m' = timers m ++ added /\
      forall x, In x added -> is_scheduler x = false.
Proof.
  intros Hs. unfold is_scheduler in Hs.
  destruct (timer_callback t); cbn [run_callback]; [discriminate | | |].
  - eexists. split; [reflexivity |]. unfold startMIDIRecording. mfields.
    repeat split. eexists. split; [reflexivity |].
    intros x [<- | []]. reflexivity.
  - eexists. split; [reflexivity |].
    destruct (dom m); mfields; repeat split; exists [];
      rewrite app_nil_r; (split; [reflexivity | intros x []]).
  - eexists. split; [reflexivity |]. mfields. repeat split. exists [].
    rewrite app_nil_r. split; [reflexivity | intros x []].
Qed.

Lemma fire_one_chain (fuel : nat) (now : number) (id : nat) (m m' : state) :
  one_chain m -> fire fuel now id m = Some m' -> one_chain m'.
Proof.
  intros Hm Hfire. unfold fire in Hfire.
  destruct (find (fun t => Nat.eqb (timer_id t) id) (timers m))
    as [t |] eqn:Hfind; [| injection Hfire as <-; exact Hm].
  apply find_some in Hfind. destruct Hfind as [Hin Hid].
  apply Nat.eqb_eq in Hid.
  set (m1 := with_timers (clear_timer id (timers m)) m) in *.
  assert (Hincl : forall x, In x (timers m1) -> In x (timers m))
    by (intros x Hx; apply (clear_timer_incl id _ _ Hx)).
  pose proof (one_chain_fewer m _ Hincl Hm) as Hm1. fold m1 in Hm1.
  destruct (is_scheduler t) eqn:Hs.
  - assert (Hcb : timer_callback t = SchedulerTick).
    { unfold is_scheduler in Hs. destruct (timer_callback t);
        [reflexivity | discriminate ..]. }
    rewrite Hcb in Hfire. cbn [run_callback] in Hfire.
    apply (scheduler_one_chain fuel now m1 m'); [| exact Hfire].
    destruct Hm as [Htr _]. intros x Hx.
    destruct (clear_timer_incl id _ _ Hx) as [Hx' Hne].
    destruct (is_scheduler x) eqn:Hsx; [| reflexivity].
    pose proof (Htr x Hx' Hsx) as H1. pose proof (Htr t Hin Hs) as H2.
    congruence.
  - destruct (idle_callback fuel now t m1 Hs)
      as (m2 & Hcb & _ & Hp & Hi & _ & added & Htm & Hadd).
    rewrite Hcb in Hfire. injection Hfire as <-.
    destruct Hm1 as [Htr Hidle]. split.
    + intros x Hx Hsx. rewrite Htm in Hx. rewrite Hi.
      apply in_app_or in Hx. destruct Hx as [Hx | Hx]; [apply Htr; auto |].
      rewrite (Hadd x Hx) in Hsx. discriminate.
    + intros Hp2 x Hx. rewrite Htm in Hx. rewrite Hp in Hp2.
      apply in_app_or in Hx. destruct Hx as [Hx | Hx];
        [apply (Hidle Hp2); exact Hx | apply Hadd; exact Hx].
Qed.

Lemma stop_one_chain (m : state) : one_chain m -> one_chain (stop m).
Proof.
  intros Hm. destruct (isPlaying m) eqn:Hp;
    [| rewrite (stop_when_stopped m Hp); exact Hm].
  destruct (stop_fields m Hp) as (_ & _ & _ & _ & _ & Hid & Htm).
  destruct Hm as [Htr _].
  assert (Hnone : none_pending is_scheduler (stop m)).
  { intros t Ht. destruct (Htm t Ht) as [Hin Hne].
    destruct (is_scheduler t) eqn:Hs; [| reflexivity].
    destruct (Hne (Htr t Hin Hs)). }
  split; [| intros _; exact Hnone].
  intros t Ht Hs. rewrite (Hnone t Ht) in Hs. discriminate.
Qed.

Lemma run_one_chain (fuel : nat) (es : list event) :
  forall m m', run fuel es m = Some m' -> one_chain m -> one_chain m'.
Proof.
  induction es as [| e es IH]; intros m m' Hrun Hm; cbn [run] in Hrun.
  - injection Hrun as <-. exact Hm.
  - destruct (step fuel e m) as [m1 |] eqn:Hstep; [| discriminate].
    apply (IH m1 m' Hrun). destruct e as [now id |]; cbn [step] in Hstep.
    + apply (fire_one_chain fuel now id m); assumption.
    + injection Hstep as <-. apply stop_one_chain. exact Hm.
Qed.

Lemma quiet_run (fuel : nat) (es : list event) :
  forall m,
    isPlaying m = false -> none_pending is_scheduler m ->
    exists m',
      run fuel es m = Some m' /\ clicks m' = clicks m /\
      nextNoteTime m' = nextNoteTime m /\ isPlaying m' = false /\
      none_pending is_scheduler m'.
Proof.
  induction es as [| e es IH]; intros m Hp Hnone.
  - exists m. auto.
  - assert (Hstep : exists m1,
               step fuel e m = Some m1 /\ clicks m1 = clicks m /\
               nextNoteTime m1 = nextNoteTime m /\ isPlaying m1 = false /\
               none_pending is_scheduler m1).
    { destruct e as [now id |]; cbn [step];
        [| exists m; rewrite (stop_when_stopped m Hp); auto].
      unfold fire.
      destruct (find (fun t => Nat.eqb (timer_id t) id) (timers m))
        as [t |] eqn:Hfind; [| exists m; auto].
      apply find_some in Hfind. destruct Hfind as [Hin _].
      destruct (idle_callback fuel now t
                  (with_timers (clear_timer id (timers m)) m) (Hnone t Hin))
        as (m2 & Hcb & Hc & Hp2 & _ & Hn & added & Htm & Hadd).
      exists m2. split; [exact Hcb |]. mfields.
      split; [exact Hc | split; [exact Hn | split; [congruence |]]].
      intros x Hx. rewrite Htm in Hx. apply in_app_or in Hx.
      destruct Hx as [Hx | Hx]; [| apply Hadd; exact Hx].
      apply Hnone. apply (clear_timer_incl id _ _ Hx). }
    destruct Hstep as (m1 & Hs & Hc1 & Hn1 & Hp1 & Hnone1).
    destruct (IH m1 Hp1 Hnone1) as (m' & Hrun & Hc & Hn & Hp' & Hnone').
    exists m'. cbn [run]. rewrite Hs.
    split; [exact Hrun | split; [congruence | split; [congruence | auto]]].
Qed.

Lemma scheduler_isPlaying (fuel : nat) (now : number) (m m' : state) :
  scheduler fuel now m = Some m' -> isPlaying m' = isPlaying m.
Proof.
  intros Hrun. unfold scheduler in Hrun.
  destruct (scheduleNote fuel now m) as [m1 |] eqn:Hloop; [| discriminate].
  assert (H1 : isPlaying m1 = isPlaying m).
  { apply (scheduleNote_preserves (fun x => isPlaying x = isPlaying m))
      with (fuel := fuel) (now := now) (m := m); auto.
    intros x Hx. destruct (beat_fields x) as (H & _). congruence. }
  destruct (isPlaying m1) eqn:Hp1;
    [| injection Hrun as <-; rewrite Hp1; exact H1].
  cbn in Hrun. injection Hrun as <-. mfields. rewrite Hp1. exact H1.
Qed.

Lemma idle_callback_dom (fuel : nat) (now : number) (t : timer callback)
    (m m' : state) :
  is_scheduler t = false ->
  run_callback fuel now (timer_callback t) m = Some m' ->
  at_rest (dom m) -> at_rest (dom m').
Proof.
  intros Hs Hcb Hrest. unfold is_scheduler in Hs.
  destruct (timer_callback t); cbn [run_callback] in Hcb;
    [discriminate | | |]; injection Hcb as <-.
  - exact Hrest.
  - destruct Hrest as [Hd | Hd]; rewrite Hd; [left; exact Hd |].
    right. reflexivity.
  - exact Hrest.
Qed.

Lemma step_calm (fuel : nat) (e : event) (m m' : state) :
  step fuel e m = Some m' -> one_chain m -> rests m -> rests m'.
Proof.
  intros Hstep Hm Hrest. destruct e as [now id |]; cbn [step] in Hstep.
  - unfold fire in Hstep.
    destruct (find (fun t => Nat.eqb (timer_id t) id) (timers m))
      as [t |] eqn:Hfind; [| injection Hstep as <-; exact Hrest].
    apply find_some in Hfind. destruct Hfind as [Hin _].
    set (m1 := with_timers (clear_timer id (timers m)) m) in *.
    destruct (is_scheduler t) eqn:Hs.
    + assert (Hcb : timer_callback t = SchedulerTick).
      { unfold is_scheduler in Hs. destruct (timer_callback t);
          [reflexivity | discriminate ..]. }
      rewrite Hcb in Hstep. cbn [run_callback] in Hstep.
      intros Hp'. rewrite (scheduler_isPlaying _ _ _ _ Hstep) in Hp'.
      destruct Hm as [_ Hidle]. rewrite (Hidle Hp' t Hin) in Hs.
      discriminate.
    + intros Hp'.
      destruct (idle_callback fuel now t m1 Hs) as (m2 & Hcb & _ & Hp & _).
      rewrite Hcb in Hstep. injection Hstep as <-.
      apply (idle_callback_dom fuel now t m1 m2 Hs Hcb).
      apply Hrest. rewrite Hp in Hp'. exact Hp'.
  - injection Hstep as <-. intros _. unfold stop.
    destruct (isPlaying m) eqn:Hp; [| apply Hrest; exact Hp].
    cbv zeta. mfields.
    destruct (intervalId m); mfields; destruct (dom m) eqn:Hd; mfields;
      rewrite ?Hd; [right | left | right | left]; reflexivity.
Qed.

Lemma run_calm (fuel : nat) (es : list event) :
  forall m m',
    run fuel es m = Some m' -> one_chain m -> rests m ->
    one_chain m' /\ rests m'.
Proof.
  induction es as [| e es IH]; intros m m' Hrun Hm Hrest; cbn [run] in Hrun.
  - injection Hrun as <-. auto.
  - destruct (step fuel e m) as [m1 |] eqn:Hstep; [| discriminate].
    apply (IH m1 m' Hrun).
    + apply (run_one_chain fuel [e] m m1); [| exact Hm].
      cbn [run]. rewrite Hstep. reflexivity.
    + apply (step_calm fuel e m m1); assumption.
Qed.

(** X17: Once a session that began without a stray scheduler timer is stopped,
    the metronome stays silent and its indicator at rest: whatever timers
    fire afterwards, each of them returns, no click is added,
    [nextNoteTime] stays, no scheduler timer is pending again, and the
    beat indicator shows nothing. *)
Theorem no_click_after_stop (fuel : nat) (now tempo : number) (countIn : bool)
    (q : state) (es : list event) (m : state) :
  none_pending is_scheduler q ->
  session fuel now tempo countIn q es = Some m ->
  forall fuel' es',
  exists m',
    run fuel' es' (stop m) = Some m' /\ clicks m' = clicks m /\
    nextNoteTime m' = nextNoteTime m /\ isPlaying m' = false /\
    none_pending is_scheduler m' /\ at_rest (dom m').
Proof.
  intros Hq Hsession fuel' es'. unfold session in Hsession.
  destruct (start fuel now tempo countIn q) as [m0 |] eqn:Hstart;
    [| discriminate].
  unfold start in Hstart.
  assert (H0 : one_chain m0).
  { eapply scheduler_one_chain; [| exact Hstart].
    intros t Ht. apply Hq. exact Ht. }
  assert (Hr0 : rests m0).
  { intros Hp. rewrite (scheduler_isPlaying _ _ _ _ Hstart) in Hp.
    discriminate Hp. }
  destruct (run_calm fuel es m0 m Hsession H0 Hr0) as [Hm Hrest].
  destruct (stop_one_chain m Hm) as [_ Hidle].
  destruct (quiet_run fuel' es' (stop m) (stop_isPlaying m)
              (Hidle (stop_isPlaying m)))
    as (m' & Hrun & Hc & Hn & Hp & Hnone).
  assert (Hrest' : at_rest (dom m')).
  { assert (Hs : one_chain (stop m) /\ rests (stop m)).
    { apply (run_calm fuel [Stop] m (stop m)); auto. }
    destruct Hs as [Hs1 Hs2].
    destruct (run_calm fuel' es' (stop m) m' Hrun Hs1 Hs2) as [_ H].
    apply H. exact Hp. }
  exists m'. split; [exact Hrun |].
  assert (Hsame : clicks (stop m) = clicks m /\
                  nextNoteTime (stop m) = nextNoteTime m).
  { unfold stop. destruct (isPlaying m); [| auto]. cbv zeta. mfields.
    destruct (intervalId m); mfields; destruct (dom m); auto. }
  destruct Hsame as [Hc' Hn'].
  split; [congruence | split; [congruence | auto]].
Qed.

Lemma session_at_100 :
  exists m,
    session 4 0 100 true (constructor None) [Fire (55 # 100) 1%nat] = Some m.
Proof. vm_compute. eexists. reflexivity. Qed.

Lemma no_click_after_stop_witness :
  exists m m',
    session 4 0 100 true (constructor None) [Fire (55 # 100) 1%nat] = Some m /\
    run 4 [Fire (115 # 100) 2%nat; Fire (175 # 100) 3%nat] (stop m) = Some m' /\
    clicks m' = clicks m.
Proof.
  destruct session_at_100 as [m Hm].
  destruct (no_click_after_stop 4 0 100 true (constructor None)
              [Fire (55 # 100) 1%nat] m (fun t (H : In t []) => match H with end)
              Hm 4 [Fire (115 # 100) 2%nat; Fire (175 # 100) 3%nat])
    as (m' & Hrun & Hc & _).
  exists m, m'. auto.
Defined.

Lemma plain_fewer (c0 n0 : nat) (k0 : list number) (m : state)
    (ts : list (timer callback)) :
  (forall t, In t ts -> In t (timers m)) ->
  plain c0 n0 k0 m -> plain c0 n0 k0 (with_timers ts m).
Proof.
  intros Hincl (Hc & Hho & Hcap & Hk & Hcl & Hb).
  unfold plain, none_pending. mfields. repeat split; auto.
Qed.

Lemma beat_plain (c0 n0 : nat) (k0 : list number) (m : state) :
  plain c0 n0 k0 m -> plain c0 n0 k0 (beat m).
Proof.
  intros (Hc & Hho & Hcap & Hk & Hcl & Hb).
  destruct (beat_after_counting m Hc) as (_ & Hc' & Hb').
  destruct (beat_fields m)
    as (_ & _ & Hk' & _ & _ & _ & Hclicks & added & Htm & Hadd & _).
  unfold plain. rewrite Hc', Hk', Hb', beat_count_in_clicks, Hc, Hclicks.
  rewrite length_app. cbn [List.length].
  repeat split; auto; try lia.
  - intros t Ht. rewrite Htm in Ht. apply in_app_or in Ht.
    destruct Ht as [Ht | Ht]; [apply Hho; exact Ht |].
    destruct (Hadd t Ht) as (_ & _ & Hh).
    destruct (is_handoff t); [| reflexivity].
    destruct (Hh eq_refl) as [Habs _]. congruence.
  - intros t Ht. rewrite Htm in Ht. apply in_app_or in Ht.
    destruct Ht as [Ht | Ht]; [apply Hcap; exact Ht |].
    apply (Hadd t Ht).
Qed.

Lemma scheduler_plain (c0 n0 : nat) (k0 : list number) (fuel : nat) (now : number)
    (m m' : state) :
  plain c0 n0 k0 m -> scheduler fuel now m = Some m' -> plain c0 n0 k0 m'.
Proof.
  intros Hm Hrun. unfold scheduler in Hrun.
  destruct (scheduleNote fuel now m) as [m1 |] eqn:Hloop; [| discriminate].
  assert (H1 : plain c0 n0 k0 m1).
  { apply (scheduleNote_preserves (plain c0 n0 k0) (beat_plain c0 n0 k0)
             fuel now m m1 Hloop Hm). }
  destruct (isPlaying m1); [| injection Hrun as <-; exact H1].
  cbn in Hrun. injection Hrun as <-.
  destruct H1 as (Hc & Hho & Hcap & Hk & Hcl & Hb).
  unfold plain, none_pending. mfields. repeat split; auto.
  - intros t Ht. apply in_app_or in Ht.
    destruct Ht as [Ht | [<- | []]]; [apply Hho; exact Ht | reflexivity].
  - intros t Ht. apply in_app_or in Ht.
    destruct Ht as [Ht | [<- | []]]; [apply Hcap; exact Ht | reflexivity].
Qed.

Lemma fire_plain (c0 n0 : nat) (k0 : list number) (fuel : nat) (now : number)
    (id : nat) (m m' : state) :
  plain c0 n0 k0 m -> fire fuel now id m = Some m' -> plain c0 n0 k0 m'.
Proof.
  intros Hm Hfire. unfold fire in Hfire.
  destruct (find (fun t => Nat.eqb (timer_id t) id) (timers m))
    as [t |] eqn:Hfind; [| injection Hfire as <-; exact Hm].
  apply find_some in Hfind. destruct Hfind as [Hin _].
  set (m1 := with_timers (clear_timer id (timers m)) m) in *.
  assert (Hm1 : plain c0 n0 k0 m1).
  { apply plain_fewer; [| exact Hm].
    intros x Hx. apply (clear_timer_incl id _ _ Hx). }
  destruct Hm as (_ & Hho & Hcap & _).
  pose proof (Hho t Hin) as Hh. pose proof (Hcap t Hin) as Hcp.
  unfold is_handoff in Hh. unfold is_capture in Hcp.
  destruct (timer_callback t); cbn [run_callback] in Hfire;
    try discriminate.
  - apply (scheduler_plain c0 n0 k0 fuel now m1 m' Hm1 Hfire).
  - injection Hfire as <-. change (dom m1) with (dom m).
    destruct (dom m); [| exact Hm1].
    destruct Hm1 as (H1 & H2 & H3 & H4 & H5 & H6).
    unfold plain, none_pending. mfields. repeat split; auto.
Qed.

Lemma stop_plain (c0 n0 : nat) (k0 : list number) (m : state) :
  plain c0 n0 k0 m -> plain c0 n0 k0 (stop m).
Proof.
  intros Hm. destruct (isPlaying m) eqn:Hp;
    [| rewrite (stop_when_stopped m Hp); exact Hm].
  destruct (stop_fields m Hp) as (Hc' & _ & _ & Hcl' & Hk' & _ & Htm).
  assert (Hb' : beatCount (stop m) = beatCount m).
  { unfold stop. rewrite Hp. cbv zeta. mfields.
    destruct (intervalId m); mfields; destruct (dom m); reflexivity. }
  destruct Hm as (Hc & Hho & Hcap & Hk & Hcl & Hb).
  unfold plain, count_in_clicks in *. rewrite Hc', Hcl', Hk', Hb'.
  repeat split; auto; intros t Ht; [apply Hho | apply Hcap];
    apply (Htm t Ht).
Qed.

Lemma run_plain (c0 n0 : nat) (k0 : list number) (fuel : nat) (es : list event) :
  forall m m',
    run fuel es m = Some m' -> plain c0 n0 k0 m -> plain c0 n0 k0 m'.
Proof.
  induction es as [| e es IH]; intros m m' Hrun Hm; cbn [run] in Hrun.
  - injection Hrun as <-. exact Hm.
  - destruct (step fuel e m) as [m1 |] eqn:Hstep; [| discriminate].
    apply (IH m1 m' Hrun). destruct e as [now id |]; cbn [step] in Hstep.
    + apply (fire_plain c0 n0 k0 fuel now id m); assumption.
    + injection Hstep as <-. apply stop_plain. exact Hm.
Qed.

(** X18: A session begun with [start(bpm, false)] on a metronome with no
    recording on its way never counts in and never starts a recording:
    [isCountingIn] stays unset, no handoff and no capture timer is ever
    pending, [startDirectCapture] is not called, every click is an ordinary
    one, and [beatCount] is the number of clicks since [start]. *)
Theorem start_without_count_in (fuel : nat) (now tempo : number) (q : state)
    (es : list event) (m : state) :
  none_pending is_handoff q -> none_pending is_capture q ->
  session fuel now tempo false q es = Some m ->
  isCountingIn m = false /\
  none_pending is_handoff m /\ none_pending is_capture m /\
  captures m = captures q /\
  count_in_clicks m = count_in_clicks q /\
  Z.of_nat (List.length (clicks m))
  = Z.of_nat (List.length (clicks q)) + beatCount m.
Proof.
  intros Hho Hcap Hsession. unfold session in Hsession.
  destruct (start fuel now tempo false q) as [m0 |] eqn:Hstart;
    [| discriminate].
  apply (run_plain (count_in_clicks q) (List.length (clicks q)) (captures q)
           fuel es m0 m Hsession).
  unfold start in Hstart.
  eapply scheduler_plain; [| exact Hstart].
  unfold plain, none_pending, count_in_clicks. mfields.
  repeat split; auto. lia.
Qed.

Lemma plain_session_at_100 :
  exists m,
    session 4 0 100 false (constructor None)
      [Fire (55 # 100) 1%nat; Fire (115 # 100) 2%nat] = Some m.
Proof. vm_compute. eexists. reflexivity. Qed.

Lemma start_without_count_in_witness :
  exists m,
    session 4 0 100 false (constructor None)
      [Fire (55 # 100) 1%nat; Fire (115 # 100) 2%nat] = Some m /\
    isCountingIn m = false /\ captures m = [].
Proof.
  destruct plain_session_at_100 as [m Hm].
  destruct (start_without_count_in 4 0 100 (constructor None) _ m
              (fun t (H : In t []) => match H with end)
              (fun t (H : In t []) => match H with end) Hm)
    as (H1 & _ & _ & H4 & _).
  exists m. auto.
Defined.

End BeatProofs.

